(** * Verification of the resume extractor [src/scripts/parse-resume.ts]

    The TypeScript program turns the flattened text of a resume into a
    structured record.  This development embeds the program function by
    function and proves the properties its specification states.

    Strings are sequences of UTF-16 code units, as in JavaScript; a code
    unit is a binary natural number.  Regular expression literals of the
    source are values of the type [Re.re], run by a backtracking matcher
    that follows the priority order of the ECMAScript semantics (leftmost
    start, first alternative first, greedy repetition). *)

From Stdlib Require Import String Ascii.
From Stdlib Require Import List NArith ZArith Bool Arith Lia.
From Stdlib Require Import Sorting.Sorted Permutation.
Import ListNotations.

Set Implicit Arguments.

(* ===================================================================== *)
(** ** JavaScript strings *)
(* ===================================================================== *)

Module JS.

Definition char := N.
Bind Scope N_scope with char.
Definition str := list char.

(** An ASCII literal of the source as a sequence of code units. *)
Definition lit (s : string) : str := map N_of_ascii (list_ascii_of_string s).

Definition NL : char := 10%N.          (* '\n' *)
Definition SPACE : char := 32%N.       (* ' '  *)
Definition PIPE : char := 124%N.       (* '|'  *)
Definition COMMA : char := 44%N.       (* ','  *)
Definition BULLET : char := 8226%N.    (* U+2022 *)

Definition inRange (lo hi c : char) : bool := (lo <=? c)%N && (c <=? hi)%N.

(** ECMAScript LineTerminator: LF, CR, LS, PS. *)
Definition isLineTerminator (c : char) : bool :=
  (c =? 10)%N || (c =? 13)%N || (c =? 8232)%N || (c =? 8233)%N.

(** ECMAScript WhiteSpace plus LineTerminator: what [trim] strips and what
    the class [\s] matches. *)
Definition isSpace (c : char) : bool :=
  inRange 9 13 c || (c =? 32)%N || (c =? 160)%N || (c =? 5760)%N
  || inRange 8192 8202 c || (c =? 8232)%N || (c =? 8233)%N
  || (c =? 8239)%N || (c =? 8287)%N || (c =? 12288)%N || (c =? 65279)%N.

Definition isDigit (c : char) : bool := inRange 48 57 c.
Definition isUpper (c : char) : bool := inRange 65 90 c.
Definition isLower (c : char) : bool := inRange 97 122 c.
Definition isAlpha (c : char) : bool := isUpper c || isLower c.
(** The class [\w]. *)
Definition isWord (c : char) : bool := isAlpha c || isDigit c || (c =? 95)%N.

Fixpoint str_eqb (a b : str) : bool :=
  match a, b with
  | [], [] => true
  | x :: a', y :: b' => (x =? y)%N && str_eqb a' b'
  | _, _ => false
  end.

Fixpoint dropWhile (p : char -> bool) (s : str) : str :=
  match s with
  | [] => []
  | c :: t => if p c then dropWhile p t else s
  end.

Definition trimStart (s : str) : str := dropWhile isSpace s.
Definition trimEnd (s : str) : str := rev (dropWhile isSpace (rev s)).
(** [String.prototype.trim]. *)
Definition trim (s : str) : str := trimEnd (trimStart s).

(** Truthiness of a string: [Boolean(s)], [s.length > 0]. *)
Definition nonEmpty (s : str) : bool :=
  match s with [] => false | _ => true end.

(** [s.split(c)] for a separator of one code unit. *)
Fixpoint splitOn (sep : char) (s : str) : list str :=
  match s with
  | [] => [[]]
  | c :: t =>
      if (c =? sep)%N then [] :: splitOn sep t
      else match splitOn sep t with
           | h :: r => (c :: h) :: r
           | [] => [[c]]
           end
  end.

(** [a.join(sep)]. *)
Fixpoint join (sep : str) (l : list str) : str :=
  match l with
  | [] => []
  | [x] => x
  | x :: r => x ++ sep ++ join sep r
  end.

(** [s.includes(c)] for one code unit. *)
Definition includes (c : char) (s : str) : bool := existsb (N.eqb c) s.

(** [s.startsWith(p)]. *)
Fixpoint startsWith (p s : str) : bool :=
  match p, s with
  | [], _ => true
  | x :: p', y :: s' => (x =? y)%N && startsWith p' s'
  | _ :: _, [] => false
  end.

(** [s.lastIndexOf(c)]: the greatest index holding [c], or -1. *)
Fixpoint lastIndexFrom (c : char) (s : str) (i : Z) (best : Z) : Z :=
  match s with
  | [] => best
  | x :: t => lastIndexFrom c t (i + 1) (if (x =? c)%N then i else best)
  end.
Definition lastIndexOf (c : char) (s : str) : Z := lastIndexFrom c s 0 (-1).

(** [s.lastIndexOf(c, pos)]: the greatest index not above [pos] holding
    [c]; a negative [pos] is clamped to 0. *)
Definition lastIndexOfAt (c : char) (s : str) (pos : Z) : Z :=
  let p := Z.max 0 pos in
  lastIndexFrom c (firstn (Z.to_nat p + 1) s) 0 (-1).

(** [s.slice(a, b)] and [s.slice(a)] with the clamping of the language. *)
Definition clampIndex (len i : Z) : Z :=
  if (i <? 0)%Z then Z.max (len + i) 0 else Z.min i len.
Definition slice (s : str) (a b : Z) : str :=
  let len := Z.of_nat (length s) in
  let from := clampIndex len a in
  let to := clampIndex len b in
  firstn (Z.to_nat (to - from)) (skipn (Z.to_nat from) s).
Definition sliceFrom (s : str) (a : Z) : str :=
  slice s a (Z.of_nat (length s)).

(** [Array.from(new Set(l))]: first occurrences, in order. *)
Fixpoint dedupeAcc (seen : list str) (l : list str) : list str :=
  match l with
  | [] => []
  | x :: r =>
      if existsb (str_eqb x) seen then dedupeAcc seen r
      else x :: dedupeAcc (x :: seen) r
  end.
Definition dedupe (l : list str) : list str := dedupeAcc [] l.

(** [a.find(p) || ''] on an array of strings. *)
Definition findOrEmpty (p : str -> bool) (l : list str) : str :=
  match find p l with Some x => x | None => [] end.

(** [s.toLowerCase()].  Capital ASCII letters map to small ones; of the
    code units outside ASCII only two have a lower-case form that contains
    an ASCII letter: U+212A (Kelvin sign, to k) and U+0130 (to i followed by
    U+0307).  Every other code unit outside ASCII maps to code units
    outside ASCII and is left as it is here: the one use of this function,
    in the key of the project table, replaces all of them by spaces. *)
Definition lowerUnit (c : char) : str :=
  if isUpper c then [(c + 32)%N]
  else if (c =? 8490)%N then [107%N]
  else if (c =? 304)%N then [105%N; 775%N]
  else [c].
Definition toLowerCase (s : str) : str := flat_map lowerUnit s.

End JS.
Import JS.

(* ===================================================================== *)
(** ** Regular expressions *)
(* ===================================================================== *)

Module Re.

(** Syntax of the patterns the program uses.  [Cls p] is any one-unit
    atom (a literal, a class, an escape such as [\d]); [Group n a] is the
    [n]-th capturing group; [Bol], [Eol] and [WordB] are the assertions
    [^], [$] (without the multiline flag) and [\b]. *)
Inductive re : Type :=
| Eps
| Cls (p : char -> bool)
| Cat (a b : re)
| Alt (a b : re)
| Star (a : re)
| Group (n : nat) (a : re)
| Bol
| Eol
| WordB.

(** Captures, most recent first. *)
Definition caps := list (nat * str).

Definition capture (n : nat) (c : caps) : str :=
  match find (fun e => Nat.eqb (fst e) n) c with
  | Some e => snd e
  | None => []
  end.

Definition isWordOpt (c : option char) : bool :=
  match c with Some x => isWord x | None => false end.

(** [\b]: exactly one of the units before and after is a word unit. *)
Definition atWordBoundary (prev : option char) (s : str) : bool :=
  xorb (isWordOpt prev) (isWordOpt (hd_error s)).

Section Matcher.

Variable R : Type.

(** A continuation receives the unit just consumed (for [\b] and [^]),
    the rest of the input and the captures. *)
Definition cont := option char -> str -> caps -> option R.

(** Greedy repetition.  An iteration that consumes nothing is rejected,
    as in the language; every accepted iteration shortens the input, so
    the counter, started above the length of the input, never runs out. *)
Fixpoint starLoop (step : option char -> str -> caps -> cont -> option R)
    (fuel : nat) (prev : option char) (s : str) (c : caps) (k : cont)
    : option R :=
  match fuel with
  | O => k prev s c
  | S f =>
      match step prev s c
              (fun p' s' c' =>
                 if length s' <? length s then starLoop step f p' s' c' k
                 else None) with
      | Some v => Some v
      | None => k prev s c
      end
  end.

Fixpoint run (r : re) (prev : option char) (s : str) (c : caps) (k : cont)
    : option R :=
  match r with
  | Eps => k prev s c
  | Cls p =>
      match s with
      | x :: t => if p x then k (Some x) t c else None
      | [] => None
      end
  | Cat a b => run a prev s c (fun p' s' c' => run b p' s' c' k)
  | Alt a b =>
      match run a prev s c k with
      | Some v => Some v
      | None => run b prev s c k
      end
  | Star a => starLoop (run a) (S (length s)) prev s c k
  | Group n a =>
      run a prev s c
        (fun p' s' c' => k p' s' ((n, firstn (length s - length s') s) :: c'))
  | Bol => match prev with None => k prev s c | Some _ => None end
  | Eol => match s with [] => k prev s c | _ :: _ => None end
  | WordB => if atWordBoundary prev s then k prev s c else None
  end.

End Matcher.

(** A match: where it starts, the text it covers, the input after it and
    the captures. *)
Record hit : Type := Hit {
  index : nat;
  matched : str;
  after : str;
  groups : caps
}.

(** The match of [r] that starts exactly here, if there is one. *)
Definition execAt (r : re) (prev : option char) (s : str) (i : nat)
    : option hit :=
  run r prev s []
    (fun _ s' c => Some (Hit i (firstn (length s - length s') s) s' c)).

(** The leftmost match: [r.exec(s)], [s.match(r)] without the g flag. *)
Fixpoint execFrom (r : re) (prev : option char) (s : str) (i : nat)
    : option hit :=
  match execAt r prev s i with
  | Some h => Some h
  | None =>
      match s with
      | [] => None
      | x :: t => execFrom r (Some x) t (S i)
      end
  end.

Definition exec (r : re) (s : str) : option hit := execFrom r None s 0.

(** [r.test(s)]. *)
Definition test (r : re) (s : str) : bool :=
  match exec r s with Some _ => true | None => false end.

(** [s.search(r)]: the index of the leftmost match, or -1. *)
Definition search (r : re) (s : str) : Z :=
  match exec r s with Some h => Z.of_nat (index h) | None => (-1)%Z end.

(** [s.replace(r, rep)] without the g flag: the leftmost match only. *)
Definition replaceFirst (r : re) (rep : str) (s : str) : str :=
  match exec r s with
  | Some h => firstn (index h) s ++ rep ++ after h
  | None => s
  end.

(** [s.replace(r, rep)] with the g flag.  [skip] counts the units of the
    current match still to be dropped.  A match of the empty string
    inserts [rep] and keeps the unit. *)
Fixpoint replaceAllFrom (r : re) (rep : str) (prev : option char) (s : str)
    (skip : nat) : str :=
  match s with
  | [] =>
      match skip, execAt r prev [] 0 with
      | O, Some _ => rep
      | _, _ => []
      end
  | x :: t =>
      match skip with
      | S n => replaceAllFrom r rep (Some x) t n
      | O =>
          match execAt r prev s 0 with
          | Some h =>
              match length (matched h) with
              | O => rep ++ x :: replaceAllFrom r rep (Some x) t 0
              | S n => rep ++ replaceAllFrom r rep (Some x) t n
              end
          | None => x :: replaceAllFrom r rep (Some x) t 0
          end
      end
  end.

Definition replaceAll (r : re) (rep : str) (s : str) : str :=
  replaceAllFrom r rep None s 0.

(** [s.split(r)].  [acc] holds, reversed, the units since the end of the
    last separator.  A separator match that is empty and starts where the
    last one ended is ignored, as in the language. *)
Fixpoint splitFrom (r : re) (prev : option char) (s : str) (acc : str)
    (skip : nat) : list str :=
  match s with
  | [] => [rev acc]
  | x :: t =>
      match skip with
      | S n => splitFrom r (Some x) t acc n
      | O =>
          match execAt r prev s 0 with
          | Some h =>
              match length (matched h), acc with
              | O, [] => splitFrom r (Some x) t [x] 0
              | O, _ :: _ => rev acc :: splitFrom r (Some x) t [x] 0
              | S n, _ => rev acc :: splitFrom r (Some x) t [] n
              end
          | None => splitFrom r (Some x) t (x :: acc) 0
          end
      end
  end.

Definition split (r : re) (s : str) : list str :=
  match s with
  | [] => match execAt r None [] 0 with Some _ => [] | None => [[]] end
  | _ :: _ => splitFrom r None s [] 0
  end.

(** *** Pattern constructors *)

Definition Chr (c : char) : re := Cls (N.eqb c).

(** Canonical form of a unit under the i flag.  All literals of the patterns
    with that flag are ASCII; a unit outside ASCII never folds to an ASCII
    one, so only the two cases of an ASCII letter match it. *)
Definition canonicalize (c : char) : char :=
  if isLower c then (c - 32)%N else c.
Definition ChrI (c : char) : re :=
  Cls (fun x => (canonicalize x =? canonicalize c)%N).

Fixpoint Seq (l : list re) : re :=
  match l with
  | [] => Eps
  | [a] => a
  | a :: r => Cat a (Seq r)
  end.

Fixpoint Alts (l : list re) : re :=
  match l with
  | [] => Cls (fun _ => false)
  | [a] => a
  | a :: r => Alt a (Alts r)
  end.

(** A literal, with and without the i flag. *)
Definition Lit (s : string) : re := Seq (map Chr (lit s)).
Definition LitI (s : string) : re := Seq (map ChrI (lit s)).

Definition Opt (a : re) : re := Alt a Eps.          (* a?    *)
Definition Plus (a : re) : re := Cat a (Star a).    (* a+    *)
Fixpoint Rep (n : nat) (a : re) : re :=             (* a{n}  *)
  match n with
  | O => Eps
  | S m => Cat a (Rep m a)
  end.
Definition AtLeast (n : nat) (a : re) : re :=       (* a{n,} *)
  Cat (Rep n a) (Star a).

Definition Digit : re := Cls isDigit.                       (* \d *)
Definition Space : re := Cls isSpace.                       (* \s *)
Definition NonSpace : re := Cls (fun c => negb (isSpace c)). (* \S *)
Definition Dot : re := Cls (fun c => negb (isLineTerminator c)). (* . *)
Definition OneOf (s : string) : re :=
  Cls (fun c => existsb (N.eqb c) (lit s)).

End Re.
Import Re.


(* ===================================================================== *)
(** ** Outcomes of a computation *)
(* ===================================================================== *)

(** A computation returns a value, raises a TypeError (a method called on
    [undefined] or [null]), or exhausts the step budget of a loop. *)
Inductive outcome (A : Type) : Type :=
| Ok (a : A)
| TypeError
| Timeout.
Arguments Ok {A} a.
Arguments TypeError {A}.
Arguments Timeout {A}.

Definition bind {A B : Type} (c : outcome A) (k : A -> outcome B) : outcome B :=
  match c with
  | Ok a => k a
  | TypeError => TypeError
  | Timeout => Timeout
  end.

Notation "x <- c ;; k" := (bind c (fun x => k))
  (at level 61, c at next level, right associativity).
Notation "' p <- c ;; k" := (bind c (fun x => match x with p => k end))
  (at level 61, p pattern, c at next level, right associativity).

(** Using the result of an array read: [undefined] raises. *)
Definition must {A : Type} (o : option A) : outcome A :=
  match o with Some a => Ok a | None => TypeError end.

Definition isOk {A : Type} (c : outcome A) : bool :=
  match c with Ok _ => true | _ => false end.

(** [a[i]]: [None] is [undefined]. *)
Definition get {A : Type} (l : list A) (i : nat) : option A := nth_error l i.

(** [a[i] = v] for an index inside the array (the program assigns only to
    the last element of a non-empty array). *)
Fixpoint setAt {A : Type} (i : nat) (v : A) (l : list A) : list A :=
  match l, i with
  | [], _ => []
  | _ :: r, O => v :: r
  | x :: r, S j => x :: setAt j v r
  end.

(** [a.slice(start, end)] on an array, for indices within its length. *)
Definition sliceArr {A : Type} (a b : nat) (l : list A) : list A :=
  firstn (b - a) (skipn a l).

(** Tables that keep insertion order: a JavaScript object with string
    keys that are not array indices, and a [Map].  Assigning to a key
    that is present replaces its value where it stands. *)
Section Table.
Variables K V : Type.
Variable eqb : K -> K -> bool.

Fixpoint tableGet (k : K) (m : list (K * V)) : option V :=
  match m with
  | [] => None
  | (k', v) :: r => if eqb k k' then Some v else tableGet k r
  end.

Definition tableHas (k : K) (m : list (K * V)) : bool :=
  match tableGet k m with Some _ => true | None => false end.

Fixpoint tableSet (k : K) (v : V) (m : list (K * V)) : list (K * V) :=
  match m with
  | [] => [(k, v)]
  | (k', v') :: r =>
      if eqb k k' then (k', v) :: r else (k', v') :: tableSet k v r
  end.

Definition tableValues (m : list (K * V)) : list V := map snd m.
End Table.

(* ===================================================================== *)
(** ** The record and its parts ([type Resume]) *)
(* ===================================================================== *)

(** Every field the type marks optional is an [option]: [None] is an absent
    key (or one whose value is [undefined], which serialization drops).
    Field names are those of the source; where two records of the source
    share a name ([name], [duration], [location], [bullets]) all but one
    carry the prefix of their record. *)
Record Contact : Type := {
  email : option str;
  phone : option str;
  location : option str;
  website : option str;
  linkedin : option str;
  github : option str
}.

Record ExperienceEntry : Type := {
  company : option str;
  role : option str;
  expDuration : option str;
  expLocation : option str;
  expBullets : option (list str)
}.

Record ProjectEntry : Type := {
  name : option str;
  description : option str;
  tech : option (list str);
  link : option str;
  bullets : option (list str)
}.

Record EducationEntry : Type := {
  school : option str;
  degree : option str;
  eduDuration : option str;
  eduLocation : option str
}.

(** [Record<string, string[]> | string[]] *)
Inductive SkillSet : Type :=
| SkillMap (m : list (str * list str))
| SkillList (l : list str).

Record Resume : Type := {
  resName : option str;
  headline : option str;
  contact : option Contact;
  summary : option str;
  skills : option SkillSet;
  experience : option (list ExperienceEntry);
  projects : option (list ProjectEntry);
  education : option (list EducationEntry);
  certifications : option (list str)
}.

(* ===================================================================== *)
(** ** [parseSections] *)
(* ===================================================================== *)

(** The keys of the [sections] object. *)
Inductive Key : Type :=
| KHeader | KSummary | KEducation | KExperience | KSkills | KProjects
| KCertifications.

Definition key_eqb (a b : Key) : bool :=
  match a, b with
  | KHeader, KHeader | KSummary, KSummary | KEducation, KEducation
  | KExperience, KExperience | KSkills, KSkills | KProjects, KProjects
  | KCertifications, KCertifications => true
  | _, _ => false
  end.

(** [headerLabels], in the order of the source. *)
Definition headerLabels : list (Key * re) :=
  [ (KSummary, Alt (LitI "Summary") (LitI "Objective"));
    (KEducation, LitI "Education");
    (KExperience,
       Cat (Opt (Cat (LitI "Professional") (Plus Space))) (LitI "Experience"));
    (KSkills,
       Alts [Seq [LitI "Technical"; Plus Space; LitI "Skills"];
             LitI "Skills"; LitI "SKILLS"]);
    (KProjects, LitI "Projects");
    (KCertifications, LitI "Certifications") ].

(** [new RegExp(`^${h.label.source}$`, 'i')] *)
Definition anchored (label : re) : re := Seq [Bol; label; Eol].

Record HeaderLine : Type := { key : Key; lineIndex : nat }.

(** The state of the scan: [headerLines] and [seen]. *)
Definition scanState : Type := (list HeaderLine * list Key)%type.

(** The inner loop, over the labels, for line [i]. *)
Definition scanLabels (line : str) (i : nat) (st : scanState) : scanState :=
  fold_left
    (fun (st : scanState) (h : Key * re) =>
       let (hl, seen) := st in
       if existsb (key_eqb (fst h)) seen then st
       else if test (anchored (snd h)) line
            then (hl ++ [{| key := fst h; lineIndex := i |}], fst h :: seen)
            else st)
    headerLabels st.

(** The outer loop, over the lines from index [i] on. *)
Fixpoint scanLines (lines : list str) (i : nat) (st : scanState) : scanState :=
  match lines with
  | [] => st
  | line :: rest => scanLines rest (S i) (scanLabels line i st)
  end.

(** [headerLines.sort((a, b) => a.lineIndex - b.lineIndex)]: the sort of
    the language is stable. *)
Fixpoint insertByLine (x : HeaderLine) (l : list HeaderLine) : list HeaderLine :=
  match l with
  | [] => [x]
  | y :: r =>
      if lineIndex x <=? lineIndex y then x :: l else y :: insertByLine x r
  end.
Definition sortByLine (l : list HeaderLine) : list HeaderLine :=
  fold_right insertByLine [] l.

(** The matched header lines, in the order used to cut the text. *)
Definition findHeaderLines (lines : list str) : list HeaderLine :=
  sortByLine (fst (scanLines lines 0 ([], []))).

Definition firstHeaderLine (hl : list HeaderLine) (lines : list str) : nat :=
  match hl with
  | h :: _ => lineIndex h
  | [] => length lines
  end.

(** The key and the line range [start, end) of the [i]-th header line. *)
Definition boundsAt (hl : list HeaderLine) (nlines i : nat)
    : outcome (Key * nat * nat) :=
  h <- must (get hl i) ;;
  let start := lineIndex h + 1 in
  stop <- (if i + 1 <? length hl
           then h' <- must (get hl (i + 1)) ;; Ok (lineIndex h')
           else Ok nlines) ;;
  Ok (key h, start, stop).

Definition sectionText (lines : list str) (a b : nat) : str :=
  trim (join [NL] (sliceArr a b lines)).

(** The loop that fills [sections], from index [i], [n] more rounds. *)
Fixpoint fillSections (hl : list HeaderLine) (lines : list str)
    (n i : nat) (sections : list (Key * str)) : outcome (list (Key * str)) :=
  match n with
  | O => Ok sections
  | S n' =>
      '(k, start, stop) <- boundsAt hl (length lines) i ;;
      fillSections hl lines n' (S i)
        (tableSet key_eqb k (sectionText lines start stop) sections)
  end.

Record Parsed : Type := {
  pLines : list str;
  pContent : str;
  pSections : list (Key * str)
}.

Definition parseSections (text : str) : outcome Parsed :=
  let allLines := splitOn NL text in
  let lines := map trim allLines in
  let content := join [NL] lines in
  let hl := findHeaderLines lines in
  let sections0 :=
    [(KHeader, sectionText lines 0 (firstHeaderLine hl lines))] in
  sections <- fillSections hl lines (length hl) 0 sections0 ;;
  Ok {| pLines := filter nonEmpty lines;
        pContent := content;
        pSections := sections |}.

(* ===================================================================== *)
(** ** [extractHeader] *)
(* ===================================================================== *)

Definition orEmpty (o : option str) : str :=
  match o with Some s => s | None => [] end.

Definition reAt : re := Chr 64.                              (* /@/ *)
(** [/\+?\d[\d\s().-]{7,}\d/] *)
Definition rePhone : re :=
  Seq [Opt (Chr 43); Digit;
       AtLeast 7 (Cls (fun c => isDigit c || isSpace c
                                || existsb (N.eqb c) (lit "().-")));
       Digit].
Definition reDot : re := Chr 46.                             (* /\./ *)
(** [/malik|sha256|http/i] *)
Definition reSite : re := Alts [LitI "malik"; LitI "sha256"; LitI "http"].
Definition reLinkedin : re := LitI "linkedin.com".           (* /linkedin\.com/i *)
Definition reGithub : re := LitI "github.com".               (* /github\.com/i *)

Definition isEmail (p : str) : bool := test reAt p.
Definition isPhone (p : str) : bool := test rePhone p.
Definition isWebsite (p : str) : bool :=
  test reDot p && negb (test reAt p) && test reSite p.
Definition isLinkedin (p : str) : bool := test reLinkedin p.
Definition isGithub (p : str) : bool := test reGithub p.

(** The tokens of the contact line. *)
Definition contactParts (secondLine : str) : list str :=
  filter nonEmpty (map trim (splitOn PIPE secondLine)).

Definition contactOf (parts : list str) : Contact :=
  {| email := Some (findOrEmpty isEmail parts);
     phone := Some (findOrEmpty isPhone parts);
     website := Some (findOrEmpty isWebsite parts);
     linkedin := Some (findOrEmpty isLinkedin parts);
     github := Some (findOrEmpty isGithub parts);
     location := Some [] |}.

(** The lines the function keeps: those that are not blank. *)
Definition nonBlank (lines : list str) : list str :=
  filter (fun l => nonEmpty (trim l)) lines.

Definition extractHeader (lines : list str) : Resume :=
  let nonEmptyLines := nonBlank lines in
  let firstLine := orEmpty (get nonEmptyLines 0) in
  let secondLine := orEmpty (get nonEmptyLines 1) in
  {| resName := if nonEmpty firstLine then Some (trim firstLine) else None;
     headline := None;
     contact := Some (contactOf (contactParts secondLine));
     summary := None; skills := None; experience := None; projects := None;
     education := None; certifications := None |}.

(* ===================================================================== *)
(** ** [extractList] *)
(* ===================================================================== *)

(** [/\n|•|•|\-/] *)
Definition reListSep : re := Alts [Chr 10; Chr 8226; Chr 8226; Chr 45].
(** [/^\b(?:Skills|Technical Skills|SKILLS)\b/i] *)
Definition reSkillsLabel : re :=
  Seq [Bol; WordB;
       Alts [LitI "Skills"; LitI "Technical Skills"; LitI "SKILLS"]; WordB].

Definition extractList (section : str) : list str :=
  filter (fun s => nonEmpty s && negb (test reSkillsLabel s))
         (map trim (split reListSep section)).

(** The non-blank trimmed lines of a section, as every extractor takes
    them: [section.split('\n').map(l => l.trim()).filter(Boolean)]. *)
Definition sectionLines (section : str) : list str :=
  filter nonEmpty (map trim (splitOn NL section)).

(* ===================================================================== *)
(** ** [extractExperience] *)
(* ===================================================================== *)

(** [monthRe] *)
Definition monthRe : re :=
  Group 1 (Alts
    [ Cat (LitI "Jan") (Opt (LitI "uary"));
      Cat (LitI "Feb") (Opt (LitI "ruary"));
      Cat (LitI "Mar") (Opt (LitI "ch"));
      Cat (LitI "Apr") (Opt (LitI "il"));
      LitI "May";
      Cat (LitI "Jun") (Opt (LitI "e"));
      Cat (LitI "Jul") (Opt (LitI "y"));
      Cat (LitI "Aug") (Opt (LitI "ust"));
      Cat (LitI "Sep") (Alt (LitI "t") (LitI "tember"));
      Cat (LitI "Oct") (Opt (LitI "ober"));
      Cat (LitI "Nov") (Opt (LitI "ember"));
      Cat (LitI "Dec") (Opt (LitI "ember")) ]).

(** [/(\b\d{4}\b|Present)/] *)
Definition reYearOrPresent : re :=
  Group 1 (Alt (Seq [WordB; Rep 4 Digit; WordB]) (Lit "Present")).
(** [/[A-Za-z]/] *)
Definition reLetter : re := Cls isAlpha.
(** [/^•\s*/] *)
Definition reBulletPrefix : re := Seq [Bol; Chr 8226; Star Space].

(** The inner loop: collects the bullets from line [i] on and returns the
    cursor with them. *)
Fixpoint collectBullets (fuel : nat) (lines : list str) (i : nat)
    (bs : list str) : outcome (nat * list str) :=
  match fuel with
  | O => Timeout
  | S f =>
      if i <? length lines then
        li <- must (get lines i) ;;
        if test reYearOrPresent li then Ok (i, bs)
        else if str_eqb li [BULLET] && (i + 1 <? length lines) then
          bulletText <- must (get lines (i + 1)) ;;
          collectBullets f lines (i + 2) (bs ++ [bulletText])
        else if startsWith [BULLET; SPACE] li then
          collectBullets f lines (i + 1)
            (bs ++ [replaceFirst reBulletPrefix [] li])
        else if 0 <? length bs then
          lastB <- must (get bs (length bs - 1)) ;;
          collectBullets f lines (i + 1)
            (setAt (length bs - 1) (trim (lastB ++ [SPACE] ++ li)) bs)
        else
          collectBullets f lines (i + 1) (bs ++ [li])
      else Ok (i, bs)
  end.

(** The company and duration of a heading line. *)
Definition splitCompany (line : str) : str * str :=
  match exec monthRe line with
  | Some m =>
      (trim (slice line 0 (Z.of_nat (index m))),
       trim (sliceFrom line (Z.of_nat (index m))))
  | None => (line, [])
  end.

(** The role and location of the line after the heading. *)
Definition splitRole (rl : str) : str * str :=
  let commaIdx := lastIndexOf COMMA rl in
  if (commaIdx =? -1)%Z then (trim rl, [])
  else (trim (slice rl 0 commaIdx), trim (sliceFrom rl (commaIdx + 1))).

(** The outer loop. *)
Fixpoint experienceLoop (fuel : nat) (lines : list str) (i : nat)
    (items : list ExperienceEntry) : outcome (list ExperienceEntry) :=
  match fuel with
  | O => Timeout
  | S f =>
      if i <? length lines then
        line <- must (get lines i) ;;
        if test reYearOrPresent line && test reLetter line then
          let (comp, dur) := splitCompany line in
          '(rolo, i1) <-
             (if i + 1 <? length lines
              then rl <- must (get lines (i + 1)) ;; Ok (splitRole rl, i + 2)
              else Ok (([], []), i + 1)) ;;
          '(i2, bs) <- collectBullets (S (length lines)) lines i1 [] ;;
          experienceLoop f lines i2
            (items ++ [{| company := Some comp; role := Some (fst rolo);
                          expDuration := Some dur;
                          expLocation := Some (snd rolo);
                          expBullets := Some bs |}])
        else experienceLoop f lines (i + 1) items
      else Ok items
  end.

Definition extractExperience (section : str) : outcome (list ExperienceEntry) :=
  let lines := sectionLines section in
  experienceLoop (S (length lines)) lines 0 [].

(* ===================================================================== *)
(** ** [extractEducation] *)
(* ===================================================================== *)

(** [/\b(?:Jan\.|Feb\.|Mar\.|Apr\.|May|Jun\.|Jul\.|Aug\.|Sep\.|Oct\.|Nov\.|Dec\.)\s*\d{4}\b/i] *)
Definition reEduDate : re :=
  Seq [WordB;
       Alts [LitI "Jan."; LitI "Feb."; LitI "Mar."; LitI "Apr."; LitI "May";
             LitI "Jun."; LitI "Jul."; LitI "Aug."; LitI "Sep."; LitI "Oct.";
             LitI "Nov."; LitI "Dec."];
       Star Space; Rep 4 Digit; WordB].

Definition extractEducation (section : str) : outcome (list EducationEntry) :=
  let lines := sectionLines section in
  if 2 <=? length lines then
    schoolAndLoc <- must (get lines 0) ;;
    degreeAndDuration <- must (get lines 1) ;;
    let lastComma := lastIndexOf COMMA schoolAndLoc in
    let loc :=
      if (lastComma =? -1)%Z then []
      else trim (sliceFrom schoolAndLoc
                   (lastIndexOfAt SPACE schoolAndLoc (lastComma - 1) + 1)) in
    let sch :=
      if (lastComma =? -1)%Z then schoolAndLoc
      else trim (slice schoolAndLoc 0
                   (Z.of_nat (length schoolAndLoc) - Z.of_nat (length loc))) in
    let dateIdx := search reEduDate degreeAndDuration in
    let deg :=
      if (dateIdx =? -1)%Z then degreeAndDuration
      else trim (slice degreeAndDuration 0 dateIdx) in
    let dur :=
      if (dateIdx =? -1)%Z then []
      else trim (sliceFrom degreeAndDuration dateIdx) in
    Ok [{| school := Some sch; degree := Some deg;
           eduDuration := Some dur; eduLocation := Some loc |}]
  else Ok [].

(* ===================================================================== *)
(** ** [extractSkills] *)
(* ===================================================================== *)

(** The pattern of the skill line: [^], group 1 = [[A-Za-z ]+], a colon,
    [\s*], group 2 = any run of units that are not line terminators, [$]. *)
Definition reSkillLine : re :=
  Seq [Bol; Group 1 (Plus (Cls (fun c => isAlpha c || (c =? 32)%N)));
       Chr 58; Star Space; Group 2 (Star Dot); Eol].
(** [/[,/]/] and [/\s{2,}/] *)
Definition reCommaSlash : re := OneOf ",/".
Definition reWideGap : re := AtLeast 2 Space.

(** The tokens of the text after the colon. *)
Definition skillParts (raw : str) : list str :=
  filter nonEmpty
    (map trim
       (flat_map (split reWideGap)
          (map trim (split reCommaSlash raw)))).

(** What a line contributes: its category and tokens, when it has the
    form of a skill line. *)
Definition skillEntry (line : str) : option (str * list str) :=
  match exec reSkillLine line with
  | Some m =>
      let category := trim (capture 1 (groups m)) in
      let raw := trim (capture 2 (groups m)) in
      Some (category, dedupe (skillParts raw))
  | None => None
  end.

(** The body of the loop: one line, the object so far. *)
Definition skillsStep (skills : list (str * list str)) (line : str)
    : list (str * list str) :=
  match skillEntry line with
  | Some (category, parts) => tableSet str_eqb category parts skills
  | None => skills
  end.

Definition extractSkills (section : str) : list (str * list str) :=
  fold_left skillsStep (sectionLines section) [].

(* ===================================================================== *)
(** ** [extractProjects] *)
(* ===================================================================== *)

Definition orNil {A : Type} (o : option (list A)) : list A :=
  match o with Some l => l | None => [] end.

Definition optList {A : Type} (o : option A) : list A :=
  match o with Some a => [a] | None => [] end.

(** [ensureCurrent(defaultName = 'Project')] *)
Definition ensureCurrent (current : option ProjectEntry) : option ProjectEntry :=
  match current with
  | Some p => Some p
  | None =>
      Some {| name := Some (lit "Project"); description := Some [];
              tech := Some []; link := None; bullets := Some [] |}
  end.

Definition withTech (p : ProjectEntry) (t : list str) : ProjectEntry :=
  {| name := name p; description := description p; tech := Some t;
     link := link p; bullets := bullets p |}.
Definition withLink (p : ProjectEntry) (l : str) : ProjectEntry :=
  {| name := name p; description := description p; tech := tech p;
     link := Some l; bullets := bullets p |}.
Definition withBullets (p : ProjectEntry) (b : list str) : ProjectEntry :=
  {| name := name p; description := description p; tech := tech p;
     link := link p; bullets := Some b |}.
Definition withDescription (p : ProjectEntry) (d : str) : ProjectEntry :=
  {| name := name p; description := Some d; tech := tech p;
     link := link p; bullets := bullets p |}.

(** [/[,/|]/] and [/[()]/g] *)
Definition reTechSep : re := OneOf ",/|".
Definition reParen : re := OneOf "()".

Definition techParts (raw : str) : list str :=
  filter nonEmpty
    (map (fun s => trim (replaceAll reParen [] s))
       (flat_map (split reWideGap)
          (map trim (split reTechSep raw)))).

(** [addTech(raw)] *)
Definition addTech (raw : str) (current : option ProjectEntry)
    : outcome (option ProjectEntry) :=
  p <- must (ensureCurrent current) ;;
  Ok (Some (withTech p (dedupe (orNil (tech p) ++ techParts raw)))).

(** [techWord] *)
Definition techWord : re :=
  Seq [WordB;
       Group 1 (Alts
         [ LitI "React"; LitI "Next"; LitI "Node";
           Seq [LitI "Type"; Star Space; LitI "Script"];
           LitI "TypeScript"; LitI "Tailwind"; LitI "Python"; LitI "AWS";
           LitI "GCP"; LitI "Docker"; LitI "Kubernetes"; LitI "Postgres";
           LitI "MongoDB"; Cat (LitI "Java") WordB;
           Seq [LitI "Spring"; Star Space; LitI "Boot"];
           LitI "JavaScript"; LitI "C++"; LitI "C#"; LitI "SFML";
           LitI "Terraform"; LitI "Prometheus"; LitI "Grafana";
           LitI "Jenkins"; Cat (LitI "CI") WordB; Cat (LitI "CD") WordB;
           LitI "Microservices" ]);
       WordB].

Definition reOthers : re := Seq [Bol; LitI "OTHERS"; Eol].       (* /^OTHERS$/i *)
(** [/https?:\/\//i] and [/https?:\/\/\S+/i] *)
Definition reUrlStart : re := Seq [LitI "http"; Opt (ChrI 115); LitI "://"].
Definition reUrl : re := Cat reUrlStart (Plus NonSpace).
Definition reSentenceEnd : re := Cat (OneOf ".!?") Eol.          (* /[.!?]$/ *)
Definition reSpaces : re := Plus Space.                          (* /\s+/ *)

Definition looksLikeTech (line : str) : bool :=
  test techWord line && negb (test reSentenceEnd line)
  && (length (split reSpaces line) <=? 8).

(** The mutable variables of the loop. *)
Record ProjState : Type := {
  items : list ProjectEntry;
  current : option ProjectEntry;
  bulletsStarted : bool
}.

(** [if (current) items.push(current)] *)
Definition pushCurrent (st : ProjState) : list ProjectEntry :=
  items st ++ optList (current st).

(** How one round of the loop ends: [continue] (or the end of the body)
    with the cursor as the body left it, or [break]. *)
Inductive control : Type :=
| Continue (i : nat) (st : ProjState)
| Break (st : ProjState).

Definition setCurrent (st : ProjState) (p : ProjectEntry) (started : bool)
    : ProjState :=
  {| items := items st; current := Some p; bulletsStarted := started |}.

(** The body of the loop at line [i]. *)
Definition projectStep (lines : list str) (i : nat) (st : ProjState)
    : outcome control :=
  line <- must (get lines i) ;;
  if test reOthers line then
    Ok (Break {| items := pushCurrent st; current := current st;
                 bulletsStarted := bulletsStarted st |})
  else if includes PIPE line then
    let pieces := firstn 2 (splitOn PIPE line) in
    left <- must (get pieces 0) ;;
    let fresh :=
      Some {| name := Some (trim left); description := Some [];
              tech := Some []; link := None; bullets := Some [] |} in
    cur <- (match get pieces 1 with
            | Some ((_ :: _) as right) => addTech right fresh
            | _ => Ok fresh
            end) ;;
    Ok (Continue i {| items := pushCurrent st; current := cur;
                      bulletsStarted := false |})
  else if test reUrlStart line then
    p <- must (ensureCurrent (current st)) ;;
    let url :=
      match exec reUrl line with
      | Some m => if nonEmpty (matched m) then matched m else line
      | None => line
      end in
    Ok (Continue i (setCurrent st (withLink p (trim url)) (bulletsStarted st)))
  else if str_eqb line [BULLET] && (i + 1 <? length lines) then
    p <- must (ensureCurrent (current st)) ;;
    next <- must (get lines (i + 1)) ;;
    Ok (Continue (i + 1)
          (setCurrent st (withBullets p (orNil (bullets p) ++ [next])) true))
  else if startsWith [BULLET; SPACE] line then
    p <- must (ensureCurrent (current st)) ;;
    Ok (Continue i
          (setCurrent st
             (withBullets p
                (orNil (bullets p) ++ [replaceFirst reBulletPrefix [] line]))
             true))
  else if bulletsStarted st
          && match current st with
             | Some p => 0 <? length (orNil (bullets p))
             | None => false
             end then
    p <- must (current st) ;;
    bs <- must (bullets p) ;;
    let lastIdx := length bs - 1 in
    lastB <- must (get bs lastIdx) ;;
    Ok (Continue i
          (setCurrent st
             (withBullets p (setAt lastIdx (trim (lastB ++ [SPACE] ++ line)) bs))
             (bulletsStarted st)))
  else if looksLikeTech line then
    cur <- addTech line (current st) ;;
    Ok (Continue i {| items := items st; current := cur;
                      bulletsStarted := bulletsStarted st |})
  else
    p <- must (ensureCurrent (current st)) ;;
    Ok (Continue i
          (setCurrent st
             (withDescription p
                (join [SPACE]
                   (filter nonEmpty (optList (description p) ++ [line]))))
             (bulletsStarted st))).

(** [for (let i = 0; i < lines.length; i++)] *)
Fixpoint projectLoop (fuel : nat) (lines : list str) (i : nat)
    (st : ProjState) : outcome ProjState :=
  match fuel with
  | O => Timeout
  | S f =>
      if i <? length lines then
        c <- projectStep lines i st ;;
        match c with
        | Break st' => Ok st'
        | Continue i' st' => projectLoop f lines (i' + 1) st'
        end
      else Ok st
  end.

(** *** Deduplication (the last part of [extractProjects]) *)

(** [richness(p)] *)
Definition richness (p : ProjectEntry) : nat :=
  match bullets p with Some b => length (join [SPACE] b) | None => 0 end
  + match tech p with Some t => length (join [SPACE] t) | None => 0 end
  + match description p with Some d => length d | None => 0 end.

(** [/[^a-z0-9]+/g] *)
Definition reNotAlnum : re :=
  Plus (Cls (fun c => negb (isLower c || isDigit c))).

(** The key of an entry in [byName]. *)
Definition normName (p : ProjectEntry) : str :=
  trim (replaceAll reNotAlnum [SPACE] (toLowerCase (orEmpty (name p)))).

(** The body of the loop over [items]. *)
Definition dedupStep (byName : list (str * ProjectEntry)) (p : ProjectEntry)
    : list (str * ProjectEntry) :=
  let k := normName p in
  match tableGet str_eqb k byName with
  | None => tableSet str_eqb k p byName
  | Some existing =>
      if richness existing <? richness p then tableSet str_eqb k p byName
      else byName
  end.

(** [Array.from(byName.values())] after the loop. *)
Definition dedup (l : list ProjectEntry) : list ProjectEntry :=
  tableValues (fold_left dedupStep l []).

Definition extractProjects (section : str) : outcome (list ProjectEntry) :=
  let lines := sectionLines section in
  st <- projectLoop (S (length lines)) lines 0
          {| items := []; current := None; bulletsStarted := false |} ;;
  Ok (dedup (pushCurrent st)).

(* ===================================================================== *)
(** ** [main]: the assembly of the record *)
(* ===================================================================== *)

(** [/^\b(?:Summary|Objective)\b/i] *)
Definition reSummaryLabel : re :=
  Seq [Bol; WordB; Alt (LitI "Summary") (LitI "Objective"); WordB].

(** [sections.k || ''] *)
Definition sectionOr (k : Key) (sections : list (Key * str)) : str :=
  orEmpty (tableGet key_eqb k sections).

(** The record [main] builds from the text of the document (reading the
    document and writing the record are outside this development). *)
Definition assemble (text : str) : outcome Resume :=
  parsed <- parseSections text ;;
  let sections := pSections parsed in
  let header := extractHeader (pLines parsed) in
  let summ :=
    match tableGet key_eqb KSummary sections with
    | Some s =>
        let t := trim (replaceFirst reSummaryLabel [] s) in
        if nonEmpty t then Some t else None
    | None => None
    end in
  let sk := extractSkills (sectionOr KSkills sections) in
  ex <- extractExperience (sectionOr KExperience sections) ;;
  pr <- extractProjects (sectionOr KProjects sections) ;;
  ed <- extractEducation (sectionOr KEducation sections) ;;
  let ce := extractList (sectionOr KCertifications sections) in
  Ok {| resName := resName header;
        headline := headline header;
        contact := contact header;
        summary := summ;
        skills := Some (SkillMap sk);
        experience := Some ex;
        projects := Some pr;
        education := Some ed;
        certifications := Some ce |}.

Unset Implicit Arguments.

(* ===================================================================== *)
(** ** Documents used in the statements *)
(* ===================================================================== *)

(** Lines joined by line breaks. *)
Definition unlines (l : list str) : str := join [NL] l.

(** The experience section of scenario B. *)
Definition scenarioB : str :=
  unlines [ lit "Acme Corp  Jan 2020 - Present";
            lit "Engineer, Remote";
            BULLET :: lit " Built the thing";
            lit "improved performance" ].

(** A header whose contact line has one token, an address at github.com. *)
Definition docSharedToken : list str :=
  [ lit "Jane Doe"; lit "jane@github.com" ].

(** A header whose contact line holds a plain domain name. *)
Definition docPlainDomain : list str :=
  [ lit "Jane Doe"; lit "jane@x.com | example.com" ].


(** A document that opens with a section label. *)
Definition docNoHeader : str :=
  unlines [ lit "Education"; lit "MIT, Cambridge MA"; lit "BS CS May 2020" ].

(** The contact bundle with every field the empty string. *)
Definition blankContact : Contact :=
  {| email := Some []; phone := Some []; location := Some [];
     website := Some []; linkedin := Some []; github := Some [] |}.

(** A skills section with the category Cloud on two lines. *)
Definition docTwoCloudLines : str :=
  unlines [ lit "Cloud: AWS, GCP"; lit "Cloud: Azure" ].

(** The record of the empty document. *)
Definition emptyRecord : Resume :=
  {| resName := None; headline := None; contact := Some blankContact;
     summary := None; skills := Some (SkillMap []); experience := Some [];
     projects := Some []; education := Some []; certifications := Some [] |}.

(* ===================================================================== *)
(** ** Predicates used in the statements *)
(* ===================================================================== *)

(** [v] is what [parts.find(p) || ''] gives: the empty string when no token
    satisfies [p], otherwise the first token that does. *)
Definition firstMatch (p : str -> bool) (parts : list str) (v : str) : Prop :=
  (v = [] /\ forall t, In t parts -> p t = false)
  \/ (exists before after,
        parts = before ++ v :: after /\ p v = true
        /\ forall t, In t before -> p t = false).

(** [p] is the entry of [l] that wins for its name: every entry of the same
    name before it is strictly poorer, and none after it is richer. *)
Definition winnerIn (l : list ProjectEntry) (p : ProjectEntry) : Prop :=
  exists l1 l2,
    l = l1 ++ p :: l2
    /\ (forall q, In q l1 -> normName q = normName p ->
                  richness q < richness p)
    /\ (forall q, In q l2 -> normName q = normName p ->
                  richness q <= richness p).

(** What holds of [byName] after the entries [pre] went through the loop. *)
Definition tableOk (pre : list ProjectEntry) (tbl : list (str * ProjectEntry))
    : Prop :=
  map fst tbl = dedupe (map normName pre)
  /\ forall k p, In (k, p) tbl -> normName p = k /\ winnerIn pre p.

(** [line] is, as a whole and in any case, the label of the key [k]. *)
Definition isLabelLine (k : Key) (line : str) : bool :=
  match tableGet key_eqb k headerLabels with
  | Some label => test (anchored label) line
  | None => false
  end.

(** Header lines in the order of their line numbers. *)
Definition ascending (hl : list HeaderLine) : Prop :=
  StronglySorted (fun a b => lineIndex a <= lineIndex b) hl.


(** What holds of [headerLines] and [seen] while line [i], whose text is
    [line], is compared with the labels; [done] lists the keys already
    tried on this line. *)
Definition scanInv (lines : list str) (i : nat) (line : option str) (done : list Key)
    (st : scanState) : Prop :=
  (forall k, In k (snd st) <-> In k (map key (fst st)))
  /\ NoDup (map key (fst st))
  /\ (forall h, In h (fst st) ->
        lineIndex h <= i
        /\ (exists l, get lines (lineIndex h) = Some l
                      /\ isLabelLine (key h) l = true)
        /\ forall j l, j < lineIndex h -> get lines j = Some l ->
                       isLabelLine (key h) l = false)
  /\ (forall k, ~ In k (snd st) ->
        (forall j l, j < i -> get lines j = Some l -> isLabelLine k l = false)
        /\ (In k done -> forall l, line = Some l -> isLabelLine k l = false))
  /\ ascending (fst st).

(* ===================================================================== *)
(** ** The page: logos and the phone link *)
(* ===================================================================== *)

(** [companyLogoMap] and [schoolLogoMap], in the order of their keys. *)
Definition companyLogoMap : list (str * str) :=
  [ (lit "google", lit "/logos-2/Google__G__logo.svg.png");
    (lit "goldman sachs", lit "/logos-2/GoldManSachs.png");
    (lit "cisco", lit "/logos-2/cisco-systems.png");
    (lit "reconvert", lit "/logos-2/reconvert.png");
    (lit "arkiter", lit "/logos/arkiter.svg");
    (lit "leetcode", lit "/logos-2/LeetCode.png");
    (lit "amazon", lit "/logos-2/amazon.png");
    (lit "figbytes", lit "/logos/figbytes.svg") ].

Definition schoolLogoMap : list (str * str) :=
  [ (lit "coventry", lit "/logos-2/coventry-university.png") ].

Definition defaultLogo : str := lit "/logos/default.svg".

(** [/[^a-z0-9 ]+/g] *)
Definition reLogoStrip : re :=
  Plus (Cls (fun c => negb (isLower c || isDigit c || (c =? 32)%N))).

(** [name.toLowerCase().replace(/[^a-z0-9 ]+/g, "").trim()].  As for the key
    of the project table, every unit outside ASCII is removed by the
    replacement, whatever its lower-case form. *)
Definition logoName (name : str) : str :=
  trim (replaceAll reLogoStrip [] (toLowerCase name)).

(** The body shared by [getCompanyLogo] and [getSchoolLogo]; [None] as the
    result is [undefined]. *)
Definition getLogo (logoMap : list (str * str)) (name : option str)
    : option str :=
  match name with
  | None | Some [] => Some defaultLogo
  | Some ((_ :: _) as nm) =>
      let normalized := logoName nm in
      let bestKey :=
        findOrEmpty (fun k => startsWith k normalized) (map fst logoMap) in
      if nonEmpty bestKey then tableGet str_eqb bestKey logoMap
      else Some defaultLogo
  end.

Definition getCompanyLogo (company : option str) : option str :=
  getLogo companyLogoMap company.
Definition getSchoolLogo (school : option str) : option str :=
  getLogo schoolLogoMap school.

(** [`tel:${contact.phone.replace(/\s+/g,'')}`] *)
Definition telHref (phone : str) : str :=
  lit "tel:" ++ replaceAll reSpaces [] phone.

(* ===================================================================== *)
(** ** What a pattern matches *)
(* ===================================================================== *)

(** The unit before the position reached after consuming [pre]. *)
Definition lastOr (prev : option char) (pre : str) : option char :=
  match rev pre with
  | x :: _ => Some x
  | [] => prev
  end.

(** [matches r p s c p' s' c']: from the input [s], with the unit [p]
    before it and the captures [c], the pattern [r] can consume a prefix
    of [s] and leave [s'], with the unit [p'] before it and the captures
    [c'].  A round of a repetition consumes at least one unit. *)
Inductive matches :
  re -> option char -> str -> caps -> option char -> str -> caps -> Prop :=
| MEps : forall p s c, matches Eps p s c p s c
| MCls : forall (q : char -> bool) p x t c,
    q x = true -> matches (Cls q) p (x :: t) c (Some x) t c
| MCat : forall a b p s c p1 s1 c1 p2 s2 c2,
    matches a p s c p1 s1 c1 -> matches b p1 s1 c1 p2 s2 c2 ->
    matches (Cat a b) p s c p2 s2 c2
| MAltL : forall a b p s c p1 s1 c1,
    matches a p s c p1 s1 c1 -> matches (Alt a b) p s c p1 s1 c1
| MAltR : forall a b p s c p1 s1 c1,
    matches b p s c p1 s1 c1 -> matches (Alt a b) p s c p1 s1 c1
| MStarStop : forall a p s c, matches (Star a) p s c p s c
| MStarStep : forall a p s c p1 s1 c1 p2 s2 c2,
    matches a p s c p1 s1 c1 -> length s1 < length s ->
    matches (Star a) p1 s1 c1 p2 s2 c2 ->
    matches (Star a) p s c p2 s2 c2
| MGroup : forall n a p s c p1 s1 c1,
    matches a p s c p1 s1 c1 ->
    matches (Group n a) p s c p1 s1
      ((n, firstn (length s - length s1) s) :: c1)
| MBol : forall s c, matches Bol None s c None s c
| MEol : forall p c, matches Eol p [] c p [] c
| MWordB : forall p s c,
    atWordBoundary p s = true -> matches WordB p s c p s c.

(** Every unit the pattern can consume satisfies [P]. *)
Fixpoint clsAll (P : char -> bool) (r : re) : Prop :=
  match r with
  | Cls q => forall x, q x = true -> P x = true
  | Cat a b | Alt a b => clsAll P a /\ clsAll P b
  | Star a | Group _ a => clsAll P a
  | Eps | Bol | Eol | WordB => True
  end.

(** The pattern has no capturing group. *)
Fixpoint noGroup (r : re) : Prop :=
  match r with
  | Group _ _ => False
  | Cat a b | Alt a b => noGroup a /\ noGroup b
  | Star a => noGroup a
  | Eps | Cls _ | Bol | Eol | WordB => True
  end.

(** The pattern matches in [before ++ rest] at the place where [rest]
    starts. *)
Definition occursAt (r : re) (before rest : str) : Prop :=
  exists p' s' c', matches r (lastOr None before) rest [] p' s' c'.

(** The least number of units a match of the pattern consumes. *)
Fixpoint minLen (r : re) : nat :=
  match r with
  | Cls _ => 1
  | Cat a b => minLen a + minLen b
  | Alt a b => Nat.min (minLen a) (minLen b)
  | Group _ a => minLen a
  | Eps | Star _ | Bol | Eol | WordB => 0
  end.

(** Two strings equal but for the case of their ASCII letters. *)
Definition sameIgnoringCase (a b : str) : Prop :=
  map canonicalize a = map canonicalize b.

(* ===================================================================== *)
(** ** Further predicates used in the statements *)
(* ===================================================================== *)

(** A certification section of one line with a hyphen. *)
Definition docCertifications : str := lit "AWS Certified - Scrum".

(** A document without any section label. *)
Definition docPlain : str := unlines [ lit "Jane Doe"; lit "hello | world" ].

(** The units of a skill category: letters and the space. *)
Definition isCategoryUnit (c : char) : bool := isAlpha c || (c =? 32)%N.

(** A skills section of two lines, and one without any colon. *)
Definition docSkills : str :=
  unlines [ lit "Languages: Python, Go, C++"; lit "Cloud:  AWS   GCP" ].
Definition docNoColon : str := unlines [ lit "Python, Go"; lit "AWS" ].

(** An education section of two lines. *)
Definition docEducation : str :=
  unlines [ lit "State University Springfield, IL";
            lit "BSc Computing May 2020" ].

(** The separators of the list extractor: line feed, bullet, hyphen. *)
Definition isListSep (c : char) : bool :=
  (c =? 10)%N || (c =? 8226)%N || (c =? 45)%N.

(** A line the experience extractor takes as the heading of an entry. *)
Definition isHeadingLine (line : str) : bool :=
  test reYearOrPresent line && test reLetter line.

(** The number of elements of [l] that satisfy [f]. *)
Definition countIf {A : Type} (f : A -> bool) (l : list A) : nat :=
  length (filter f l).

(** A string with no white space at either end. *)
Definition trimmed (s : str) : Prop := trim s = s.

(** A token list as the extractors store them: no repetition, no empty
    token, every token trimmed. *)
Definition cleanTokens (t : list str) : Prop :=
  NoDup t /\ forall x, In x t -> x <> [] /\ trimmed x.

(** The units that never occur in a technology token: comma, slash, bar
    and the two parentheses. *)
Definition isTechSep (c : char) : bool := existsb (N.eqb c) (lit ",/|()").

(** A project entry with its four mandatory fields present and a clean
    list of technologies, no token of which holds a separator. *)
Definition wellFormedProject (p : ProjectEntry) : Prop :=
  exists n d t b,
    name p = Some n /\ description p = Some d /\ tech p = Some t
    /\ bullets p = Some b /\ cleanTokens t
    /\ forall x u, In x t -> In u x -> isTechSep u = false.

(** The state a round of the project loop ends in. *)
Definition stateOf (c : control) : ProjState :=
  match c with Continue _ st => st | Break st => st end.

(** The state of the project loop holds well-formed entries only. *)
Definition wellFormedState (st : ProjState) : Prop :=
  Forall wellFormedProject (items st)
  /\ forall p, current st = Some p -> wellFormedProject p.

(** The texts of a project entry: name, description and link without
    white space at either end, every bullet so and not empty. *)
Definition cleanProjectText (p : ProjectEntry) : Prop :=
  (forall n, name p = Some n -> trimmed n)
  /\ (forall d, description p = Some d -> trimmed d)
  /\ (forall l, link p = Some l -> trimmed l)
  /\ (forall x, In x (orNil (bullets p)) -> x <> [] /\ trimmed x).

(** The state of the project loop holds entries with clean texts only. *)
Definition cleanState (st : ProjState) : Prop :=
  Forall cleanProjectText (items st)
  /\ forall p, current st = Some p -> cleanProjectText p.

(** An experience entry with its five fields present, its four text
    fields trimmed, and every bullet trimmed and not empty. *)
Definition wellFormedExperience (e : ExperienceEntry) : Prop :=
  exists c r d l b,
    company e = Some c /\ role e = Some r /\ expDuration e = Some d
    /\ expLocation e = Some l /\ expBullets e = Some b
    /\ trimmed c /\ trimmed r /\ trimmed d /\ trimmed l
    /\ forall x, In x b -> x <> [] /\ trimmed x.

(** An education entry with its four fields present and trimmed. *)
Definition wellFormedEducation (e : EducationEntry) : Prop :=
  exists s d u l,
    school e = Some s /\ degree e = Some d /\ eduDuration e = Some u
    /\ eduLocation e = Some l
    /\ trimmed s /\ trimmed d /\ trimmed u /\ trimmed l.

(** No line of the text is a section label. *)
Definition noLabelLine (lines : list str) : Prop :=
  forall l k, In l lines -> isLabelLine k l = false.

(** [v] holds the word [w], in any letter case. *)
Definition holdsIgnoringCase (w v : str) : Prop :=
  exists a m b, v = a ++ m ++ b /\ sameIgnoringCase m w.

(** A value of the contact record: the empty string, or a token with no
    white space at either end and no bar. *)
Definition contactToken (v : str) : Prop :=
  v = [] \/ (trimmed v /\ ~ In PIPE v).

(** [l] is the word [a], some white space and the word [b], in any letter
    case. *)
Definition spaced (a b : string) (l : str) : Prop :=
  exists x ws y,
    l = x ++ ws ++ y
    /\ ws <> [] /\ forallb isSpace ws = true
    /\ sameIgnoringCase x (lit a) /\ sameIgnoringCase y (lit b).

(** The lines that read as the label of a key. *)
Definition labelText (k : Key) (l : str) : Prop :=
  match k with
  | KHeader => False
  | KSummary =>
      sameIgnoringCase l (lit "Summary") \/ sameIgnoringCase l (lit "Objective")
  | KEducation => sameIgnoringCase l (lit "Education")
  | KExperience =>
      sameIgnoringCase l (lit "Experience")
      \/ spaced "Professional" "Experience" l
  | KSkills =>
      sameIgnoringCase l (lit "Skills") \/ spaced "Technical" "Skills" l
  | KProjects => sameIgnoringCase l (lit "Projects")
  | KCertifications => sameIgnoringCase l (lit "Certifications")
  end.

(* ===================================================================== *)
(** ** The matcher: repetition does not depend on its counter *)
(* ===================================================================== *)

Section MatcherFacts.

Variable R : Type.

(** Two continuations that agree everywhere. *)
Definition sameCont (k1 k2 : cont R) : Prop :=
  forall p s c, k1 p s c = k2 p s c.

Lemma starLoop_ext :
  forall step : option char -> str -> caps -> cont R -> option R,
    (forall p s c k1 k2, sameCont k1 k2 -> step p s c k1 = step p s c k2) ->
    forall fuel p s c k1 k2,
      sameCont k1 k2 ->
      starLoop step fuel p s c k1 = starLoop step fuel p s c k2.
Proof.
  intros step Hstep fuel; induction fuel as [|f IH]; intros p s c k1 k2 Hk.
  - simpl. apply Hk.
  - simpl.
    rewrite (Hstep p s c
               (fun p' s' c' =>
                  if length s' <? length s then starLoop step f p' s' c' k1
                  else None)
               (fun p' s' c' =>
                  if length s' <? length s then starLoop step f p' s' c' k2
                  else None)).
    + rewrite (Hk p s c). reflexivity.
    + intros p' s' c'. destruct (length s' <? length s); [|reflexivity].
      apply IH. exact Hk.
Qed.

Lemma run_ext :
  forall (r : re) p s c (k1 k2 : cont R),
    sameCont k1 k2 -> run r p s c k1 = run r p s c k2.
Proof.
  induction r as [|q|a IHa b IHb|a IHa b IHb|a IHa|n a IHa| | |];
    intros p s c k1 k2 Hk; cbn [run].
  - apply Hk.
  - destruct s as [|x t]; [reflexivity|]. destruct (q x); [apply Hk|reflexivity].
  - apply IHa. intros p' s' c'. apply IHb. exact Hk.
  - rewrite (IHa p s c k1 k2 Hk), (IHb p s c k1 k2 Hk). reflexivity.
  - apply starLoop_ext; [|exact Hk].
    intros p0 s0 c0 k3 k4 H. apply IHa. exact H.
  - apply IHa. intros p' s' c'. apply Hk.
  - destruct p; [reflexivity | apply Hk].
  - destruct s; [apply Hk | reflexivity].
  - destruct (atWordBoundary p s); [apply Hk | reflexivity].
Qed.

Lemma starLoop_fuel :
  forall (a : re) (f1 f2 : nat) p s c (k : cont R),
    length s < f1 -> length s < f2 ->
    starLoop (run (R := R) a) f1 p s c k = starLoop (run (R := R) a) f2 p s c k.
Proof.
  intros a f1; induction f1 as [|f1 IH]; intros f2 p s c k H1 H2.
  - lia.
  - destruct f2 as [|f2]; [lia|]. simpl.
    rewrite (run_ext a p s c
               (fun p' s' c' =>
                  if length s' <? length s
                  then starLoop (run (R := R) a) f1 p' s' c' k else None)
               (fun p' s' c' =>
                  if length s' <? length s
                  then starLoop (run (R := R) a) f2 p' s' c' k else None)).
    + reflexivity.
    + intros p' s' c'. destruct (length s' <? length s) eqn:E; [|reflexivity].
      apply Nat.ltb_lt in E. apply IH; lia.
Qed.

(** Greedy repetition as the language defines it: one more round of [a]
    that consumes something, then the repetition again; else go on. *)
Lemma run_star_unfold :
  forall (a : re) p s c (k : cont R),
    run (Star a) p s c k
    = match run a p s c
              (fun p' s' c' =>
                 if length s' <? length s then run (Star a) p' s' c' k
                 else None) with
      | Some v => Some v
      | None => k p s c
      end.
Proof.
  intros a p s c k. simpl.
  rewrite (run_ext a p s c
             (fun p' s' c' =>
                if length s' <? length s
                then starLoop (run (R := R) a) (length s) p' s' c' k else None)
             (fun p' s' c' =>
                if length s' <? length s
                then starLoop (run (R := R) a) (S (length s')) p' s' c' k
                else None)).
  - reflexivity.
  - intros p' s' c'. destruct (length s' <? length s) eqn:E; [|reflexivity].
    apply Nat.ltb_lt in E. apply starLoop_fuel; lia.
Qed.

End MatcherFacts.

(* ===================================================================== *)
(** ** The embedding on the other scenarios of the specification *)
(* ===================================================================== *)

(** Scenario A: name, email, phone and linkedin of a two-line header. *)
Example scenario_A :
  extractHeader [ lit "Jane Doe";
                  lit "Jane@x.com | 555-123-4567 | linkedin.com/in/jane" ]
  = {| resName := Some (lit "Jane Doe"); headline := None;
       contact :=
         Some {| email := Some (lit "Jane@x.com");
                 phone := Some (lit "555-123-4567");
                 location := Some [];
                 website := Some [];
                 linkedin := Some (lit "linkedin.com/in/jane");
                 github := Some [] |};
       summary := None; skills := None; experience := None;
       projects := None; education := None; certifications := None |}.
Proof. vm_compute. reflexivity. Qed.

(** Scenario C: two skill lines, the second in columns. *)
Example scenario_C :
  extractSkills (unlines [ lit "Languages: Python, Go, C++";
                           lit "Cloud:  AWS   GCP" ])
  = [ (lit "Languages", [lit "Python"; lit "Go"; lit "C++"]);
      (lit "Cloud", [lit "AWS"; lit "GCP"]) ].
Proof. vm_compute. reflexivity. Qed.

(** Scenario D: of two blocks named Portfolio Site the richer one stays. *)
Example scenario_D :
  extractProjects
    (unlines [ lit "Portfolio Site |";
               BULLET :: lit " First version";
               lit "Portfolio Site | React, Next";
               BULLET :: lit " Built the pages";
               BULLET :: lit " Added the blog";
               BULLET :: lit " Tuned the images" ])
  = Ok [ {| name := Some (lit "Portfolio Site");
            description := Some [];
            tech := Some [lit "React"; lit "Next"];
            link := None;
            bullets := Some [ lit "Built the pages"; lit "Added the blog";
                              lit "Tuned the images" ] |} ].
Proof. vm_compute. reflexivity. Qed.

(** Scenario E: an education section of one line gives no entry. *)
Example scenario_E :
  extractEducation (lit "State University, Springfield IL") = Ok [].
Proof. vm_compute. reflexivity. Qed.

(** A label is matched on a line that is the label and nothing else,
    whatever the case of its letters. *)
Example label_lines :
  isLabelLine KEducation (lit "EDUCATION") = true
  /\ isLabelLine KEducation (lit "Education:") = false
  /\ isLabelLine KEducation (lit "My Education") = false
  /\ isLabelLine KExperience (lit "professional   experience") = true
  /\ isLabelLine KSkills (lit "Technical Skills") = true
  /\ isLabelLine KSummary (lit "objective") = true
  /\ isLabelLine KSummary (lit "Summary of work") = false
  /\ isLabelLine KHeader (lit "header") = false.
Proof. vm_compute. repeat split. Qed.

(** The matched labels come in the order of their lines, not in the order
    of the label table: here Skills, on line 0, before Education. *)
Example order_by_position :
  findHeaderLines [ lit "Skills"; lit "Go"; lit "Education"; lit "MIT" ]
  = [ {| key := KSkills; lineIndex := 0 |};
      {| key := KEducation; lineIndex := 2 |} ].
Proof. vm_compute. reflexivity. Qed.

(** Of two entries of one name and equal richness the first stays. *)
Example tie_keeps_first :
  dedup [ {| name := Some (lit "Demo"); description := Some (lit "ab");
             tech := Some []; link := None; bullets := Some [] |};
          {| name := Some (lit "DEMO!"); description := Some (lit "cd");
             tech := Some []; link := None; bullets := Some [] |} ]
  = [ {| name := Some (lit "Demo"); description := Some (lit "ab");
         tech := Some []; link := None; bullets := Some [] |} ].
Proof. vm_compute. reflexivity. Qed.

(* ===================================================================== *)
(** ** Scenario B of the experience extractor *)
(* ===================================================================== *)

(** C7: on the four lines of scenario B the experience extractor returns
    exactly one entry, with company "Acme Corp", duration
    "Jan 2020 - Present", role "Engineer", location "Remote" and the single
    bullet "Built the thing improved performance". *)
Theorem C7_scenario_B :
  extractExperience scenarioB =
  Ok [ {| company := Some (lit "Acme Corp");
          role := Some (lit "Engineer");
          expDuration := Some (lit "Jan 2020 - Present");
          expLocation := Some (lit "Remote");
          expBullets := Some [lit "Built the thing improved performance"] |} ].
Proof. vm_compute. reflexivity. Qed.

(* ===================================================================== *)
(** ** The contact line *)
(* ===================================================================== *)

Lemma find_split :
  forall (p : str -> bool) (l : list str) (x : str),
    find p l = Some x ->
    exists before after,
      l = before ++ x :: after /\ p x = true
      /\ forall t, In t before -> p t = false.
Proof.
  intros p l; induction l as [|a l IH]; intros x H; simpl in H.
  - discriminate.
  - destruct (p a) eqn:Ea.
    + injection H as <-. exists [], l. repeat split; auto.
      intros t [].
    + destruct (IH x H) as (b & c & -> & Hx & Hb).
      exists (a :: b), c. repeat split; auto.
      intros t [<-|Ht]; auto.
Qed.

Lemma find_none_all :
  forall (p : str -> bool) (l : list str),
    find p l = None -> forall t, In t l -> p t = false.
Proof.
  intros p l H t Ht. exact (find_none p l H t Ht).
Qed.

Lemma findOrEmpty_firstMatch :
  forall p parts, firstMatch p parts (findOrEmpty p parts).
Proof.
  intros p parts. unfold findOrEmpty.
  destruct (find p parts) as [x|] eqn:E.
  - right. exact (find_split p parts x E).
  - left. split; [reflexivity | exact (find_none_all p parts E)].
Qed.

Lemma find_app_first :
  forall (p : str -> bool) before t after,
    (forall u, In u before -> p u = false) ->
    find p (before ++ t :: after) = if p t then Some t else find p after.
Proof.
  intros p before; induction before as [|a b IH]; intros t after H; simpl.
  - reflexivity.
  - rewrite (H a (or_introl eq_refl)). apply IH.
    intros u Hu. apply H. right. exact Hu.
Qed.

Lemma contactParts_nonEmpty :
  forall secondLine t, In t (contactParts secondLine) -> t <> [].
Proof.
  intros s t H. unfold contactParts in H.
  apply filter_In in H. destruct H as [_ H].
  destruct t; [discriminate | discriminate].
Qed.

Lemma findOrEmpty_holds :
  forall p parts v, findOrEmpty p parts = v -> v <> [] -> p v = true.
Proof.
  intros p parts v H Hv. unfold findOrEmpty in H.
  destruct (find p parts) as [x|] eqn:E.
  - subst x. apply find_some in E. tauto.
  - congruence.
Qed.

(** C1 (as amended): every contact field is filled on its own with the
    first token of the contact line that matches the pattern of that field,
    or with the empty string when no token does; the one exclusion is that
    a token holding an at sign is never the website, so a website that is
    not empty differs from the email. *)
Theorem C1_fields_claimed_independently :
  forall lines : list str,
    let parts := contactParts (orEmpty (get (nonBlank lines) 1)) in
    exists e p w l g,
      contact (extractHeader lines)
      = Some {| email := Some e; phone := Some p; location := Some [];
                website := Some w; linkedin := Some l; github := Some g |}
      /\ firstMatch isEmail parts e
      /\ firstMatch isPhone parts p
      /\ firstMatch isWebsite parts w
      /\ firstMatch isLinkedin parts l
      /\ firstMatch isGithub parts g
      /\ (w <> [] -> e <> w).
Proof.
  intros lines parts.
  exists (findOrEmpty isEmail parts), (findOrEmpty isPhone parts),
         (findOrEmpty isWebsite parts), (findOrEmpty isLinkedin parts),
         (findOrEmpty isGithub parts).
  split; [reflexivity|].
  repeat (split; [apply findOrEmpty_firstMatch|]).
  intros Hw He.
  pose proof (findOrEmpty_holds isWebsite parts _ eq_refl Hw) as W.
  assert (E : isEmail (findOrEmpty isWebsite parts) = true).
  { rewrite <- He. apply (findOrEmpty_holds isEmail parts _ eq_refl).
    rewrite He. exact Hw. }
  revert W E. generalize (findOrEmpty isWebsite parts) as w0.
  intros w0 W E. unfold isWebsite in W. unfold isEmail in E.
  rewrite E in W. rewrite andb_false_r in W. discriminate.
Qed.

(** C1 fails as stated: on a contact line whose one token is
    jane@github.com, that token is the value of both email and github. *)
Lemma C1_counterexample :
  exists c,
    contact (extractHeader docSharedToken) = Some c
    /\ email c = Some (lit "jane@github.com")
    /\ github c = Some (lit "jane@github.com").
Proof. eexists. split; [reflexivity|]. split; vm_compute; reflexivity. Qed.

(** C6 (as amended): a token of the contact line that no earlier website
    candidate precedes is the website exactly when it holds a dot, holds no
    at sign, and holds one of malik, sha256, http (in any case); a dot alone
    is not enough, and being the linkedin or github token does not matter. *)
Theorem C6_website_rule :
  forall (secondLine t : str) (before after : list str),
    contactParts secondLine = before ++ t :: after ->
    (forall u, In u before -> isWebsite u = false) ->
    (website (contactOf (contactParts secondLine)) = Some t
     <-> (test reDot t = true /\ test reAt t = false /\ test reSite t = true)).
Proof.
  intros s t before after Hs Hb.
  assert (Ht : t <> []).
  { apply (contactParts_nonEmpty s). rewrite Hs. apply in_or_app.
    right. left. reflexivity. }
  simpl. unfold findOrEmpty. rewrite Hs, (find_app_first isWebsite before t after Hb).
  unfold isWebsite at 1.
  destruct (test reDot t) eqn:Ed, (test reAt t) eqn:Ea,
           (test reSite t) eqn:Es; simpl;
    try (split; [intros _; auto | reflexivity]);
    (split; [intros H | intros (H1 & H2 & H3); discriminate]);
    (destruct (find isWebsite after) as [x|] eqn:Ef;
     [ injection H as ->; apply find_some in Ef; destruct Ef as [_ Ef];
       unfold isWebsite in Ef; rewrite Ed, Ea, Es in Ef; discriminate
     | injection H as H; congruence ]).
Qed.

Lemma C6_website_rule_witness :
  website (contactOf (contactParts (lit "jane@x.com | https://jane.dev")))
  = Some (lit "https://jane.dev").
Proof.
  apply (C6_website_rule (lit "jane@x.com | https://jane.dev")
           (lit "https://jane.dev") [lit "jane@x.com"] []).
  - vm_compute. reflexivity.
  - intros u [<-|[]]. vm_compute. reflexivity.
  - vm_compute. repeat split.
Defined.

(** C6 fails as stated: example.com holds a dot and is neither the email,
    the linkedin nor the github token, and yet the website is empty. *)
Lemma C6_counterexample :
  exists c,
    contact (extractHeader docPlainDomain) = Some c
    /\ In (lit "example.com")
          (contactParts (orEmpty (get (nonBlank docPlainDomain) 1)))
    /\ test reDot (lit "example.com") = true
    /\ email c <> Some (lit "example.com")
    /\ linkedin c <> Some (lit "example.com")
    /\ github c <> Some (lit "example.com")
    /\ website c = Some [].
Proof.
  eexists. split; [reflexivity|].
  vm_compute. repeat split; try discriminate. right. left. reflexivity.
Qed.

(* ===================================================================== *)
(** ** Tables in insertion order *)
(* ===================================================================== *)

Lemma str_eqb_eq : forall a b : str, str_eqb a b = true <-> a = b.
Proof.
  induction a as [|x a IH]; destruct b as [|y b]; simpl; split;
    try discriminate; try reflexivity.
  - intros H. apply andb_true_iff in H. destruct H as [H1 H2].
    apply N.eqb_eq in H1. apply IH in H2. congruence.
  - intros H. injection H as -> ->. rewrite N.eqb_refl. simpl.
    apply IH. reflexivity.
Qed.

Lemma str_eqb_refl : forall a : str, str_eqb a a = true.
Proof. intros a. apply str_eqb_eq. reflexivity. Qed.

Lemma str_eqb_neq : forall a b : str, str_eqb a b = false <-> a <> b.
Proof.
  intros a b. split.
  - intros H E. apply str_eqb_eq in E. congruence.
  - intros H. destruct (str_eqb a b) eqn:E; [|reflexivity].
    apply str_eqb_eq in E. contradiction.
Qed.

Section TableFacts.
Variables K V : Type.
Variable eqb : K -> K -> bool.
Hypothesis eqb_eq : forall a b, eqb a b = true <-> a = b.

Let eqb_refl : forall a, eqb a a = true.
Proof. intros a. apply eqb_eq. reflexivity. Qed.

Lemma tableGet_none_notin :
  forall (k : K) (m : list (K * V)),
    tableGet eqb k m = None <-> ~ In k (map fst m).
Proof.
  intros k m; induction m as [|[k' v] m IH]; simpl.
  - tauto.
  - destruct (eqb k k') eqn:E.
    + apply eqb_eq in E. subst. split; [discriminate | tauto].
    + rewrite IH. split.
      * intros H [H1|H1]; [subst; rewrite eqb_refl in E; discriminate|tauto].
      * tauto.
Qed.

Lemma tableSet_fresh :
  forall (k : K) (v : V) (m : list (K * V)),
    tableGet eqb k m = None -> tableSet eqb k v m = m ++ [(k, v)].
Proof.
  intros k v m; induction m as [|[k' v'] m IH]; simpl; intros H.
  - reflexivity.
  - destruct (eqb k k'); [discriminate|]. rewrite IH; auto.
Qed.

Lemma tableSet_keys_present :
  forall (k : K) (v w : V) (m : list (K * V)),
    tableGet eqb k m = Some w ->
    map fst (tableSet eqb k v m) = map fst m.
Proof.
  intros k v w m; induction m as [|[k' v'] m IH]; simpl; intros H.
  - discriminate.
  - destruct (eqb k k'); simpl; [reflexivity|]. rewrite IH; auto.
Qed.

Lemma tableGet_set_same :
  forall (k : K) (v : V) (m : list (K * V)),
    tableGet eqb k (tableSet eqb k v m) = Some v.
Proof.
  intros k v m; induction m as [|[k' v'] m IH]; simpl.
  - rewrite eqb_refl. reflexivity.
  - destruct (eqb k k') eqn:E; simpl; rewrite E; auto.
Qed.

Lemma tableGet_set_other :
  forall (k k0 : K) (v : V) (m : list (K * V)),
    k0 <> k ->
    tableGet eqb k0 (tableSet eqb k v m) = tableGet eqb k0 m.
Proof.
  intros k k0 v m Hne; induction m as [|[k' v'] m IH]; simpl.
  - destruct (eqb k0 k) eqn:E; [apply eqb_eq in E; contradiction|reflexivity].
  - destruct (eqb k k') eqn:E; simpl.
    + apply eqb_eq in E. subst k'.
      destruct (eqb k0 k) eqn:E0; [apply eqb_eq in E0; contradiction|].
      reflexivity.
    + rewrite IH. reflexivity.
Qed.

(** An entry of the table after an assignment is the new one or was
    there before. *)
Lemma tableSet_in :
  forall (k : K) (v : V) (m : list (K * V)) (e : K * V),
    In e (tableSet eqb k v m) -> e = (k, v) \/ In e m.
Proof.
  intros k v m e; induction m as [|[k' v'] m IH]; simpl.
  - intros [H|[]]; auto.
  - destruct (eqb k k') eqn:E; simpl.
    + apply eqb_eq in E. subst k'. intros [H|H]; auto.
    + intros [H|H]; auto. destruct (IH H); auto.
Qed.

Lemma tableGet_in :
  forall (k : K) (v : V) (m : list (K * V)),
    tableGet eqb k m = Some v -> In (k, v) m.
Proof.
  intros k v m; induction m as [|[k' v'] m IH]; simpl; intros H.
  - discriminate.
  - destruct (eqb k k') eqn:E.
    + apply eqb_eq in E. injection H as ->. subst. auto.
    + right. auto.
Qed.

Lemma tableGet_of_in :
  forall (k : K) (v : V) (m : list (K * V)),
    NoDup (map fst m) -> In (k, v) m -> tableGet eqb k m = Some v.
Proof.
  intros k v m; induction m as [|[k' v'] m IH]; simpl; intros Hn H.
  - contradiction.
  - inversion Hn as [|? ? Hnot Hn']; subst.
    destruct H as [H|H].
    + injection H as -> ->. rewrite eqb_refl. reflexivity.
    + destruct (eqb k k') eqn:E.
      * apply eqb_eq in E. subst k'. exfalso. apply Hnot.
        apply (in_map fst) in H. exact H.
      * auto.
Qed.
End TableFacts.

(* ===================================================================== *)
(** ** First occurrences ([new Set]) *)
(* ===================================================================== *)

Lemma existsb_str_In :
  forall (x : str) (l : list str), existsb (str_eqb x) l = true <-> In x l.
Proof.
  intros x l. rewrite existsb_exists. split.
  - intros (y & Hy & E). apply str_eqb_eq in E. subst. exact Hy.
  - intros H. exists x. split; [exact H | apply str_eqb_refl].
Qed.

Lemma existsb_str_notIn :
  forall (x : str) (l : list str), existsb (str_eqb x) l = false <-> ~ In x l.
Proof.
  intros x l. rewrite <- existsb_str_In.
  destruct (existsb (str_eqb x) l); split; intros H; congruence.
Qed.

Lemma In_dedupeAcc :
  forall (l seen : list str) (x : str),
    In x (dedupeAcc seen l) <-> In x l /\ ~ In x seen.
Proof.
  induction l as [|a l IH]; intros seen x; simpl.
  - tauto.
  - destruct (existsb (str_eqb a) seen) eqn:E.
    + apply existsb_str_In in E. rewrite IH. split.
      * tauto.
      * intros [[H|H] Hn]; [subst; contradiction | tauto].
    + apply existsb_str_notIn in E. simpl. rewrite IH. simpl. split.
      * intros [H|[H Hn]]; [subst; tauto | tauto].
      * intros [[H|H] Hn]; [tauto|].
        destruct (list_eq_dec N.eq_dec a x); [tauto | right; tauto].
Qed.

Lemma NoDup_dedupeAcc :
  forall (l seen : list str), NoDup (dedupeAcc seen l).
Proof.
  induction l as [|a l IH]; intros seen; simpl.
  - constructor.
  - destruct (existsb (str_eqb a) seen); [apply IH|].
    constructor; [|apply IH].
    rewrite In_dedupeAcc. simpl. tauto.
Qed.

Lemma dedupeAcc_snoc :
  forall (l seen : list str) (x : str),
    dedupeAcc seen (l ++ [x])
    = dedupeAcc seen l
      ++ (if existsb (str_eqb x) seen || existsb (str_eqb x) l
          then [] else [x]).
Proof.
  induction l as [|a l IH]; intros seen x; simpl.
  - rewrite orb_false_r. destruct (existsb (str_eqb x) seen); reflexivity.
  - destruct (existsb (str_eqb a) seen) eqn:E.
    + rewrite IH. f_equal.
      destruct (str_eqb x a) eqn:Ea; simpl; [|reflexivity].
      apply str_eqb_eq in Ea. subst a. rewrite E. reflexivity.
    + simpl. rewrite IH. simpl. do 2 f_equal.
      destruct (str_eqb x a), (existsb (str_eqb x) seen),
               (existsb (str_eqb x) l); reflexivity.
Qed.

Lemma In_dedupe : forall (l : list str) (x : str), In x (dedupe l) <-> In x l.
Proof. intros l x. unfold dedupe. rewrite In_dedupeAcc. simpl. tauto. Qed.

Lemma NoDup_dedupe : forall l : list str, NoDup (dedupe l).
Proof. intros l. apply NoDup_dedupeAcc. Qed.

Lemma dedupe_snoc :
  forall (l : list str) (x : str),
    dedupe (l ++ [x])
    = dedupe l ++ (if existsb (str_eqb x) l then [] else [x]).
Proof. intros l x. unfold dedupe. rewrite dedupeAcc_snoc. reflexivity. Qed.

(* ===================================================================== *)
(** ** The skills extractor *)
(* ===================================================================== *)

Lemma skillsStep_keeps :
  forall (tbl : list (str * list str)) (line c : str),
    (forall c' t', skillEntry line = Some (c', t') -> c' <> c) ->
    tableGet str_eqb c (skillsStep tbl line) = tableGet str_eqb c tbl.
Proof.
  intros tbl line c H. unfold skillsStep.
  destruct (skillEntry line) as [[c' t']|]; [|reflexivity].
  apply (tableGet_set_other _ _ str_eqb str_eqb_eq).
  intros E. apply (H c' t' eq_refl). symmetry. exact E.
Qed.

Lemma fold_skills_keeps :
  forall (lines : list str) (tbl : list (str * list str)) (c : str),
    (forall l c' t', In l lines -> skillEntry l = Some (c', t') -> c' <> c) ->
    tableGet str_eqb c (fold_left skillsStep lines tbl)
    = tableGet str_eqb c tbl.
Proof.
  induction lines as [|l lines IH]; intros tbl c H; simpl.
  - reflexivity.
  - rewrite IH.
    + apply skillsStep_keeps. intros c' t'. apply H. left. reflexivity.
    + intros l0 c' t' Hin. apply H. right. exact Hin.
Qed.

(** The tokens a skill line contributes are those of the text after its
    colon, split and without repetitions. *)
Lemma skillEntry_tokens :
  forall (line c : str) (toks : list str),
    skillEntry line = Some (c, toks) ->
    NoDup toks
    /\ exists m,
         exec reSkillLine line = Some m
         /\ c = trim (capture 1 (groups m))
         /\ toks = dedupe (skillParts (trim (capture 2 (groups m)))).
Proof.
  intros line c toks H. unfold skillEntry in H.
  destruct (exec reSkillLine line) as [m|]; [|discriminate].
  injection H as <- <-. split; [apply NoDup_dedupe|].
  exists m. repeat split.
Qed.

(** C10: when several lines of the skills section have the same category,
    the category maps to the tokens of the last of them alone: whatever
    lines come before, the value stored under the category of a line that
    no later line repeats is the token list of that line, the tokens of
    the text after its colon without repetitions; nothing of an earlier
    line is merged in. *)
Theorem C10_last_line_wins :
  forall (section : str) (lines1 lines2 : list str) (line c : str)
         (toks : list str),
    sectionLines section = lines1 ++ line :: lines2 ->
    skillEntry line = Some (c, toks) ->
    (forall l c' t', In l lines2 -> skillEntry l = Some (c', t') -> c' <> c) ->
    tableGet str_eqb c (extractSkills section) = Some toks
    /\ NoDup toks
    /\ exists m,
         exec reSkillLine line = Some m
         /\ c = trim (capture 1 (groups m))
         /\ toks = dedupe (skillParts (trim (capture 2 (groups m)))).
Proof.
  intros section lines1 lines2 line c toks Hs He Hlater.
  split; [|exact (skillEntry_tokens line c toks He)].
  unfold extractSkills. rewrite Hs, fold_left_app. simpl.
  rewrite fold_skills_keeps by exact Hlater.
  unfold skillsStep at 1. rewrite He.
  apply (tableGet_set_same _ _ str_eqb str_eqb_eq).
Qed.

Lemma C10_last_line_wins_witness :
  skillEntry (lit "Cloud: AWS, GCP") = Some (lit "Cloud", [lit "AWS"; lit "GCP"])
  /\ tableGet str_eqb (lit "Cloud") (extractSkills docTwoCloudLines)
     = Some [lit "Azure"].
Proof.
  split.
  - vm_compute. reflexivity.
  - apply (proj1 (C10_last_line_wins docTwoCloudLines [lit "Cloud: AWS, GCP"]
                    [] (lit "Cloud: Azure") (lit "Cloud") [lit "Azure"]
                    eq_refl eq_refl
                    (fun l c' t' (H : In l []) => match H with end))).
Defined.

(* ===================================================================== *)
(** ** Deduplication of the projects *)
(* ===================================================================== *)

Lemma winnerIn_bound :
  forall l p q,
    winnerIn l p -> In q l -> normName q = normName p ->
    richness q <= richness p.
Proof.
  intros l p q (l1 & l2 & -> & H1 & H2) Hq Hk.
  apply in_app_or in Hq. destruct Hq as [Hq|[Hq|Hq]].
  - apply Nat.lt_le_incl. apply H1; assumption.
  - subst. apply Nat.le_refl.
  - apply H2; assumption.
Qed.

Lemma winnerIn_snoc :
  forall l p q,
    winnerIn l p ->
    (normName q = normName p -> richness q <= richness p) ->
    winnerIn (l ++ [q]) p.
Proof.
  intros l p q (l1 & l2 & -> & H1 & H2) Hq.
  exists l1, (l2 ++ [q]). split.
  - rewrite <- app_assoc. reflexivity.
  - split; [exact H1|]. intros r Hr Hk. apply in_app_or in Hr.
    destruct Hr as [Hr|[Hr|[]]]; [apply H2; assumption|].
    subst r. apply Hq. exact Hk.
Qed.

Lemma tableSet_in_strict :
  forall (k : str) (v : ProjectEntry) (m : list (str * ProjectEntry))
         (e : str * ProjectEntry),
    NoDup (map fst m) ->
    In e (tableSet str_eqb k v m) -> e = (k, v) \/ (In e m /\ fst e <> k).
Proof.
  intros k v m e; induction m as [|[k' v'] m IH]; simpl; intros Hn.
  - intros [H|[]]; auto.
  - inversion Hn as [|? ? Hnot Hn']; subst.
    destruct (str_eqb k k') eqn:E; simpl.
    + apply str_eqb_eq in E. subst k'. intros [H|H]; auto.
      right. split; [auto|]. intros Hk. apply Hnot. rewrite <- Hk.
      apply in_map. exact H.
    + apply str_eqb_neq in E. intros [H|H].
      * right. subst e. simpl. split; auto.
      * destruct (IH Hn' H) as [H0|[H0 H1]]; auto.
Qed.

Lemma dedupStep_ok :
  forall pre tbl p, tableOk pre tbl -> tableOk (pre ++ [p]) (dedupStep tbl p).
Proof.
  intros pre tbl p [Hkeys Hent].
  assert (Hnd : NoDup (map fst tbl)) by (rewrite Hkeys; apply NoDup_dedupe).
  unfold dedupStep, tableOk.
  rewrite map_app. change (map normName [p]) with [normName p].
  rewrite dedupe_snoc.
  destruct (tableGet str_eqb (normName p) tbl) as [existing|] eqn:G.
  - assert (Hin : In (normName p, existing) tbl)
      by (apply (tableGet_in _ _ str_eqb str_eqb_eq); exact G).
    assert (Hseen : existsb (str_eqb (normName p)) (map normName pre) = true).
    { apply existsb_str_In. rewrite <- In_dedupe, <- Hkeys.
      apply (in_map fst) in Hin. exact Hin. }
    rewrite Hseen, app_nil_r.
    destruct (Hent _ _ Hin) as [Hk Hw].
    destruct (richness existing <? richness p) eqn:R.
    + apply Nat.ltb_lt in R. split.
      * rewrite (tableSet_keys_present _ _ str_eqb _ _ _ _ G). exact Hkeys.
      * intros k q Hq. apply tableSet_in_strict in Hq; [|exact Hnd].
        destruct Hq as [Hq|[Hq Hne]].
        -- injection Hq as -> ->. split; [reflexivity|].
           exists pre, []. split; [reflexivity|]. split.
           ++ intros r Hr Hrk. rewrite <- Hk in Hrk.
              pose proof (winnerIn_bound _ _ _ Hw Hr Hrk). lia.
           ++ intros r [].
        -- simpl in Hne. destruct (Hent _ _ Hq) as [Hqk Hqw].
           split; [exact Hqk|]. apply winnerIn_snoc; [exact Hqw|].
           intros E. congruence.
    + apply Nat.ltb_ge in R. split; [exact Hkeys|].
      intros k q Hq. destruct (Hent _ _ Hq) as [Hqk Hqw].
      split; [exact Hqk|]. apply winnerIn_snoc; [exact Hqw|].
      intros E.
      assert (q = existing).
      { assert (G' : tableGet str_eqb (normName p) tbl = Some q).
        { apply (tableGet_of_in _ _ str_eqb str_eqb_eq); [exact Hnd|].
          rewrite E, Hqk. exact Hq. }
        congruence. }
      subst q. exact R.
  - assert (Hfresh : ~ In (normName p) (map normName pre)).
    { rewrite <- In_dedupe, <- Hkeys.
      apply (tableGet_none_notin _ _ str_eqb str_eqb_eq). exact G. }
    apply existsb_str_notIn in Hfresh as Hb. rewrite Hb.
    rewrite (tableSet_fresh _ _ str_eqb _ _ _ G). split.
    + rewrite map_app, Hkeys. reflexivity.
    + intros k q Hq. apply in_app_or in Hq. destruct Hq as [Hq|[Hq|[]]].
      * destruct (Hent _ _ Hq) as [Hqk Hqw].
        split; [exact Hqk|]. apply winnerIn_snoc; [exact Hqw|].
        intros E. exfalso. apply Hfresh. rewrite E.
        apply In_dedupe. rewrite <- Hkeys, Hqk.
        apply (in_map fst) in Hq. exact Hq.
      * injection Hq as <- <-. split; [reflexivity|].
        exists pre, []. split; [reflexivity|]. split.
        -- intros r Hr Hrk. exfalso. apply Hfresh. rewrite <- Hrk.
           apply in_map. exact Hr.
        -- intros r [].
Qed.

Lemma fold_dedup_ok :
  forall l pre tbl,
    tableOk pre tbl -> tableOk (pre ++ l) (fold_left dedupStep l tbl).
Proof.
  induction l as [|p l IH]; intros pre tbl H; simpl.
  - rewrite app_nil_r. exact H.
  - replace (pre ++ p :: l) with ((pre ++ [p]) ++ l)
      by (rewrite <- app_assoc; reflexivity).
    apply IH. apply dedupStep_ok. exact H.
Qed.

Lemma dedup_table_ok :
  forall l, tableOk l (fold_left dedupStep l []).
Proof.
  intros l. apply (fold_dedup_ok l []).
  split; [reflexivity | intros k p []].
Qed.

Lemma tableValues_names :
  forall tbl : list (str * ProjectEntry),
    (forall k p, In (k, p) tbl -> normName p = k) ->
    map normName (tableValues tbl) = map fst tbl.
Proof.
  induction tbl as [|[k p] tbl IH]; intros H; simpl.
  - reflexivity.
  - rewrite (H k p (or_introl eq_refl)). f_equal.
    apply IH. intros k' p' Hin. apply H. right. exact Hin.
Qed.

(** The names of the output are the distinct names of the input, each
    once, in the order of their first occurrence. *)
Lemma dedup_names :
  forall l, map normName (dedup l) = dedupe (map normName l).
Proof.
  intros l. unfold dedup. destruct (dedup_table_ok l) as [Hk He].
  rewrite tableValues_names; [exact Hk|].
  intros k p H. apply He. exact H.
Qed.

Lemma dedup_winner :
  forall l p, In p (dedup l) -> winnerIn l p.
Proof.
  intros l p H. unfold dedup, tableValues in H.
  apply in_map_iff in H. destruct H as ([k q] & E & H). simpl in E. subst q.
  destruct (dedup_table_ok l) as [_ He]. apply (He k p H).
Qed.

(** On entries whose names differ pairwise and are not in the table yet,
    the loop only appends. *)
Lemma fold_dedup_fresh :
  forall l tbl,
    NoDup (map normName l) ->
    (forall p, In p l -> ~ In (normName p) (map fst tbl)) ->
    fold_left dedupStep l tbl = tbl ++ map (fun p => (normName p, p)) l.
Proof.
  induction l as [|p l IH]; intros tbl Hn Hf; simpl.
  - rewrite app_nil_r. reflexivity.
  - inversion Hn as [|? ? Hnot Hn']; subst.
    assert (G : tableGet str_eqb (normName p) tbl = None).
    { apply (tableGet_none_notin _ _ str_eqb str_eqb_eq). apply Hf. left.
      reflexivity. }
    unfold dedupStep at 2. rewrite G, (tableSet_fresh _ _ str_eqb _ _ _ G).
    rewrite IH.
    + rewrite <- app_assoc. reflexivity.
    + exact Hn'.
    + intros q Hq. rewrite map_app. simpl. intros Hin.
      apply in_app_or in Hin. destruct Hin as [Hin|[Hin|[]]].
      * apply (Hf q (or_intror Hq)). exact Hin.
      * apply Hnot. rewrite Hin. apply in_map. exact Hq.
Qed.

Lemma dedup_fixed :
  forall l, NoDup (map normName l) -> dedup l = l.
Proof.
  intros l H. unfold dedup. rewrite fold_dedup_fresh.
  - simpl. unfold tableValues. rewrite map_map. simpl. apply map_id.
  - exact H.
  - intros p _ [].
Qed.


(** C8: deduplication is idempotent: applied to its own output it returns
    that output, the same entries in the same order. *)
Theorem C8_dedup_idempotent :
  forall l : list ProjectEntry, dedup (dedup l) = dedup l.
Proof.
  intros l. apply dedup_fixed. rewrite dedup_names. apply NoDup_dedupe.
Qed.

(* ===================================================================== *)
(** ** No extractor raises or runs forever *)
(* ===================================================================== *)

Lemma get_in_range :
  forall (A : Type) (l : list A) (i : nat),
    i < length l -> exists x, get l i = Some x.
Proof.
  intros A l i H. unfold get.
  destruct (nth_error l i) as [x|] eqn:E; [exists x; reflexivity|].
  apply nth_error_None in E. lia.
Qed.

Lemma get_last :
  forall (A : Type) (l : list A),
    0 < length l -> exists x, get l (length l - 1) = Some x.
Proof. intros A l H. apply get_in_range. lia. Qed.

Lemma splitOn_cons :
  forall (sep : char) (s : str), exists h r, splitOn sep s = h :: r.
Proof.
  intros sep s; induction s as [|c s IH]; simpl.
  - exists [], []. reflexivity.
  - destruct ((c =? sep)%N).
    + exists [], (splitOn sep s). reflexivity.
    + destruct IH as (h & r & ->). exists (c :: h), r. reflexivity.
Qed.

(** The inner loop of the experience extractor ends, with the cursor not
    behind where it started. *)
Lemma collectBullets_total :
  forall (fuel : nat) (lines : list str) (i : nat) (bs : list str),
    length lines - i < fuel ->
    exists i' bs', collectBullets fuel lines i bs = Ok (i', bs') /\ i <= i'.
Proof.
  induction fuel as [|f IH]; intros lines i bs Hf.
  - lia.
  - cbn [collectBullets]. destruct (i <? length lines) eqn:Ei.
    2:{ exists i, bs. split; [reflexivity | lia]. }
    apply Nat.ltb_lt in Ei.
    destruct (get_in_range _ lines i Ei) as (li & ->). cbn [bind must].
    destruct (test reYearOrPresent li).
    { exists i, bs. split; [reflexivity | lia]. }
    destruct (str_eqb li [BULLET] && (i + 1 <? length lines)) eqn:Eb.
    { apply andb_true_iff in Eb. destruct Eb as [_ Eb].
      apply Nat.ltb_lt in Eb.
      destruct (get_in_range _ lines (i + 1) Eb) as (bt & ->). cbn [bind must].
      destruct (IH lines (i + 2) (bs ++ [bt])) as (i' & bs' & -> & Hi); [lia|].
      exists i', bs'. split; [reflexivity | lia]. }
    destruct (startsWith [BULLET; SPACE] li).
    { destruct (IH lines (i + 1) (bs ++ [replaceFirst reBulletPrefix [] li]))
        as (i' & bs' & -> & Hi); [lia|].
      exists i', bs'. split; [reflexivity | lia]. }
    destruct (0 <? length bs) eqn:El.
    { apply Nat.ltb_lt in El.
      destruct (get_last _ bs El) as (lastB & ->). cbn [bind must].
      destruct (IH lines (i + 1)
                  (setAt (length bs - 1) (trim (lastB ++ [SPACE] ++ li)) bs))
        as (i' & bs' & -> & Hi); [lia|].
      exists i', bs'. split; [reflexivity | lia]. }
    destruct (IH lines (i + 1) (bs ++ [li])) as (i' & bs' & -> & Hi); [lia|].
    exists i', bs'. split; [reflexivity | lia].
Qed.

Lemma experienceLoop_total :
  forall (fuel : nat) (lines : list str) (i : nat)
         (items : list ExperienceEntry),
    length lines - i < fuel ->
    exists r, experienceLoop fuel lines i items = Ok r.
Proof.
  induction fuel as [|f IH]; intros lines i items Hf.
  - lia.
  - cbn [experienceLoop]. destruct (i <? length lines) eqn:Ei.
    2:{ exists items. reflexivity. }
    apply Nat.ltb_lt in Ei.
    destruct (get_in_range _ lines i Ei) as (line & ->). cbn [bind must].
    destruct (test reYearOrPresent line && test reLetter line).
    2:{ apply IH. lia. }
    destruct (splitCompany line) as [comp dur].
    assert (Hnext :
      exists rolo i1,
        (if i + 1 <? length lines
         then rl <- must (get lines (i + 1)) ;; Ok (splitRole rl, i + 2)
         else Ok (([], []), i + 1)) = Ok (rolo, i1) /\ i < i1).
    { destruct (i + 1 <? length lines) eqn:En.
      - apply Nat.ltb_lt in En.
        destruct (get_in_range _ lines (i + 1) En) as (rl & ->).
        cbn [bind must]. exists (splitRole rl), (i + 2).
        split; [reflexivity | lia].
      - exists ([], []), (i + 1). split; [reflexivity | lia]. }
    destruct Hnext as (rolo & i1 & -> & Hi1). cbn [bind].
    destruct (collectBullets_total (S (length lines)) lines i1 [])
      as (i2 & bs & -> & Hi2); [lia|].
    cbn [bind]. apply IH. lia.
Qed.

Lemma extractExperience_total :
  forall section : str, exists r, extractExperience section = Ok r.
Proof.
  intros section. unfold extractExperience.
  apply experienceLoop_total. lia.
Qed.

Lemma extractEducation_total :
  forall section : str, exists r, extractEducation section = Ok r.
Proof.
  intros section. unfold extractEducation.
  destruct (2 <=? length (sectionLines section)) eqn:E.
  - apply Nat.leb_le in E.
    destruct (get_in_range _ (sectionLines section) 0) as (a & ->); [lia|].
    destruct (get_in_range _ (sectionLines section) 1) as (b & ->); [lia|].
    cbn [bind must]. eexists. reflexivity.
  - eexists. reflexivity.
Qed.

Lemma ensureCurrent_some :
  forall cur, exists p, ensureCurrent cur = Some p.
Proof.
  intros [p|]; simpl; eexists; reflexivity.
Qed.

Lemma addTech_total :
  forall raw cur, exists p, addTech raw cur = Ok (Some p).
Proof.
  intros raw cur. unfold addTech.
  destruct (ensureCurrent_some cur) as (p & ->). cbn [bind must].
  eexists. reflexivity.
Qed.

(** One round of the project loop returns, and leaves the cursor where it
    was or further on. *)
Lemma projectStep_total :
  forall (lines : list str) (i : nat) (st : ProjState),
    i < length lines ->
    exists c,
      projectStep lines i st = Ok c
      /\ match c with Continue i' _ => i <= i' | Break _ => True end.
Proof.
  intros lines i st Hi. unfold projectStep.
  destruct (get_in_range _ lines i Hi) as (line & ->). cbn [bind must].
  destruct (test reOthers line).
  { eexists. split; [reflexivity | exact I]. }
  destruct (includes PIPE line).
  { destruct (splitOn_cons PIPE line) as (h & r & ->).
    cbn [firstn get nth_error bind must].
    match goal with
    | |- context [bind ?c _] =>
        assert (Hc : exists cur, c = Ok cur)
    end.
    { destruct r as [|right r']; cbn [firstn nth_error].
      - eexists. reflexivity.
      - destruct right as [|x right'].
        + eexists. reflexivity.
        + destruct (addTech_total (x :: right')
                      (Some {| name := Some (trim h); description := Some [];
                               tech := Some []; link := None;
                               bullets := Some [] |})) as (p & ->).
          eexists. reflexivity. }
    destruct Hc as (cur & ->). cbn [bind].
    eexists. split; [reflexivity | cbn beta iota; lia]. }
  destruct (test reUrlStart line).
  { destruct (ensureCurrent_some (current st)) as (p & ->). cbn [bind must].
    eexists. split; [reflexivity | cbn beta iota; lia]. }
  destruct (str_eqb line [BULLET] && (i + 1 <? length lines)) eqn:Eb.
  { apply andb_true_iff in Eb. destruct Eb as [_ Eb]. apply Nat.ltb_lt in Eb.
    destruct (ensureCurrent_some (current st)) as (p & ->).
    destruct (get_in_range _ lines (i + 1) Eb) as (next & ->).
    cbn [bind must]. eexists. split; [reflexivity | cbn beta iota; lia]. }
  destruct (startsWith [BULLET; SPACE] line).
  { destruct (ensureCurrent_some (current st)) as (p & ->). cbn [bind must].
    eexists. split; [reflexivity | cbn beta iota; lia]. }
  destruct (bulletsStarted st
            && match current st with
               | Some p => 0 <? length (orNil (bullets p))
               | None => false
               end) eqn:Ec.
  { apply andb_true_iff in Ec. destruct Ec as [_ Ec].
    destruct (current st) as [p|]; [|discriminate]. cbn [bind must].
    destruct (bullets p) as [bs|]; [|discriminate]. cbn [bind must].
    apply Nat.ltb_lt in Ec. simpl orNil in Ec.
    destruct (get_last _ bs Ec) as (lastB & ->). cbn [bind must].
    eexists. split; [reflexivity | cbn beta iota; lia]. }
  destruct (looksLikeTech line).
  { destruct (addTech_total line (current st)) as (p & ->). cbn [bind].
    eexists. split; [reflexivity | cbn beta iota; lia]. }
  destruct (ensureCurrent_some (current st)) as (p & ->). cbn [bind must].
  eexists. split; [reflexivity | cbn beta iota; lia].
Qed.

Lemma projectLoop_total :
  forall (fuel : nat) (lines : list str) (i : nat) (st : ProjState),
    length lines - i < fuel ->
    exists st', projectLoop fuel lines i st = Ok st'.
Proof.
  induction fuel as [|f IH]; intros lines i st Hf.
  - lia.
  - cbn [projectLoop]. destruct (i <? length lines) eqn:Ei.
    2:{ exists st. reflexivity. }
    apply Nat.ltb_lt in Ei.
    destruct (projectStep_total lines i st Ei) as (c & -> & Hc).
    cbn [bind]. destruct c as [i' st'|st'].
    + apply IH. lia.
    + exists st'. reflexivity.
Qed.

Lemma extractProjects_total :
  forall section : str, exists r, extractProjects section = Ok r.
Proof.
  intros section. unfold extractProjects.
  destruct (projectLoop_total (S (length (sectionLines section)))
              (sectionLines section) 0
              {| items := []; current := None; bulletsStarted := false |})
    as (st & ->); [lia|].
  cbn [bind]. eexists. reflexivity.
Qed.

Lemma boundsAt_total :
  forall (hl : list HeaderLine) (n i : nat),
    i < length hl -> exists b, boundsAt hl n i = Ok b.
Proof.
  intros hl n i Hi. unfold boundsAt.
  destruct (get_in_range _ hl i Hi) as (h & ->). cbn [bind must].
  destruct (i + 1 <? length hl) eqn:E.
  - apply Nat.ltb_lt in E.
    destruct (get_in_range _ hl (i + 1) E) as (h' & ->). cbn [bind must].
    eexists. reflexivity.
  - cbn [bind]. eexists. reflexivity.
Qed.

Lemma fillSections_total :
  forall (hl : list HeaderLine) (lines : list str) (n i : nat)
         (sections : list (Key * str)),
    i + n <= length hl ->
    exists r, fillSections hl lines n i sections = Ok r.
Proof.
  intros hl lines n; induction n as [|n IH]; intros i sections H.
  - exists sections. reflexivity.
  - cbn [fillSections].
    destruct (boundsAt_total hl (length lines) i) as ([[k a] b] & ->); [lia|].
    cbn [bind]. apply IH. lia.
Qed.

Lemma parseSections_total :
  forall text : str, exists p, parseSections text = Ok p.
Proof.
  intros text. unfold parseSections.
  match goal with
  | |- context [fillSections ?hl ?ls ?n 0 ?s0] =>
      destruct (fillSections_total hl ls n 0 s0) as (r & ->); [simpl; lia|]
  end.
  cbn [bind]. eexists. reflexivity.
Qed.

Lemma assemble_total :
  forall text : str, exists r, assemble text = Ok r.
Proof.
  intros text. unfold assemble.
  destruct (parseSections_total text) as (p & ->). cbn [bind].
  destruct (extractExperience_total (sectionOr KExperience (pSections p)))
    as (ex & ->). cbn [bind].
  destruct (extractProjects_total (sectionOr KProjects (pSections p)))
    as (pr & ->). cbn [bind].
  destruct (extractEducation_total (sectionOr KEducation (pSections p)))
    as (ed & ->). cbn [bind].
  eexists. reflexivity.
Qed.

(** C9: every extraction function returns a value on every input, with no
    error raised and no loop left running: the segmenter, the experience,
    project and education extractors and the assembly of the record return
    [Ok]; the header, skills and list extractors have no operation that can
    raise.  On the empty string each of them gives an empty result, and the
    record of the empty document has no name and no summary, a contact
    bundle of empty strings and empty collections. *)
Theorem C9_extractors_total :
  forall s : str,
    (exists p, parseSections s = Ok p)
    /\ (exists e, extractExperience s = Ok e)
    /\ (exists p, extractProjects s = Ok p)
    /\ (exists e, extractEducation s = Ok e)
    /\ (exists r, assemble s = Ok r)
    /\ extractExperience [] = Ok []
    /\ extractProjects [] = Ok []
    /\ extractEducation [] = Ok []
    /\ extractSkills [] = []
    /\ extractList [] = []
    /\ extractHeader [] = {| resName := None; headline := None;
                             contact := Some blankContact; summary := None;
                             skills := None; experience := None;
                             projects := None; education := None;
                             certifications := None |}
    /\ (exists p, parseSections [] = Ok p /\ pLines p = []
                  /\ pSections p = [(KHeader, [])])
    /\ assemble [] = Ok emptyRecord.
Proof.
  intros s.
  split; [apply parseSections_total|].
  split; [apply extractExperience_total|].
  split; [apply extractProjects_total|].
  split; [apply extractEducation_total|].
  split; [apply assemble_total|].
  repeat (split; [vm_compute; reflexivity|]).
  split; [eexists; repeat split; vm_compute; reflexivity|].
  vm_compute. reflexivity.
Qed.

(* ===================================================================== *)
(** ** Trimming *)
(* ===================================================================== *)

Lemma dropWhile_head :
  forall (p : char -> bool) (s : str) (c : char) (t : str),
    dropWhile p s = c :: t -> p c = false.
Proof.
  intros p s; induction s as [|a s IH]; intros c t H; simpl in H.
  - discriminate.
  - destruct (p a) eqn:E; [eauto|]. injection H as <- _. exact E.
Qed.

Lemma dropWhile_idem :
  forall (p : char -> bool) (s : str),
    dropWhile p (dropWhile p s) = dropWhile p s.
Proof.
  intros p s. destruct (dropWhile p s) as [|c t] eqn:E; [reflexivity|].
  simpl. rewrite (dropWhile_head p s c t E). reflexivity.
Qed.

Lemma dropWhile_suffix :
  forall (p : char -> bool) (s : str),
    exists pre, s = pre ++ dropWhile p s.
Proof.
  intros p s; induction s as [|a s IH]; simpl.
  - exists []. reflexivity.
  - destruct (p a).
    + destruct IH as (pre & IH). exists (a :: pre). simpl. congruence.
    + exists []. reflexivity.
Qed.

Lemma trimEnd_prefix :
  forall s : str, exists suf, s = trimEnd s ++ suf.
Proof.
  intros s. unfold trimEnd.
  destruct (dropWhile_suffix isSpace (rev s)) as (pre & H).
  exists (rev pre). rewrite <- rev_app_distr, <- H, rev_involutive.
  reflexivity.
Qed.

Lemma trimEnd_idem : forall s : str, trimEnd (trimEnd s) = trimEnd s.
Proof.
  intros s. unfold trimEnd. rewrite rev_involutive, dropWhile_idem.
  reflexivity.
Qed.

Lemma trimStart_trim : forall s : str, trimStart (trim s) = trim s.
Proof.
  intros s. unfold trim.
  destruct (trimEnd (trimStart s)) as [|c t] eqn:E; [reflexivity|].
  destruct (trimEnd_prefix (trimStart s)) as (suf & H).
  rewrite E in H. simpl in H. unfold trimStart in H |- *.
  simpl. rewrite (dropWhile_head isSpace s c (t ++ suf) H). reflexivity.
Qed.

(** Trimming a trimmed string changes nothing. *)
Lemma trim_idem : forall s : str, trim (trim s) = trim s.
Proof.
  intros s. unfold trim at 1. rewrite trimStart_trim.
  unfold trim. apply trimEnd_idem.
Qed.

Lemma filter_filter_same :
  forall (A : Type) (f g : A -> bool) (l : list A),
    (forall x, In x l -> g x = true -> f x = true) ->
    filter f (filter g l) = filter g l.
Proof.
  intros A f g l; induction l as [|a l IH]; intros H; simpl.
  - reflexivity.
  - destruct (g a) eqn:E; simpl.
    + rewrite (H a (or_introl eq_refl) E). f_equal.
      apply IH. intros x Hx. apply H. right. exact Hx.
    + apply IH. intros x Hx. apply H. right. exact Hx.
Qed.

(** The lines [main] hands to the header extractor are trimmed and not
    empty, so the filter of the header extractor keeps all of them. *)
Lemma nonBlank_sectionLines :
  forall text : str, nonBlank (sectionLines text) = sectionLines text.
Proof.
  intros text. unfold nonBlank, sectionLines.
  apply filter_filter_same.
  intros x Hx Hne. apply in_map_iff in Hx. destruct Hx as (y & <- & _).
  rewrite trim_idem. exact Hne.
Qed.

Lemma sectionLines_trimmed :
  forall (text l : str), In l (sectionLines text) -> trim l = l /\ l <> [].
Proof.
  intros text l H. unfold sectionLines in H.
  apply filter_In in H. destruct H as [H Hne].
  apply in_map_iff in H. destruct H as (y & <- & _).
  split; [apply trim_idem|]. destruct (trim y); [discriminate | discriminate].
Qed.

Lemma get_In :
  forall (A : Type) (l : list A) (i : nat) (x : A),
    get l i = Some x -> In x l.
Proof. intros A l i x H. exact (nth_error_In l i H). Qed.

(** The name the header extractor gives on such lines is the first of
    them, as it stands. *)
Lemma extractHeader_name :
  forall text : str,
    resName (extractHeader (sectionLines text)) = get (sectionLines text) 0.
Proof.
  intros text. unfold extractHeader. cbn [resName].
  rewrite nonBlank_sectionLines.
  destruct (get (sectionLines text) 0) as [l|] eqn:E; cbn [orEmpty].
  - destruct (sectionLines_trimmed text l (get_In _ _ _ _ E)) as [Ht Hne].
    rewrite Ht. destruct l; [contradiction | reflexivity].
  - reflexivity.
Qed.

(** The shape of the record [main] assembles. *)
Lemma assemble_inv :
  forall (text : str) (r : Resume),
    assemble text = Ok r ->
    exists p summ ex pr ed,
      parseSections text = Ok p
      /\ pLines p = sectionLines text
      /\ summ <> Some []
      /\ r = {| resName := resName (extractHeader (pLines p));
                headline := None;
                contact := contact (extractHeader (pLines p));
                summary := summ;
                skills := Some (SkillMap
                                  (extractSkills (sectionOr KSkills (pSections p))));
                experience := Some ex;
                projects := Some pr;
                education := Some ed;
                certifications :=
                  Some (extractList (sectionOr KCertifications (pSections p))) |}.
Proof.
  intros text r H. unfold assemble in H.
  destruct (parseSections text) as [p| |] eqn:Ep; try discriminate.
  cbn [bind] in H.
  destruct (extractExperience (sectionOr KExperience (pSections p)))
    as [ex| |]; try discriminate. cbn [bind] in H.
  destruct (extractProjects (sectionOr KProjects (pSections p)))
    as [pr| |]; try discriminate. cbn [bind] in H.
  destruct (extractEducation (sectionOr KEducation (pSections p)))
    as [ed| |]; try discriminate. cbn [bind] in H.
  injection H as <-.
  eexists p, _, ex, pr, ed. split; [reflexivity|]. split.
  - unfold parseSections in Ep.
    destruct (fillSections _ _ _ _ _) as [sec| |]; try discriminate.
    cbn [bind] in Ep. injection Ep as <-. reflexivity.
  - split; [|reflexivity].
    destruct (tableGet key_eqb KSummary (pSections p)) as [s|];
      [|discriminate].
    cbv zeta.
    destruct (trim (replaceFirst reSummaryLabel [] s)) as [|c t];
      cbn [nonEmpty]; discriminate.
Qed.

(* ===================================================================== *)
(** ** Which fields of the record are present *)
(* ===================================================================== *)




(* ===================================================================== *)
(** ** Where the name and the contact line come from *)
(* ===================================================================== *)

Lemma filter_firstn_skipn :
  forall (A : Type) (f : A -> bool) (n : nat) (l : list A),
    filter f l = filter f (firstn n l) ++ filter f (skipn n l).
Proof.
  intros A f n l. rewrite <- filter_app, firstn_skipn. reflexivity.
Qed.

(** C5 (as amended): the name of the record is the first non-blank line of
    the whole text, trimmed, and is absent only when the text has no such
    line; the contact bundle is parsed from the second non-blank line of the
    whole text.  These are the first two non-blank lines of the header
    region (the lines before the first matched label) whenever that region
    has them: every non-blank line of the header region is the line of the
    same rank in the whole text. *)
Theorem C5_name_from_first_line :
  forall text : str,
    exists r,
      assemble text = Ok r
      /\ resName r = get (sectionLines text) 0
      /\ contact r
         = Some (contactOf (contactParts (orEmpty (get (sectionLines text) 1))))
      /\ (let lines := map trim (splitOn NL text) in
          let hdr :=
            filter nonEmpty
              (firstn (firstHeaderLine (findHeaderLines lines) lines) lines) in
          forall k, k < length hdr -> get (sectionLines text) k = get hdr k).
Proof.
  intros text. destruct (assemble_total text) as (r & Hr).
  exists r. split; [exact Hr|].
  destruct (assemble_inv text r Hr)
    as (p & summ & ex & pr & ed & _ & Hl & _ & ->).
  cbn [resName contact]. rewrite Hl.
  split; [apply extractHeader_name|].
  split.
  - unfold extractHeader. cbn [contact].
    rewrite nonBlank_sectionLines. reflexivity.
  - cbv zeta. intros k Hk. unfold sectionLines.
    set (lines := map trim (splitOn NL text)) in *.
    rewrite (filter_firstn_skipn _ nonEmpty
               (firstHeaderLine (findHeaderLines lines) lines) lines).
    unfold get. apply nth_error_app1. exact Hk.
Qed.

(** C5 fails as stated: in a document that opens with the label Education
    the header region is empty, and yet the record has a name, the label
    itself, and its contact bundle is parsed from the line after it. *)
Lemma C5_counterexample :
  exists p r,
    parseSections docNoHeader = Ok p
    /\ tableGet key_eqb KHeader (pSections p) = Some []
    /\ assemble docNoHeader = Ok r
    /\ resName r = Some (lit "Education")
    /\ resName r <> None.
Proof.
  eexists. eexists.
  split; [vm_compute; reflexivity|].
  split; [vm_compute; reflexivity|].
  split; [vm_compute; reflexivity|].
  split; [vm_compute; reflexivity | discriminate].
Qed.

(* ===================================================================== *)
(** ** The section segmenter *)
(* ===================================================================== *)

Lemma key_eqb_eq : forall a b : Key, key_eqb a b = true <-> a = b.
Proof.
  intros a b; destruct a, b; simpl; split; intros H;
    try reflexivity; try discriminate.
Qed.


Lemma existsb_key_In :
  forall (k : Key) (l : list Key), existsb (key_eqb k) l = true <-> In k l.
Proof.
  intros k l. rewrite existsb_exists. split.
  - intros (y & Hy & E). apply key_eqb_eq in E. subst. exact Hy.
  - intros H. exists k. split; [exact H | apply key_eqb_eq; reflexivity].
Qed.

Lemma headerLabels_keys_nodup : NoDup (map fst headerLabels).
Proof.
  simpl. repeat constructor; simpl; intuition discriminate.
Qed.

Lemma headerLabels_label :
  forall (k : Key) (r : re) (line : str),
    In (k, r) headerLabels -> test (anchored r) line = isLabelLine k line.
Proof.
  intros k r line H. unfold isLabelLine.
  rewrite (tableGet_of_in _ _ key_eqb key_eqb_eq k r headerLabels
             headerLabels_keys_nodup H).
  reflexivity.
Qed.

Lemma isLabelLine_key :
  forall (k : Key) (line : str),
    isLabelLine k line = true -> In k (map fst headerLabels).
Proof.
  intros k line H. unfold isLabelLine in H.
  destruct (tableGet key_eqb k headerLabels) as [r|] eqn:E; [|discriminate].
  apply (tableGet_in _ _ key_eqb key_eqb_eq) in E.
  apply (in_map fst) in E. exact E.
Qed.

Lemma ascending_snoc :
  forall (hl : list HeaderLine) (x : HeaderLine),
    ascending hl ->
    (forall h, In h hl -> lineIndex h <= lineIndex x) ->
    ascending (hl ++ [x]).
Proof.
  unfold ascending. intros hl x H; induction H as [|a l Hl IH Ha]; intros Hx.
  - simpl. constructor; constructor.
  - simpl. constructor.
    + apply IH. intros h Hh. apply Hx. right. exact Hh.
    + apply Forall_app. split; [exact Ha|].
      constructor; [|constructor]. apply Hx. left. reflexivity.
Qed.

Lemma NoDup_snoc :
  forall (A : Type) (l : list A) (x : A),
    NoDup l -> ~ In x l -> NoDup (l ++ [x]).
Proof.
  intros A l x H; induction H as [|a l Ha Hl IH]; intros Hx; simpl.
  - constructor; [intros [] | constructor].
  - constructor.
    + rewrite in_app_iff. simpl. intros [H|[H|[]]]; [contradiction|].
      apply Hx. left. symmetry. exact H.
    + apply IH. intros H. apply Hx. right. exact H.
Qed.

Lemma scanInv_step :
  forall (lines : list str) (i : nat) (line : str) (k : Key) (r : re)
         (done : list Key) (st : scanState),
    get lines i = Some line ->
    test (anchored r) line = isLabelLine k line ->
    scanInv lines i (Some line) done st ->
    scanInv lines i (Some line) (done ++ [k])
      (let (hl, seen) := st in
       if existsb (key_eqb k) seen then st
       else if test (anchored r) line
            then (hl ++ [{| key := k; lineIndex := i |}], k :: seen)
            else st).
Proof.
  intros lines i line k r done [hl seen] Hline Hr
    (Hseen & Hnd & Hhit & Hmiss & Hasc).
  simpl in Hseen, Hnd, Hhit, Hmiss, Hasc.
  destruct (existsb (key_eqb k) seen) eqn:Es.
  { apply existsb_key_In in Es. unfold scanInv; simpl.
    repeat split; try assumption; try apply Hseen; try (apply Hhit; assumption).
    - apply Hmiss. assumption.
    - intros Hd l El. apply in_app_or in Hd. destruct Hd as [Hd|[Hd|[]]].
      + apply (proj2 (Hmiss k0 H)); assumption.
      + subst k0. contradiction. }
  assert (Hk : ~ In k seen).
  { intros Hin. apply existsb_key_In in Hin. congruence. }
  destruct (test (anchored r) line) eqn:Et.
  - unfold scanInv; simpl. split; [|split; [|split; [|split]]].
    + intros k0. rewrite map_app, in_app_iff. simpl. rewrite <- Hseen. tauto.
    + rewrite map_app. simpl. apply NoDup_snoc; [exact Hnd|].
      rewrite <- Hseen. exact Hk.
    + intros h Hh. apply in_app_or in Hh. destruct Hh as [Hh|[Hh|[]]].
      * apply Hhit. exact Hh.
      * subst h. simpl. split; [lia|]. split.
        -- exists line. split; [exact Hline | congruence].
        -- intros j l Hj El. apply (proj1 (Hmiss k Hk) j l Hj El).
    + intros k0 Hk0. split.
      * apply Hmiss. tauto.
      * intros Hd l El. apply in_app_or in Hd. destruct Hd as [Hd|[Hd|[]]].
        -- apply (proj2 (Hmiss k0 (fun H => Hk0 (or_intror H)))); assumption.
        -- subst k0. exfalso. apply Hk0. left. reflexivity.
    + apply ascending_snoc; [exact Hasc|].
      intros h Hh. simpl. apply Hhit. exact Hh.
  - unfold scanInv; simpl.
    repeat split; try assumption; try apply Hseen; try (apply Hhit; assumption).
    + apply Hmiss. assumption.
    + intros Hd l El. apply in_app_or in Hd. destruct Hd as [Hd|[Hd|[]]].
      * apply (proj2 (Hmiss k0 H)); assumption.
      * subst k0. injection El as <-. congruence.
Qed.


Lemma scanLabels_fold_inv :
  forall (lines : list str) (i : nat) (line : str)
         (L : list (Key * re)) (done : list Key) (st : scanState),
    get lines i = Some line ->
    (forall k r, In (k, r) L -> In (k, r) headerLabels) ->
    scanInv lines i (Some line) done st ->
    scanInv lines i (Some line) (done ++ map fst L)
      (fold_left
         (fun (st : scanState) (h : Key * re) =>
            let (hl, seen) := st in
            if existsb (key_eqb (fst h)) seen then st
            else if test (anchored (snd h)) line
                 then (hl ++ [{| key := fst h; lineIndex := i |}],
                       fst h :: seen)
                 else st)
         L st).
Proof.
  intros lines i line L; induction L as [|[k r] L IH]; intros done st Hl HL H.
  - simpl. rewrite app_nil_r. exact H.
  - simpl fold_left. simpl map.
    replace (done ++ k :: map fst L) with ((done ++ [k]) ++ map fst L)
      by (rewrite <- app_assoc; reflexivity).
    apply IH; [exact Hl | intros k' r' Hin; apply HL; right; exact Hin |].
    apply (scanInv_step lines i line k r done st Hl).
    + apply headerLabels_label. apply HL. left. reflexivity.
    + exact H.
Qed.

Lemma scanLabels_inv :
  forall (lines : list str) (i : nat) (line : str) (st : scanState),
    get lines i = Some line ->
    scanInv lines i None [] st ->
    scanInv lines (S i) None [] (scanLabels line i st).
Proof.
  intros lines i line st Hl (Hseen & Hnd & Hhit & Hmiss & Hasc).
  assert (H0 : scanInv lines i (Some line) [] st).
  { repeat split; try assumption; try apply Hseen;
      try (apply Hhit; assumption).
    - apply Hmiss. assumption.
    - intros []. }
  pose proof (scanLabels_fold_inv lines i line headerLabels [] st Hl
                (fun k r H => H) H0) as H1.
  fold (scanLabels line i st) in H1. simpl app in H1.
  destruct H1 as (Hseen' & Hnd' & Hhit' & Hmiss' & Hasc').
  split; [exact Hseen'|]. split; [exact Hnd'|]. split; [|split].
  - intros h Hh. destruct (Hhit' h Hh) as (Hle & Hex & Hfirst).
    split; [lia|]. split; assumption.
  - intros k Hk. split; [|intros []].
    intros j l Hj El. destruct (Hmiss' k Hk) as [Hbefore Hhere].
    destruct (Nat.eq_dec j i) as [->|Hne].
    + destruct (isLabelLine k l) eqn:E; [|reflexivity].
      rewrite <- E. apply Hhere.
      * apply (isLabelLine_key k l E).
      * congruence.
    + apply (Hbefore j l); [lia | exact El].
  - exact Hasc'.
Qed.

Lemma skipn_cons_get :
  forall (A : Type) (l : list A) (i : nat) (x : A) (rest : list A),
    skipn i l = x :: rest -> get l i = Some x /\ skipn (S i) l = rest.
Proof.
  intros A l; induction l as [|a l IH]; intros i x rest H.
  - destruct i; discriminate.
  - destruct i as [|i]; simpl in H.
    + injection H as -> ->. split; reflexivity.
    + apply IH in H. exact H.
Qed.

Lemma scanLines_inv :
  forall (lines suffix : list str) (i : nat) (st : scanState),
    skipn i lines = suffix ->
    scanInv lines i None [] st ->
    scanInv lines (i + length suffix) None [] (scanLines suffix i st).
Proof.
  intros lines suffix; induction suffix as [|line rest IH]; intros i st Hs H.
  - simpl. rewrite Nat.add_0_r. exact H.
  - simpl scanLines. simpl length.
    destruct (skipn_cons_get _ lines i line rest Hs) as [Hl Hrest].
    replace (i + S (length rest)) with (S i + length rest) by lia.
    apply IH; [exact Hrest|]. apply scanLabels_inv; assumption.
Qed.

Lemma sortByLine_ascending :
  forall hl : list HeaderLine, ascending hl -> sortByLine hl = hl.
Proof.
  unfold ascending. intros hl H; induction H as [|a l Hl IH Ha].
  - reflexivity.
  - simpl. rewrite IH. destruct l as [|b l']; [reflexivity|].
    simpl. inversion Ha as [|? ? Hab _]; subst.
    apply Nat.leb_le in Hab. rewrite Hab. reflexivity.
Qed.

(** The header lines the segmenter works with: what the scan found and the
    sort left as it was. *)
Lemma findHeaderLines_inv :
  forall lines : list str,
    exists seen,
      scanInv lines (length lines) None []
        (findHeaderLines lines, seen).
Proof.
  intros lines.
  pose proof (scanLines_inv lines lines 0 ([], []) eq_refl) as H.
  simpl in H.
  assert (H0 : scanInv lines 0 None [] ([], [])).
  { unfold scanInv; simpl.
    repeat split; try tauto; try constructor; intros; try lia;
      try contradiction. }
  specialize (H H0). unfold findHeaderLines.
  destruct (scanLines lines 0 ([], [])) as [hl seen] eqn:E.
  exists seen. simpl fst.
  destruct H as (Hseen & Hnd & Hhit & Hmiss & Hasc). simpl in Hasc.
  rewrite (sortByLine_ascending hl Hasc).
  repeat split; try assumption; try apply Hseen; try (apply Hhit; assumption).
  - apply Hmiss. assumption.
  - intros [].
Qed.







(* ===================================================================== *)
(** ** What a successful run of the matcher means *)
(* ===================================================================== *)

Lemma starLoop_sound :
  forall (R : Type) (a : re),
    (forall p s c (k : cont R) v,
        run a p s c k = Some v ->
        exists p' s' c', matches a p s c p' s' c' /\ k p' s' c' = Some v) ->
    forall fuel p s c (k : cont R) v,
      starLoop (run (R := R) a) fuel p s c k = Some v ->
      exists p' s' c', matches (Star a) p s c p' s' c' /\ k p' s' c' = Some v.
Proof.
  intros R a Ha fuel; induction fuel as [|f IH]; intros p s c k v H.
  - simpl in H. exists p, s, c. split; [apply MStarStop | exact H].
  - simpl in H.
    destruct (run a p s c
                (fun p' s' c' =>
                   if length s' <? length s
                   then starLoop (run (R := R) a) f p' s' c' k else None))
      as [v'|] eqn:E.
    + injection H as ->.
      destruct (Ha _ _ _ _ _ E) as (p1 & s1 & c1 & Hm & Hk).
      destruct (length s1 <? length s) eqn:El; [|discriminate].
      apply Nat.ltb_lt in El.
      destruct (IH _ _ _ _ _ Hk) as (p2 & s2 & c2 & Hm2 & Hk2).
      exists p2, s2, c2. split; [|exact Hk2].
      apply (MStarStep a p s c p1 s1 c1 p2 s2 c2); assumption.
    + exists p, s, c. split; [apply MStarStop | exact H].
Qed.

(** Whenever the matcher succeeds, the continuation was entered at a state
    the pattern can reach. *)
Lemma run_sound :
  forall (R : Type) (r : re) p s c (k : cont R) v,
    run r p s c k = Some v ->
    exists p' s' c', matches r p s c p' s' c' /\ k p' s' c' = Some v.
Proof.
  intros R r; induction r as [|q|a IHa b IHb|a IHa b IHb|a IHa|n a IHa| | |];
    intros p s c k v H; cbn [run] in H.
  - exists p, s, c. split; [apply MEps | exact H].
  - destruct s as [|x t]; [discriminate|].
    destruct (q x) eqn:E; [|discriminate].
    exists (Some x), t, c. split; [apply MCls; exact E | exact H].
  - destruct (IHa _ _ _ _ _ H) as (p1 & s1 & c1 & Hm1 & H1).
    destruct (IHb _ _ _ _ _ H1) as (p2 & s2 & c2 & Hm2 & H2).
    exists p2, s2, c2. split; [|exact H2].
    apply (MCat a b p s c p1 s1 c1 p2 s2 c2); assumption.
  - destruct (run a p s c k) as [v'|] eqn:E.
    + injection H as ->.
      destruct (IHa _ _ _ _ _ E) as (p1 & s1 & c1 & Hm & Hk).
      exists p1, s1, c1. split; [apply MAltL; exact Hm | exact Hk].
    + destruct (IHb _ _ _ _ _ H) as (p1 & s1 & c1 & Hm & Hk).
      exists p1, s1, c1. split; [apply MAltR; exact Hm | exact Hk].
  - apply (starLoop_sound R a IHa _ _ _ _ _ _ H).
  - destruct (IHa _ _ _ _ _ H) as (p1 & s1 & c1 & Hm & Hk).
    eexists _, _, _. split; [apply MGroup; exact Hm | exact Hk].
  - destruct p; [discriminate|].
    exists None, s, c. split; [apply MBol | exact H].
  - destruct s; [|discriminate].
    exists p, [], c. split; [apply MEol | exact H].
  - destruct (atWordBoundary p s) eqn:E; [|discriminate].
    exists p, s, c. split; [apply MWordB; exact E | exact H].
Qed.

Lemma lastOr_nil : forall p, lastOr p [] = p.
Proof. reflexivity. Qed.

Lemma lastOr_snoc : forall p pre x, lastOr p (pre ++ [x]) = Some x.
Proof. intros p pre x. unfold lastOr. rewrite rev_app_distr. reflexivity. Qed.

Lemma lastOr_app :
  forall p a b, lastOr p (a ++ b) = lastOr (lastOr p a) b.
Proof.
  intros p a b. destruct b as [|x b] using rev_ind.
  - rewrite app_nil_r. reflexivity.
  - rewrite app_assoc, !lastOr_snoc. reflexivity.
Qed.

Lemma lastOr_cons : forall p x t, lastOr p (x :: t) = lastOr (Some x) t.
Proof. intros p x t. apply (lastOr_app p [x] t). Qed.

(** What a pattern consumes is a prefix of the input, and the unit it
    leaves behind is the last one of that prefix. *)
Lemma matches_prefix :
  forall r p s c p' s' c',
    matches r p s c p' s' c' ->
    exists pre, s = pre ++ s' /\ p' = lastOr p pre.
Proof.
  intros r p s c p' s' c' H; induction H.
  - exists []. split; reflexivity.
  - exists [x]. split; reflexivity.
  - destruct IHmatches1 as (pre1 & -> & ->).
    destruct IHmatches2 as (pre2 & -> & ->).
    exists (pre1 ++ pre2). rewrite app_assoc, lastOr_app. split; reflexivity.
  - exact IHmatches.
  - exact IHmatches.
  - exists []. split; reflexivity.
  - destruct IHmatches1 as (pre1 & -> & ->).
    destruct IHmatches2 as (pre2 & -> & ->).
    exists (pre1 ++ pre2). rewrite app_assoc, lastOr_app. split; reflexivity.
  - exact IHmatches.
  - exists []. split; reflexivity.
  - exists []. split; reflexivity.
  - exists []. split; reflexivity.
Qed.

(** The units consumed by a pattern all of whose atoms satisfy [P]. *)
Lemma matches_consumed :
  forall (P : char -> bool) r p s c p' s' c',
    matches r p s c p' s' c' -> clsAll P r ->
    exists pre, s = pre ++ s' /\ forallb P pre = true.
Proof.
  intros P r p s c p' s' c' H; induction H; intros HP; simpl in HP.
  - exists []. split; reflexivity.
  - exists [x]. split; [reflexivity|]. simpl. rewrite (HP x H). reflexivity.
  - destruct HP as [Ha Hb].
    destruct (IHmatches1 Ha) as (pre1 & -> & H1).
    destruct (IHmatches2 Hb) as (pre2 & -> & H2).
    exists (pre1 ++ pre2). rewrite app_assoc, forallb_app, H1, H2.
    split; reflexivity.
  - apply IHmatches. apply HP.
  - apply IHmatches. apply HP.
  - exists []. split; reflexivity.
  - destruct (IHmatches1 HP) as (pre1 & -> & H1').
    destruct (IHmatches2 HP) as (pre2 & -> & H2').
    exists (pre1 ++ pre2). rewrite app_assoc, forallb_app, H1', H2'.
    split; reflexivity.
  - apply IHmatches. exact HP.
  - exists []. split; reflexivity.
  - exists []. split; reflexivity.
  - exists []. split; reflexivity.
Qed.

(** A pattern without groups leaves the captures as they were. *)
Lemma matches_caps :
  forall r p s c p' s' c',
    matches r p s c p' s' c' -> noGroup r -> c' = c.
Proof.
  intros r p s c p' s' c' H; induction H; intros HG; simpl in HG;
    try reflexivity.
  - destruct HG as [Ha Hb]. rewrite (IHmatches2 Hb). apply IHmatches1, Ha.
  - apply IHmatches, HG.
  - apply IHmatches, HG.
  - rewrite (IHmatches2 HG). apply IHmatches1, HG.
  - contradiction.
Qed.

(** A match found at a position. *)
Lemma execAt_sound :
  forall r prev s i h,
    execAt r prev s i = Some h ->
    index h = i
    /\ matched h = firstn (length s - length (after h)) s
    /\ exists p', matches r prev s [] p' (after h) (groups h).
Proof.
  intros r prev s i h H. unfold execAt in H.
  apply run_sound in H. destruct H as (p' & s' & c' & Hm & Hk).
  injection Hk as <-. simpl. split; [reflexivity|]. split; [reflexivity|].
  exists p'. exact Hm.
Qed.

(** The leftmost match: the text before it, and the match itself. *)
Lemma execFrom_sound :
  forall r s prev i h,
    execFrom r prev s i = Some h ->
    exists before rest p',
      s = before ++ rest
      /\ index h = i + length before
      /\ matched h = firstn (length rest - length (after h)) rest
      /\ matches r (lastOr prev before) rest [] p' (after h) (groups h).
Proof.
  intros r s; induction s as [|x t IH]; intros prev i h H; simpl in H.
  - destruct (execAt r prev [] i) as [h'|] eqn:E; [|discriminate].
    injection H as ->. apply execAt_sound in E.
    destruct E as (Hi & Hm & p' & Hp).
    exists [], [], p'. simpl. rewrite Nat.add_0_r. repeat split; assumption.
  - destruct (execAt r prev (x :: t) i) as [h'|] eqn:E.
    + injection H as ->. apply execAt_sound in E.
      destruct E as (Hi & Hm & p' & Hp).
      exists [], (x :: t), p'. simpl. rewrite Nat.add_0_r.
      repeat split; assumption.
    + destruct (IH _ _ _ H) as (before & rest & p' & -> & Hi & Hm & Hp).
      exists (x :: before), rest, p'. rewrite lastOr_cons. simpl.
      repeat split; try assumption. lia.
Qed.

Lemma test_sound :
  forall r s,
    test r s = true ->
    exists before rest p' s' c',
      s = before ++ rest
      /\ matches r (lastOr None before) rest [] p' s' c'.
Proof.
  intros r s H. unfold test, exec in H.
  destruct (execFrom r None s 0) as [h|] eqn:E; [|discriminate].
  destruct (execFrom_sound _ _ _ _ _ E) as (before & rest & p' & Hs & _ & _ & Hm).
  exists before, rest, p', (after h), (groups h). split; assumption.
Qed.

(* ===================================================================== *)
(** ** Trimming and splitting keep to the units of the input *)
(* ===================================================================== *)

Lemma dropWhile_In :
  forall (p : char -> bool) (s : str) (c : char),
    In c (dropWhile p s) -> In c s.
Proof.
  intros p s c; induction s as [|a s IH]; simpl; [tauto|].
  destruct (p a); [intros H; right; auto | simpl; tauto].
Qed.

Lemma trim_In : forall (s : str) (c : char), In c (trim s) -> In c s.
Proof.
  intros s c H. unfold trim, trimEnd, trimStart in H.
  apply in_rev in H. apply dropWhile_In in H. apply in_rev in H.
  apply dropWhile_In in H. exact H.
Qed.

Lemma trim_trimmed : forall s : str, trimmed (trim s).
Proof. intros s. apply trim_idem. Qed.

Lemma trimmed_head :
  forall (x : char) (t : str), trimmed (x :: t) -> isSpace x = false.
Proof.
  intros x t H. unfold trimmed in H.
  pose proof (trimStart_trim (x :: t)) as H1. rewrite H in H1.
  unfold trimStart in H1. simpl in H1.
  destruct (isSpace x) eqn:E; [|reflexivity].
  exfalso.
  destruct (dropWhile_suffix isSpace t) as (pre & Hp).
  assert (Hlen : length t = length pre + length (dropWhile isSpace t))
    by (rewrite Hp at 1; apply length_app).
  rewrite H1 in Hlen. simpl in Hlen. lia.
Qed.

Lemma trim_head_kept :
  forall (x : char) (t : str), isSpace x = false -> trim (x :: t) <> [].
Proof.
  intros x t H. unfold trim, trimStart. simpl. rewrite H.
  unfold trimEnd. intros E.
  apply (f_equal (@rev char)) in E. rewrite rev_involutive in E.
  simpl in E.
  assert (Hall : forall (l : str), dropWhile isSpace (l ++ [x]) <> []).
  { induction l as [|a l IH]; simpl.
    - rewrite H. discriminate.
    - destruct (isSpace a); [exact IH | discriminate]. }
  apply (Hall (rev t)). exact E.
Qed.

Lemma splitOn_no_sep :
  forall (sep : char) (s piece : str),
    In piece (splitOn sep s) -> ~ In sep piece.
Proof.
  intros sep s; induction s as [|c s IH]; intros piece H; simpl in H.
  - destruct H as [<-|[]]. intros [].
  - destruct (c =? sep)%N eqn:E.
    + destruct H as [<-|H]; [intros [] | apply IH; exact H].
    + destruct (splitOn sep s) as [|h r] eqn:Es.
      * destruct H as [<-|[]]. intros [H|[]]. subst.
        rewrite N.eqb_refl in E. discriminate.
      * destruct H as [<-|H].
        -- intros [H|H]; [subst; rewrite N.eqb_refl in E; discriminate|].
           apply (IH h); [left; reflexivity | exact H].
        -- apply IH. right. exact H.
Qed.

(** The units of the pieces of a split are units of the input. *)
Lemma splitFrom_units :
  forall (r : re) (s : str) (prev : option char) (acc : str) (skip : nat)
         (piece : str) (c : char),
    In piece (splitFrom r prev s acc skip) -> In c piece ->
    In c acc \/ In c s.
Proof.
  intros r s; induction s as [|x t IH]; intros prev acc skip piece c Hp Hc;
    simpl in Hp.
  - destruct Hp as [<-|[]]. left. apply in_rev. exact Hc.
  - destruct skip as [|n].
    + destruct (execAt r prev (x :: t) 0) as [h|].
      * destruct (length (matched h)) as [|n]; [destruct acc as [|a acc']|].
        -- destruct (IH _ _ _ _ _ Hp Hc) as [[<-|[]]|H]; right; simpl; auto.
        -- destruct Hp as [<-|Hp]; [left; apply in_rev; exact Hc|].
           destruct (IH _ _ _ _ _ Hp Hc) as [[<-|[]]|H]; right; simpl; auto.
        -- destruct Hp as [<-|Hp]; [left; apply in_rev; exact Hc|].
           destruct (IH _ _ _ _ _ Hp Hc) as [[]|H]. right. simpl. auto.
      * destruct (IH _ _ _ _ _ Hp Hc) as [[<-|H]|H]; simpl; auto.
    + destruct (IH _ _ _ _ _ Hp Hc) as [H|H]; simpl; auto.
Qed.

Lemma split_units :
  forall (r : re) (s piece : str) (c : char),
    In piece (split r s) -> In c piece -> In c s.
Proof.
  intros r s piece c Hp Hc. unfold split in Hp. destruct s as [|x t].
  - destruct (execAt r None [] 0); [destruct Hp|].
    destruct Hp as [<-|[]]. destruct Hc.
  - destruct (splitFrom_units _ _ _ _ _ _ _ Hp Hc) as [[]|H]. exact H.
Qed.

Section UnitSeparator.

(** A separator pattern [r] that matches exactly one unit, and does so
    whenever that unit satisfies [q]. *)
Variable r : re.
Variable q : char -> bool.
Hypothesis sep_one :
  forall prev s h, execAt r prev s 0 = Some h -> length (matched h) = 1.
Hypothesis sep_all :
  forall prev x t, execAt r prev (x :: t) 0 = None -> q x = false.

Lemma splitFrom_unit_free :
  forall (s : str) (prev : option char) (acc piece : str) (c : char),
    (forall a, In a acc -> q a = false) ->
    In piece (splitFrom r prev s acc 0) -> In c piece -> q c = false.
Proof.
  induction s as [|x t IH]; intros prev acc piece c Hacc Hp Hc; simpl in Hp.
  - destruct Hp as [<-|[]]. apply Hacc. apply in_rev. exact Hc.
  - destruct (execAt r prev (x :: t) 0) as [h|] eqn:E.
    + rewrite (sep_one _ _ _ E) in Hp.
      destruct Hp as [<-|Hp]; [apply Hacc; apply in_rev; exact Hc|].
      apply (IH _ _ _ _ (fun a (H : In a []) => match H with end) Hp Hc).
    + apply (IH (Some x) (x :: acc) piece c); [|exact Hp|exact Hc].
      intros a [<-|Ha]; [apply (sep_all _ _ _ E) | apply Hacc; exact Ha].
Qed.

(** No piece of the split holds a separator. *)
Lemma split_unit_free :
  forall (s piece : str) (c : char),
    In piece (split r s) -> In c piece -> q c = false.
Proof.
  intros s piece c Hp Hc. unfold split in Hp. destruct s as [|x t].
  - destruct (execAt r None [] 0); [destruct Hp|].
    destruct Hp as [<-|[]]. destruct Hc.
  - apply (splitFrom_unit_free _ _ _ _ _
             (fun a (H : In a []) => match H with end) Hp Hc).
Qed.

End UnitSeparator.

Lemma firstn_consumed_one :
  forall (x : char) (t : str), firstn (length (x :: t) - length t) (x :: t) = [x].
Proof.
  intros x t. replace (length (x :: t) - length t) with 1; [reflexivity|].
  cbn [length]. lia.
Qed.

(** The separators of the program that are one unit long. *)
Lemma cls_sep_one :
  forall (q : char -> bool) prev s h,
    execAt (Cls q) prev s 0 = Some h -> length (matched h) = 1.
Proof.
  intros q prev s h H. apply execAt_sound in H.
  destruct H as (_ & Hm & p' & Hp). inversion Hp; subst.
  rewrite Hm, firstn_consumed_one. reflexivity.
Qed.

Lemma cls_sep_all :
  forall (q : char -> bool) prev x t,
    execAt (Cls q) prev (x :: t) 0 = None -> q x = false.
Proof.
  intros q prev x t H. unfold execAt in H. cbn [run] in H.
  destruct (q x); [discriminate | reflexivity].
Qed.

Lemma listSep_one :
  forall prev s h,
    execAt reListSep prev s 0 = Some h -> length (matched h) = 1.
Proof.
  intros prev s h H. apply execAt_sound in H.
  destruct H as (_ & Hm & p' & Hp).
  assert (Hs : exists x, s = x :: after h).
  { unfold reListSep in Hp. simpl in Hp.
    repeat match goal with
           | H : matches (Alt _ _) _ _ _ _ _ _ |- _ =>
               inversion H; subst; clear H
           | H : matches (Chr _) _ _ _ _ _ _ |- _ =>
               inversion H; subst; clear H
           end; eexists; reflexivity. }
  destruct Hs as (x & Hs). rewrite Hm, Hs, firstn_consumed_one. reflexivity.
Qed.

Lemma listSep_all :
  forall prev x t,
    execAt reListSep prev (x :: t) 0 = None -> isListSep x = false.
Proof.
  intros prev x t H. unfold isListSep.
  destruct (x =? 10)%N eqn:E1.
  { apply N.eqb_eq in E1. subst x. unfold execAt in H. simpl in H.
    discriminate. }
  destruct (x =? 8226)%N eqn:E2.
  { apply N.eqb_eq in E2. subst x. unfold execAt in H. simpl in H.
    discriminate. }
  destruct (x =? 45)%N eqn:E3.
  { apply N.eqb_eq in E3. subst x. unfold execAt in H. simpl in H.
    discriminate. }
  reflexivity.
Qed.

(* ===================================================================== *)
(** ** The list extractor and the lines of a section *)
(* ===================================================================== *)

(** X1: every item the list extractor returns is a non-empty, trimmed
    fragment that holds no line feed, no bullet and no hyphen, and that
    does not begin with the Skills label. *)
Theorem X1_list_items_clean :
  forall (section x : str),
    In x (extractList section) ->
    x <> [] /\ trimmed x
    /\ (forall c, In c x -> isListSep c = false)
    /\ test reSkillsLabel x = false.
Proof.
  intros section x H. unfold extractList in H.
  apply filter_In in H. destruct H as [H Hf].
  apply andb_true_iff in Hf. destruct Hf as [Hne Hlab].
  apply in_map_iff in H. destruct H as (y & <- & Hy).
  split; [destruct (trim y); [discriminate | discriminate]|].
  split; [apply trim_trimmed|]. split.
  - intros c Hc. apply trim_In in Hc.
    apply (split_unit_free reListSep isListSep listSep_one listSep_all
             section y c Hy Hc).
  - destruct (test reSkillsLabel (trim y)); [discriminate | reflexivity].
Qed.

Lemma X1_list_items_clean_witness :
  lit "Scrum" <> [] /\ trimmed (lit "Scrum")
  /\ (forall c, In c (lit "Scrum") -> isListSep c = false)
  /\ test reSkillsLabel (lit "Scrum") = false.
Proof.
  apply (X1_list_items_clean docCertifications (lit "Scrum")).
  vm_compute. right. left. reflexivity.
Defined.

(** The lines every extractor works on. *)
Lemma sectionLines_clean :
  forall (text l : str),
    In l (sectionLines text) -> l <> [] /\ trimmed l /\ ~ In NL l.
Proof.
  intros text l H.
  destruct (sectionLines_trimmed text l H) as [Ht Hne].
  split; [exact Hne|]. split; [exact Ht|].
  unfold sectionLines in H. apply filter_In in H. destruct H as [H _].
  apply in_map_iff in H. destruct H as (y & <- & Hy).
  intros Hc. apply trim_In in Hc. exact (splitOn_no_sep NL text y Hy Hc).
Qed.

(** X2: every line the segmenter returns for the header extractor is not
    empty, has no white space at either end and holds no line feed. *)
Theorem X2_lines_clean :
  forall (text : str) (p : Parsed) (l : str),
    parseSections text = Ok p ->
    In l (pLines p) ->
    l <> [] /\ trimmed l /\ ~ In NL l.
Proof.
  intros text p l Hp Hl. apply (sectionLines_clean text).
  unfold parseSections in Hp.
  destruct (fillSections _ _ _ _ _) as [sec| |]; try discriminate.
  cbn [bind] in Hp. injection Hp as <-. exact Hl.
Qed.

Lemma X2_lines_clean_witness :
  lit "Jane Doe" <> [] /\ trimmed (lit "Jane Doe") /\ ~ In NL (lit "Jane Doe").
Proof.
  eapply (X2_lines_clean docPlain).
  - vm_compute. reflexivity.
  - left. reflexivity.
Defined.

(* ===================================================================== *)
(** ** A document without section labels *)
(* ===================================================================== *)

Lemma findHeaderLines_none :
  forall lines : list str, noLabelLine lines -> findHeaderLines lines = [].
Proof.
  intros lines Hno.
  destruct (findHeaderLines_inv lines) as (seen & _ & _ & Hhit & _).
  simpl in Hhit.
  destruct (findHeaderLines lines) as [|h hl]; [reflexivity|].
  destruct (Hhit h (or_introl eq_refl)) as (_ & (l & Hl & Hm) & _).
  rewrite (Hno l (key h) (get_In _ _ _ _ Hl)) in Hm. discriminate.
Qed.

Lemma docPlain_noLabel : noLabelLine (map trim (splitOn NL docPlain)).
Proof.
  intros l k H. vm_compute in H.
  destruct H as [<-|[<-|[]]]; destruct k; vm_compute; reflexivity.
Qed.

Lemma parseSections_no_label :
  forall text : str,
    noLabelLine (map trim (splitOn NL text)) ->
    exists p,
      parseSections text = Ok p
      /\ pSections p = [(KHeader, trim (unlines (map trim (splitOn NL text))))]
      /\ forall k, k <> KHeader -> tableGet key_eqb k (pSections p) = None.
Proof.
  intros text Hno. unfold parseSections.
  set (lines := map trim (splitOn NL text)) in *.
  rewrite (findHeaderLines_none lines Hno). cbn [length fillSections bind].
  eexists. split; [reflexivity|]. cbn [pSections firstHeaderLine].
  unfold sectionText, sliceArr. rewrite Nat.sub_0_r. cbn [skipn].
  rewrite firstn_all. split; [reflexivity|].
  intros k Hk. cbn [tableGet].
  destruct (key_eqb k KHeader) eqn:E; [|reflexivity].
  apply key_eqb_eq in E. contradiction.
Qed.

(** X3: when no line of the text is a section label, the segmenter returns
    the header region alone, and that region is the whole text: its
    trimmed lines joined again and trimmed. *)
Theorem X3_no_label_header_only :
  forall text : str,
    let lines := map trim (splitOn NL text) in
    noLabelLine lines ->
    exists p,
      parseSections text = Ok p
      /\ pSections p = [(KHeader, trim (unlines lines))]
      /\ forall k, k <> KHeader -> tableGet key_eqb k (pSections p) = None.
Proof. intros text lines Hno. exact (parseSections_no_label text Hno). Qed.

Lemma X3_no_label_header_only_witness :
  exists p,
    parseSections docPlain = Ok p
    /\ pSections p
       = [(KHeader, trim (unlines (map trim (splitOn NL docPlain))))]
    /\ forall k, k <> KHeader -> tableGet key_eqb k (pSections p) = None.
Proof. exact (X3_no_label_header_only docPlain docPlain_noLabel). Defined.

Lemma extractors_on_empty :
  extractExperience [] = Ok []
  /\ extractProjects [] = Ok []
  /\ extractEducation [] = Ok []
  /\ extractSkills [] = []
  /\ extractList [] = [].
Proof. repeat split; vm_compute; reflexivity. Qed.

(** X4: the record of a text without section labels has no summary and
    empty skills, experience, projects, education and certifications:
    nothing but the name and the contact bundle comes from such a text. *)
Theorem X4_no_label_record :
  forall text : str,
    noLabelLine (map trim (splitOn NL text)) ->
    exists r,
      assemble text = Ok r
      /\ summary r = None
      /\ skills r = Some (SkillMap [])
      /\ experience r = Some []
      /\ projects r = Some []
      /\ education r = Some []
      /\ certifications r = Some [].
Proof.
  intros text Hno.
  destruct (parseSections_no_label text Hno) as (p & Hp & Hs & _).
  unfold assemble. rewrite Hp. cbn [bind]. rewrite Hs.
  unfold sectionOr. cbn [tableGet key_eqb orEmpty].
  destruct extractors_on_empty as (He & Hpr & Hed & Hsk & Hl).
  rewrite He, Hpr, Hed, Hsk, Hl. cbn [bind].
  eexists. split; [reflexivity|]. repeat split.
Qed.

Lemma X4_no_label_record_witness :
  exists r,
    assemble docPlain = Ok r
    /\ summary r = None
    /\ skills r = Some (SkillMap [])
    /\ experience r = Some []
    /\ projects r = Some []
    /\ education r = Some []
    /\ certifications r = Some [].
Proof. exact (X4_no_label_record docPlain docPlain_noLabel). Defined.

(* ===================================================================== *)
(** ** The shape of a skill line *)
(* ===================================================================== *)

Ltac inv H := inversion H; subst; clear H.

Lemma lastOr_none :
  forall pre : str, lastOr None pre = None -> pre = [].
Proof.
  intros pre H. destruct pre as [|x pre] using rev_ind; [reflexivity|].
  rewrite lastOr_snoc in H. discriminate.
Qed.

Lemma firstn_consumed :
  forall (pre s' : str),
    firstn (length (pre ++ s') - length s') (pre ++ s') = pre.
Proof.
  intros pre s'. rewrite length_app.
  replace (length pre + length s' - length s') with (length pre) by lia.
  rewrite firstn_app, Nat.sub_diag, firstn_all. simpl.
  apply app_nil_r.
Qed.

(** One or more units of a class. *)
Lemma matches_plus_cls :
  forall (q : char -> bool) p s c p' s' c',
    matches (Plus (Cls q)) p s c p' s' c' ->
    exists x pre,
      s = (x :: pre) ++ s' /\ forallb q (x :: pre) = true /\ c' = c.
Proof.
  intros q p s c p' s' c' H. unfold Plus in H. inv H.
  match goal with H : matches (Cls q) _ _ _ _ _ _ |- _ => inv H end.
  match goal with
  | H : matches (Star (Cls q)) _ _ _ _ _ _ |- _ =>
      destruct (matches_consumed q _ _ _ _ _ _ _ H (fun x Hx => Hx))
        as (pre & -> & Hpre);
      pose proof (matches_caps _ _ _ _ _ _ _ H I) as ->
  end.
  exists x, pre. simpl. split; [reflexivity|]. split; [|reflexivity].
  match goal with H : q x = true |- _ => rewrite H end. exact Hpre.
Qed.

(** Any number of units of a class. *)
Lemma matches_star_cls :
  forall (q : char -> bool) p s c p' s' c',
    matches (Star (Cls q)) p s c p' s' c' ->
    exists pre, s = pre ++ s' /\ forallb q pre = true /\ c' = c.
Proof.
  intros q p s c p' s' c' H.
  destruct (matches_consumed q _ _ _ _ _ _ _ H (fun x Hx => Hx))
    as (pre & -> & Hpre).
  exists pre. split; [reflexivity|]. split; [exact Hpre|].
  exact (matches_caps _ _ _ _ _ _ _ H I).
Qed.

(** A line the skill pattern accepts: a category of letters and spaces, a
    colon, white space, and the rest of the line, with the two groups
    holding the category and the rest. *)
Lemma skillLine_shape :
  forall (line : str) (m : hit),
    exec reSkillLine line = Some m ->
    exists cat ws rest,
      line = cat ++ [58%N] ++ ws ++ rest
      /\ cat <> []
      /\ forallb isCategoryUnit cat = true
      /\ forallb isSpace ws = true
      /\ capture 1 (groups m) = cat
      /\ capture 2 (groups m) = rest
      /\ forallb (fun c => negb (isLineTerminator c)) rest = true.
Proof.
  intros line m H. unfold exec in H.
  destruct (execFrom_sound _ _ _ _ _ H)
    as (before & rest0 & p' & Hs & _ & _ & Hm).
  generalize dependent (after m). generalize dependent (groups m).
  intros g a Hm. unfold reSkillLine in Hm. cbn [Seq] in Hm.
  inv Hm.
  match goal with H : matches Bol _ _ _ _ _ _ |- _ => inv H end.
  match goal with H : None = lastOr None _ |- _ =>
    symmetry in H; apply lastOr_none in H; subst before end.
  simpl app in *.
  match goal with H : matches (Cat (Group 1 _) _) _ _ _ _ _ _ |- _ => inv H end.
  match goal with H : matches (Group 1 _) _ _ _ _ _ _ |- _ => inv H end.
  match goal with
  | H : matches (Plus _) _ _ _ _ _ _ |- _ =>
      apply matches_plus_cls in H; destruct H as (x & pre & Hl & Hq & ->)
  end.
  match goal with H : matches (Cat (Chr 58) _) _ _ _ _ _ _ |- _ => inv H end.
  match goal with H : matches (Chr 58) _ _ _ _ _ _ |- _ => inv H end.
  match goal with H : matches (Cat (Star Space) _) _ _ _ _ _ _ |- _ => inv H end.
  match goal with
  | H : matches (Star Space) _ _ _ _ _ _ |- _ =>
      apply matches_star_cls in H; destruct H as (ws & Hw & Hwq & ->)
  end.
  match goal with H : matches (Cat (Group 2 _) _) _ _ _ _ _ _ |- _ => inv H end.
  match goal with H : matches (Group 2 _) _ _ _ _ _ _ |- _ => inv H end.
  match goal with H : matches Eol _ _ _ _ _ _ |- _ => inv H end.
  match goal with
  | H : matches (Star Dot) _ _ _ _ _ _ |- _ =>
      apply matches_star_cls in H; destruct H as (rest & Hr & Hdot & ->)
  end.
  match goal with H : (58 =? _)%N = true |- _ =>
    apply N.eqb_eq in H; subst end.
  exists (x :: pre), ws, rest.
  split; [rewrite app_nil_r; reflexivity|].
  split; [discriminate|]. split; [exact Hq|]. split; [exact Hwq|].
  unfold capture. cbn [find fst snd Nat.eqb].
  split; [apply firstn_consumed|]. split; [apply firstn_consumed | exact Hdot].
Qed.

(* ===================================================================== *)
(** ** What the skills extractor stores *)
(* ===================================================================== *)

Lemma forallb_In :
  forall (P : char -> bool) (l : str) (c : char),
    forallb P l = true -> In c l -> P c = true.
Proof. intros P l c H Hc. exact (proj1 (forallb_forall P l) H c Hc). Qed.

(** The category and tokens of a line that is trimmed and not empty. *)
Lemma skillEntry_clean :
  forall (line c : str) (toks : list str),
    line <> [] -> trimmed line ->
    skillEntry line = Some (c, toks) ->
    c <> [] /\ trimmed c
    /\ (forall u, In u c -> isCategoryUnit u = true)
    /\ In 58%N line
    /\ cleanTokens toks
    /\ (forall t u, In t toks -> In u t -> u <> 44%N /\ u <> 47%N).
Proof.
  intros line c toks Hne Htr H.
  destruct (skillEntry_tokens line c toks H) as (Hnd & m & Hm & -> & ->).
  destruct (skillLine_shape line m Hm)
    as (cat & ws & rest & Hl & Hcat & Hq & _ & H1 & _).
  rewrite H1.
  split.
  { destruct cat as [|x cat']; [contradiction|].
    apply trim_head_kept. rewrite Hl in Htr. simpl in Htr.
    exact (trimmed_head _ _ Htr). }
  split; [apply trim_trimmed|].
  split; [intros u Hu; apply trim_In in Hu; exact (forallb_In _ _ _ Hq Hu)|].
  split; [rewrite Hl; apply in_or_app; right; left; reflexivity|].
  assert (Hparts : forall t, In t (skillParts (trim (capture 2 (groups m)))) ->
            t <> [] /\ trimmed t
            /\ forall u, In u t -> u <> 44%N /\ u <> 47%N).
  { intros t Ht. unfold skillParts in Ht.
    apply filter_In in Ht. destruct Ht as [Ht Hn].
    apply in_map_iff in Ht. destruct Ht as (y & <- & Hy).
    split; [destruct (trim y); [discriminate | discriminate]|].
    split; [apply trim_trimmed|].
    intros u Hu. apply trim_In in Hu.
    apply in_flat_map in Hy. destruct Hy as (z & Hz & Hy).
    pose proof (split_units _ _ _ _ Hy Hu) as Huz.
    apply in_map_iff in Hz. destruct Hz as (w & <- & Hw).
    apply trim_In in Huz.
    pose proof (split_unit_free _ _ (cls_sep_one _) (cls_sep_all _)
                  _ _ _ Hw Huz) as Hsep.
    simpl in Hsep.
    split; intros ->; vm_compute in Hsep; discriminate. }
  split.
  - split; [exact Hnd|].
    intros x Hx. apply (proj1 (In_dedupe _ _)) in Hx.
    destruct (Hparts x Hx) as (A & B & _). split; assumption.
  - intros t u Ht Hu. apply (proj1 (In_dedupe _ _)) in Ht.
    destruct (Hparts t Ht) as (_ & _ & C). apply C. exact Hu.
Qed.

Lemma tableSet_keys_nodup :
  forall (k : str) (v : list str) (m : list (str * list str)),
    NoDup (map fst m) -> NoDup (map fst (tableSet str_eqb k v m)).
Proof.
  intros k v m H.
  destruct (tableGet str_eqb k m) as [w|] eqn:G.
  - rewrite (tableSet_keys_present _ _ str_eqb k v w m G). exact H.
  - rewrite (tableSet_fresh _ _ str_eqb k v m G), map_app. simpl.
    apply NoDup_snoc; [exact H|].
    apply (tableGet_none_notin _ _ str_eqb str_eqb_eq). exact G.
Qed.

(** Every entry of the object comes from a line of the section, and no
    category appears twice. *)
Lemma fold_skills_origin :
  forall (lines : list str) (tbl : list (str * list str)),
    NoDup (map fst tbl) ->
    NoDup (map fst (fold_left skillsStep lines tbl))
    /\ forall c toks,
         In (c, toks) (fold_left skillsStep lines tbl) ->
         In (c, toks) tbl
         \/ exists line, In line lines /\ skillEntry line = Some (c, toks).
Proof.
  induction lines as [|l lines IH]; intros tbl Hn; simpl.
  - split; [exact Hn | intros c toks H; left; exact H].
  - assert (Hn' : NoDup (map fst (skillsStep tbl l))).
    { unfold skillsStep. destruct (skillEntry l) as [[c t]|]; [|exact Hn].
      apply tableSet_keys_nodup. exact Hn. }
    destruct (IH _ Hn') as [Hd Ho]. split; [exact Hd|].
    intros c toks H. destruct (Ho c toks H) as [H1|(line & Hl & He)].
    + unfold skillsStep in H1.
      destruct (skillEntry l) as [[c' t']|] eqn:E; [|left; exact H1].
      apply (tableSet_in _ _ str_eqb str_eqb_eq) in H1.
      destruct H1 as [H1|H1]; [|left; exact H1].
      injection H1 as -> ->. right. exists l. split; [left; reflexivity|exact E].
    + right. exists line. split; [right; exact Hl | exact He].
Qed.


(** X6: every token list the skills extractor stores is free of
    repetitions and of empty tokens, and every token is trimmed and holds
    neither a comma nor a slash. *)
Theorem X6_skill_tokens :
  forall (section c : str) (toks : list str),
    In (c, toks) (extractSkills section) ->
    cleanTokens toks
    /\ forall t u, In t toks -> In u t -> u <> 44%N /\ u <> 47%N.
Proof.
  intros section c toks H. unfold extractSkills in H.
  destruct (fold_skills_origin (sectionLines section) [] (NoDup_nil _))
    as [_ Ho].
  destruct (Ho c toks H) as [[]|(line & Hl & He)].
  destruct (sectionLines_clean section line Hl) as (Hne & Htr & _).
  destruct (skillEntry_clean line c toks Hne Htr He) as (_ & _ & _ & _ & E & F).
  split; assumption.
Qed.

Lemma X6_skill_tokens_witness :
  cleanTokens [lit "AWS"; lit "GCP"]
  /\ forall t u, In t [lit "AWS"; lit "GCP"] -> In u t ->
                 u <> 44%N /\ u <> 47%N.
Proof.
  apply (X6_skill_tokens docSkills (lit "Cloud")).
  vm_compute. right. left. reflexivity.
Defined.

(** X7: a skills section none of whose lines holds a colon gives the empty
    object: lines that do not have the form of a skill line are skipped,
    and nothing stands in for them. *)
Theorem X7_skills_need_colon :
  forall section : str,
    (forall line, In line (sectionLines section) -> ~ In 58%N line) ->
    extractSkills section = [].
Proof.
  intros section H.
  destruct (extractSkills section) as [|[c toks] rest] eqn:E; [reflexivity|].
  exfalso. unfold extractSkills in E.
  destruct (fold_skills_origin (sectionLines section) [] (NoDup_nil _))
    as [_ Ho].
  destruct (Ho c toks) as [[]|(line & Hl & He)].
  { rewrite E. left. reflexivity. }
  destruct (sectionLines_clean section line Hl) as (Hne & Htr & _).
  destruct (skillEntry_clean line c toks Hne Htr He) as (_ & _ & _ & D & _).
  exact (H line Hl D).
Qed.

Lemma X7_skills_need_colon_witness : extractSkills docNoColon = [].
Proof.
  apply (X7_skills_need_colon docNoColon).
  intros line H. vm_compute in H.
  destruct H as [<-|[<-|[]]]; vm_compute; intuition discriminate.
Defined.

(* ===================================================================== *)
(** ** Replacing the runs of a class *)
(* ===================================================================== *)

Lemma run_cat_cls :
  forall (R : Type) (q : char -> bool) (b : re) p x t c (k : cont R),
    run (Cat (Cls q) b) p (x :: t) c k
    = if q x then run b (Some x) t c k else None.
Proof. reflexivity. Qed.

(** A run of one or more units of a class starts wherever a unit of the
    class stands, and is never empty. *)
Lemma plus_cls_miss :
  forall (q : char -> bool) prev x t,
    execAt (Plus (Cls q)) prev (x :: t) 0 = None -> q x = false.
Proof.
  intros q prev x t H. destruct (q x) eqn:E; [|reflexivity].
  exfalso. unfold execAt, Plus in H.
  rewrite run_cat_cls, E, run_star_unfold in H.
  destruct (run (Cls q) (Some x) t [] _); discriminate.
Qed.

Lemma plus_cls_hit :
  forall (q : char -> bool) prev s h,
    execAt (Plus (Cls q)) prev s 0 = Some h -> length (matched h) <> 0.
Proof.
  intros q prev s h H. apply execAt_sound in H.
  destruct H as (_ & Hm & p' & Hp).
  apply matches_plus_cls in Hp. destruct Hp as (x & pre & Hs & _ & _).
  rewrite Hm, Hs, firstn_consumed. discriminate.
Qed.

Section ReplaceRuns.

Variable r : re.
Variable q : char -> bool.
Variable rep : str.
Hypothesis run_hit :
  forall prev s h, execAt r prev s 0 = Some h -> length (matched h) <> 0.
Hypothesis run_miss :
  forall prev x t, execAt r prev (x :: t) 0 = None -> q x = false.

(** After the replacement every unit is one of the replacement text or a
    unit of the input outside the class. *)
Lemma replaceAllFrom_units :
  forall (s : str) (prev : option char) (skip : nat) (c : char),
    In c (replaceAllFrom r rep prev s skip) ->
    In c rep \/ (In c s /\ q c = false).
Proof.
  induction s as [|x t IH]; intros prev skip c H; simpl in H.
  - destruct skip; [|destruct H].
    destruct (execAt r prev [] 0); [left; exact H | destruct H].
  - destruct skip as [|n].
    + destruct (execAt r prev (x :: t) 0) as [h|] eqn:E.
      * pose proof (run_hit _ _ _ E) as Hl.
        destruct (length (matched h)) as [|n]; [contradiction|].
        apply in_app_or in H. destruct H as [H|H]; [left; exact H|].
        destruct (IH _ _ _ H) as [H1|[H1 H2]]; [left; exact H1|].
        right. split; [right; exact H1 | exact H2].
      * destruct H as [<-|H].
        -- right. split; [left; reflexivity | exact (run_miss _ _ _ E)].
        -- destruct (IH _ _ _ H) as [H1|[H1 H2]]; [left; exact H1|].
           right. split; [right; exact H1 | exact H2].
    + destruct (IH _ _ _ H) as [H1|[H1 H2]]; [left; exact H1|].
      right. split; [right; exact H1 | exact H2].
Qed.

End ReplaceRuns.

Lemma replaceAll_plus_units :
  forall (q : char -> bool) (rep s : str) (c : char),
    In c (replaceAll (Plus (Cls q)) rep s) ->
    In c rep \/ (In c s /\ q c = false).
Proof.
  intros q rep s c H. unfold replaceAll in H.
  exact (replaceAllFrom_units (Plus (Cls q)) q rep
           (plus_cls_hit q) (plus_cls_miss q) s None 0 c H).
Qed.

(* ===================================================================== *)
(** ** The key of a project *)
(* ===================================================================== *)

(** X8: the key under which a project is deduplicated is a trimmed string
    of small letters, digits and spaces only. *)
Theorem X8_key_alphabet :
  forall p : ProjectEntry,
    trimmed (normName p)
    /\ forall c, In c (normName p) ->
                 isLower c = true \/ isDigit c = true \/ c = SPACE.
Proof.
  intros p. split; [apply trim_trimmed|].
  intros c H. unfold normName in H. apply trim_In in H.
  unfold reNotAlnum in H. apply replaceAll_plus_units in H.
  destruct H as [[<-|[]]|[_ H]]; [right; right; reflexivity|].
  apply negb_false_iff, orb_true_iff in H. tauto.
Qed.

Lemma inRange_true :
  forall lo hi c : char, inRange lo hi c = true -> (lo <= c <= hi)%N.
Proof.
  intros lo hi c H. unfold inRange in H. apply andb_true_iff in H.
  destruct H as [H1 H2]. apply N.leb_le in H1. apply N.leb_le in H2.
  split; assumption.
Qed.

Lemma inRange_false :
  forall lo hi c : char, inRange lo hi c = false -> (c < lo \/ hi < c)%N.
Proof.
  intros lo hi c H. unfold inRange in H. apply andb_false_iff in H.
  destruct H as [H|H]; apply N.leb_gt in H; [left | right]; exact H.
Qed.

Lemma lowerUnit_case :
  forall x y : char, canonicalize x = canonicalize y -> lowerUnit x = lowerUnit y.
Proof.
  intros x y H. unfold canonicalize, lowerUnit, isLower, isUpper in *.
  destruct (inRange 97 122 x) eqn:A, (inRange 97 122 y) eqn:B;
    destruct (inRange 65 90 x) eqn:C, (inRange 65 90 y) eqn:D;
    destruct (x =? 8490)%N eqn:E1, (x =? 304)%N eqn:E2,
             (y =? 8490)%N eqn:F1, (y =? 304)%N eqn:F2;
    repeat match goal with
           | H : inRange _ _ _ = true |- _ => apply inRange_true in H
           | H : inRange _ _ _ = false |- _ => apply inRange_false in H
           | H : (_ =? _)%N = true |- _ => apply N.eqb_eq in H
           | H : (_ =? _)%N = false |- _ => apply N.eqb_neq in H
           end;
    try lia; try (f_equal; lia).
Qed.

Lemma toLowerCase_case :
  forall a b : str, sameIgnoringCase a b -> toLowerCase a = toLowerCase b.
Proof.
  unfold sameIgnoringCase, toLowerCase.
  induction a as [|x a IH]; destruct b as [|y b]; simpl; intros H;
    try discriminate; [reflexivity|].
  injection H as Hx Hr. rewrite (lowerUnit_case x y Hx), (IH b Hr).
  reflexivity.
Qed.

(** X9: two entries whose names differ only in the case of ASCII letters
    have the same key, so that deduplication keeps only one of them. *)
Theorem X9_key_ignores_case :
  forall (p q : ProjectEntry) (a b : str),
    name p = Some a -> name q = Some b -> sameIgnoringCase a b ->
    normName p = normName q
    /\ length (dedup [p; q]) = 1.
Proof.
  intros p q a b Hp Hq H.
  assert (Hk : normName p = normName q).
  { unfold normName. rewrite Hp, Hq. cbn [orEmpty].
    rewrite (toLowerCase_case a b H). reflexivity. }
  split; [exact Hk|].
  unfold dedup. cbn [fold_left]. unfold dedupStep at 2. cbn [tableGet tableSet].
  unfold dedupStep. cbn [tableGet]. rewrite <- Hk, str_eqb_refl.
  destruct (richness p <? richness q); cbn [tableSet];
    try rewrite str_eqb_refl; reflexivity.
Qed.

Lemma X9_key_ignores_case_witness :
  normName {| name := Some (lit "Demo App"); description := Some [];
              tech := Some []; link := None; bullets := Some [] |}
  = normName {| name := Some (lit "DEMO app"); description := Some (lit "x");
                tech := Some []; link := None; bullets := Some [] |}
  /\ length (dedup [ {| name := Some (lit "Demo App"); description := Some [];
                        tech := Some []; link := None; bullets := Some [] |};
                     {| name := Some (lit "DEMO app");
                        description := Some (lit "x");
                        tech := Some []; link := None; bullets := Some [] |} ])
     = 1.
Proof.
  apply (X9_key_ignores_case _ _ (lit "Demo App") (lit "DEMO app")).
  - reflexivity.
  - reflexivity.
  - vm_compute. reflexivity.
Defined.

(* ===================================================================== *)
(** ** The page: the phone link and the logos *)
(* ===================================================================== *)

(** X10: the phone link holds no white space, whatever the phone string. *)
Theorem X10_tel_no_space :
  forall (phone : str) (c : char), In c (telHref phone) -> isSpace c = false.
Proof.
  intros phone c H. unfold telHref in H. apply in_app_or in H.
  destruct H as [H|H].
  - vm_compute in H.
    repeat (destruct H as [<-|H]; [vm_compute; reflexivity|]). destruct H.
  - unfold reSpaces, Space in H. apply replaceAll_plus_units in H.
    destruct H as [[]|[_ H]]. exact H.
Qed.

Lemma X10_tel_no_space_witness : isSpace 53%N = false.
Proof.
  apply (X10_tel_no_space (lit "555 123 4567") 53%N).
  vm_compute. right. right. right. right. left. reflexivity.
Defined.

Lemma tableGet_of_key :
  forall (k : str) (m : list (str * str)),
    In k (map fst m) ->
    exists v, tableGet str_eqb k m = Some v /\ In v (map snd m).
Proof.
  intros k m H.
  destruct (tableGet str_eqb k m) as [v|] eqn:G.
  - exists v. split; [reflexivity|].
    apply (tableGet_in _ _ str_eqb str_eqb_eq) in G.
    apply (in_map snd) in G. exact G.
  - apply (tableGet_none_notin _ _ str_eqb str_eqb_eq) in G. contradiction.
Qed.

Lemma getLogo_defined :
  forall (logoMap : list (str * str)) (name : option str),
    exists path,
      getLogo logoMap name = Some path
      /\ (path = defaultLogo \/ In path (map snd logoMap)).
Proof.
  intros logoMap [[|x nm]|]; cbn [getLogo];
    try (exists defaultLogo; split; [reflexivity | left; reflexivity]).
  cbv zeta.
  destruct (findOrEmpty (fun k => startsWith k (logoName (x :: nm)))
              (map fst logoMap)) as [|y best] eqn:E; cbn [nonEmpty].
  - exists defaultLogo. split; [reflexivity | left; reflexivity].
  - unfold findOrEmpty in E.
    destruct (find _ (map fst logoMap)) as [k|] eqn:F; [|discriminate].
    subst k. apply find_some in F. destruct F as [F _].
    destruct (tableGet_of_key _ _ F) as (v & -> & Hv).
    exists v. split; [reflexivity | right; exact Hv].
Qed.

(** X11: the logo functions always return a path, never [undefined]: the
    default logo when the name is absent or empty, and otherwise the
    default logo or one of the logos of the table. *)
Theorem X11_logo_defined :
  forall name : option str,
    (exists path,
        getCompanyLogo name = Some path
        /\ (path = defaultLogo \/ In path (map snd companyLogoMap)))
    /\ (exists path,
          getSchoolLogo name = Some path
          /\ (path = defaultLogo \/ In path (map snd schoolLogoMap)))
    /\ getCompanyLogo None = Some defaultLogo
    /\ getCompanyLogo (Some []) = Some defaultLogo
    /\ getSchoolLogo None = Some defaultLogo
    /\ getSchoolLogo (Some []) = Some defaultLogo.
Proof.
  intros name.
  split; [apply getLogo_defined|]. split; [apply getLogo_defined|].
  repeat split.
Qed.

Lemma startsWith_comparable :
  forall a b s : str,
    startsWith a s = true -> startsWith b s = true ->
    startsWith a b = true \/ startsWith b a = true.
Proof.
  induction a as [|x a IH]; intros b s Ha Hb.
  - left. reflexivity.
  - destruct b as [|y b]; [right; reflexivity|].
    destruct s as [|z s]; [discriminate|]. simpl in Ha, Hb |- *.
    apply andb_true_iff in Ha. destruct Ha as [Ha1 Ha2].
    apply andb_true_iff in Hb. destruct Hb as [Hb1 Hb2].
    apply N.eqb_eq in Ha1. apply N.eqb_eq in Hb1. subst.
    rewrite N.eqb_refl. simpl. exact (IH b s Ha2 Hb2).
Qed.

(** No key of the company table begins another key. *)
Lemma companyKeys_prefix_free :
  forall a b : str,
    In a (map fst companyLogoMap) -> In b (map fst companyLogoMap) ->
    startsWith a b = true -> a = b.
Proof.
  assert (H : forallb
                (fun a => forallb
                            (fun b => implb (startsWith a b) (str_eqb a b))
                            (map fst companyLogoMap))
                (map fst companyLogoMap) = true)
    by (vm_compute; reflexivity).
  intros a b Ha Hb Hs.
  pose proof (proj1 (forallb_forall _ _) H a Ha) as H1. cbv beta in H1.
  pose proof (proj1 (forallb_forall _ _) H1 b Hb) as H2. cbv beta in H2.
  rewrite Hs in H2. simpl in H2. apply str_eqb_eq. exact H2.
Qed.

(** X12: a company whose normalized name begins with a key of the table
    gets the logo of that key; no name begins with two keys, so the order
    of the table plays no part. *)
Theorem X12_company_logo_by_prefix :
  forall (company k : str),
    company <> [] ->
    In k (map fst companyLogoMap) ->
    startsWith k (logoName company) = true ->
    getCompanyLogo (Some company) = tableGet str_eqb k companyLogoMap.
Proof.
  intros company k Hne Hk Hs.
  destruct company as [|x nm]; [contradiction|].
  unfold getCompanyLogo. cbn [getLogo]. cbv zeta.
  unfold findOrEmpty.
  destruct (find (fun k0 => startsWith k0 (logoName (x :: nm)))
              (map fst companyLogoMap)) as [k'|] eqn:F.
  - apply find_some in F. destruct F as [Hk' Hs'].
    assert (k' = k).
    { destruct (startsWith_comparable _ _ _ Hs' Hs) as [H|H].
      - exact (companyKeys_prefix_free _ _ Hk' Hk H).
      - symmetry. exact (companyKeys_prefix_free _ _ Hk Hk' H). }
    subst k'.
    assert (Hkne : nonEmpty k = true).
    { vm_compute in Hk.
      repeat (destruct Hk as [<-|Hk]; [reflexivity|]). destruct Hk. }
    rewrite Hkne. reflexivity.
  - exfalso. pose proof (find_none _ _ F k Hk) as H. cbv beta in H.
    congruence.
Qed.

Lemma X12_company_logo_by_prefix_witness :
  getCompanyLogo (Some (lit "Goldman Sachs & Co."))
  = tableGet str_eqb (lit "goldman sachs") companyLogoMap.
Proof.
  apply (X12_company_logo_by_prefix (lit "Goldman Sachs & Co.")
           (lit "goldman sachs")).
  - discriminate.
  - vm_compute. right. left. reflexivity.
  - vm_compute. reflexivity.
Defined.

(* ===================================================================== *)
(** ** The experience extractor, round by round *)
(* ===================================================================== *)

Lemma trimmed_nil : trimmed [].
Proof. reflexivity. Qed.

Lemma splitCompany_trimmed :
  forall line : str,
    trimmed line ->
    trimmed (fst (splitCompany line)) /\ trimmed (snd (splitCompany line)).
Proof.
  intros line H. unfold splitCompany.
  destruct (exec monthRe line); cbn [fst snd].
  - split; apply trim_trimmed.
  - split; [exact H | apply trimmed_nil].
Qed.

Lemma splitRole_trimmed :
  forall rl : str,
    trimmed (fst (splitRole rl)) /\ trimmed (snd (splitRole rl)).
Proof.
  intros rl. unfold splitRole.
  destruct (lastIndexOf COMMA rl =? -1)%Z; cbn [fst snd];
    split; try apply trim_trimmed; apply trimmed_nil.
Qed.

(** Past the last line the loop returns what it has. *)
Lemma experienceLoop_end :
  forall f lines i items,
    length lines <= i -> experienceLoop (S f) lines i items = Ok items.
Proof.
  intros f lines i items H. cbn [experienceLoop].
  destruct (i <? length lines) eqn:E; [|reflexivity].
  apply Nat.ltb_lt in E. lia.
Qed.

(** A line that is no heading is passed over. *)
Lemma experienceLoop_skip :
  forall f lines i items line,
    get lines i = Some line -> isHeadingLine line = false ->
    experienceLoop (S f) lines i items = experienceLoop f lines (i + 1) items.
Proof.
  intros f lines i items line Hl Hh. cbn [experienceLoop].
  assert (Hi : i < length lines)
    by (unfold get in Hl; apply nth_error_Some; congruence).
  apply Nat.ltb_lt in Hi. rewrite Hi, Hl. cbn [bind must].
  unfold isHeadingLine in Hh. rewrite Hh. reflexivity.
Qed.

(** The bullets: what is kept of a bullet line, and that no bullet is
    blank. *)
Lemma dropWhile_keeps :
  forall (p : char -> bool) (s : str) (c : char),
    In c s -> p c = false -> In c (dropWhile p s).
Proof.
  intros p s c; induction s as [|a s IH]; intros H Hp; simpl; [exact H|].
  destruct (p a) eqn:E; [|exact H].
  destruct H as [<-|H]; [congruence | exact (IH H Hp)].
Qed.

Lemma trimmed_trimEnd : forall s : str, trimmed s -> trimEnd s = s.
Proof.
  intros s H. unfold trimmed, trim in H. rewrite <- H at 1.
  rewrite trimEnd_idem. exact H.
Qed.

Lemma last_case :
  forall l : str, l = [] \/ exists l' x, l = l' ++ [x].
Proof.
  intros l. induction l as [|x l' _] using rev_ind.
  - left. reflexivity.
  - right. exists l', x. reflexivity.
Qed.

(** A trimmed string does not end with white space. *)
Lemma trimmed_last :
  forall (l : str) (x : char), trimmed (l ++ [x]) -> isSpace x = false.
Proof.
  intros l x H. apply trimmed_trimEnd in H. unfold trimEnd in H.
  rewrite rev_app_distr in H. cbn [rev app dropWhile] in H.
  destruct (isSpace x) eqn:E; [|reflexivity]. exfalso.
  destruct (dropWhile_suffix isSpace (rev l)) as (pre & Hp).
  apply (f_equal (@length char)) in H. apply (f_equal (@length char)) in Hp.
  rewrite ?length_rev, ?length_app in H, Hp.
  cbn [length] in H. lia.
Qed.

(** The end of a trimmed line, once the white space before it is dropped,
    is trimmed. *)
Lemma trimStart_of_suffix :
  forall (line a u : str),
    trimmed line -> line = a ++ u -> trimmed (trimStart u).
Proof.
  intros line a u Ht Hl. unfold trimmed, trim, trimStart.
  rewrite dropWhile_idem.
  destruct (dropWhile_suffix isSpace u) as (ws & Hu).
  destruct (last_case (dropWhile isSpace u)) as [Ev|(v' & x & Ev)];
    rewrite Ev in *.
  - reflexivity.
  - unfold trimEnd. rewrite rev_app_distr. cbn [rev app dropWhile].
    assert (Hx : isSpace x = false).
    { apply (trimmed_last (a ++ ws ++ v')).
      rewrite <- !app_assoc, <- Hu, <- Hl. exact Ht. }
    rewrite Hx. cbn [rev]. rewrite rev_involutive. reflexivity.
Qed.

Lemma run_cls :
  forall (R : Type) (q : char -> bool) p x t c (k : cont R),
    run (Cls q) p (x :: t) c k = if q x then k (Some x) t c else None.
Proof. reflexivity. Qed.

(** Repetition of a class is greedy: a search that succeeds after the
    longest run succeeds there. *)
Lemma run_star_cls_greedy :
  forall (R : Type) (q : char -> bool) (s : str) p c (k : cont R) (v : R),
    (forall p', k p' (dropWhile q s) c = Some v) ->
    run (Star (Cls q)) p s c k = Some v.
Proof.
  intros R q s; induction s as [|x t IH]; intros p c k v H;
    rewrite run_star_unfold.
  - cbn [run]. apply H.
  - rewrite run_cls. cbn [dropWhile] in H. destruct (q x).
    + assert (E : (length t <? length (x :: t)) = true)
        by (apply Nat.ltb_lt; simpl; lia).
      rewrite E. rewrite (IH (Some x) c k v H). reflexivity.
    + apply H.
Qed.

Lemma run_cat_bol :
  forall (R : Type) (b : re) s c (k : cont R),
    run (Cat Bol b) None s c k = run b None s c k.
Proof. reflexivity. Qed.

(** Removing the bullet and the white space after it. *)
Lemma bulletPrefix_strip :
  forall rest : str,
    replaceFirst reBulletPrefix [] (BULLET :: rest) = dropWhile isSpace rest.
Proof.
  intros rest. unfold replaceFirst, exec. cbn [execFrom].
  assert (E : execAt reBulletPrefix None (BULLET :: rest) 0
              = Some (Hit 0 (firstn (length (BULLET :: rest)
                                     - length (dropWhile isSpace rest))
                               (BULLET :: rest))
                        (dropWhile isSpace rest) [])).
  { unfold execAt, reBulletPrefix. cbn [Seq]. rewrite run_cat_bol.
    unfold Chr. rewrite run_cat_cls.
    change (8226 =? BULLET)%N with true. cbv iota.
    apply run_star_cls_greedy. intros p'. reflexivity. }
  rewrite E. reflexivity.
Qed.

Lemma bullet_text_clean :
  forall li : str,
    trimmed li -> startsWith [BULLET; SPACE] li = true ->
    replaceFirst reBulletPrefix [] li <> []
    /\ trimmed (replaceFirst reBulletPrefix [] li).
Proof.
  intros li Ht Hs.
  destruct li as [|b t]; [discriminate|].
  destruct t as [|sp rest]; cbn [startsWith] in Hs;
    [rewrite andb_false_r in Hs; discriminate|].
  apply andb_true_iff in Hs. destruct Hs as [Hb Hs].
  apply andb_true_iff in Hs. destruct Hs as [Hsp _].
  apply N.eqb_eq in Hb. apply N.eqb_eq in Hsp. subst b sp.
  rewrite bulletPrefix_strip. split.
  - destruct (last_case rest) as [->|(r' & x & ->)].
    + exfalso.
      pose proof (trimmed_last [BULLET] SPACE Ht) as E. discriminate.
    + pose proof (trimmed_last (BULLET :: SPACE :: r') x Ht) as Hx.
      assert (Hin : In x (dropWhile isSpace (SPACE :: r' ++ [x]))).
      { apply dropWhile_keeps; [|exact Hx].
        right. apply in_or_app. right. left. reflexivity. }
      intros E. rewrite E in Hin. destruct Hin.
  - exact (trimStart_of_suffix _ [BULLET] (SPACE :: rest) Ht eq_refl).
Qed.

Lemma setAt_In :
  forall (A : Type) (i : nat) (v x : A) (l : list A),
    In x (setAt i v l) -> x = v \/ In x l.
Proof.
  intros A i v x l; revert i; induction l as [|a l IH]; intros i H.
  - destruct i; destruct H.
  - destruct i as [|i]; simpl in H.
    + destruct H as [<-|H]; [left; reflexivity | right; right; exact H].
    + destruct H as [<-|H]; [right; left; reflexivity|].
      destruct (IH i H) as [->|H']; [left; reflexivity | right; right; exact H'].
Qed.

(** The bullets the inner loop collects are trimmed and not empty. *)
Lemma collectBullets_clean :
  forall (lines : list str),
    (forall i l, get lines i = Some l -> l <> [] /\ trimmed l) ->
    forall (fuel i : nat) (bs : list str) (i' : nat) (bs' : list str),
      (forall x, In x bs -> x <> [] /\ trimmed x) ->
      collectBullets fuel lines i bs = Ok (i', bs') ->
      forall x, In x bs' -> x <> [] /\ trimmed x.
Proof.
  intros lines Hl fuel; induction fuel as [|f IH];
    intros i bs i' bs' Hbs H; [discriminate|].
  cbn [collectBullets] in H.
  destruct (i <? length lines); [|injection H as <- <-; exact Hbs].
  destruct (get lines i) as [li|] eqn:Eli; [|discriminate].
  cbn [bind must] in H.
  destruct (Hl _ _ Eli) as [Hne Htr].
  assert (Hsnoc : forall y, y <> [] -> trimmed y ->
            forall x, In x (bs ++ [y]) -> x <> [] /\ trimmed x).
  { intros y Hy1 Hy2 x Hx. apply in_app_or in Hx.
    destruct Hx as [Hx|[<-|[]]]; [exact (Hbs x Hx) | split; assumption]. }
  destruct (test reYearOrPresent li); [injection H as <- <-; exact Hbs|].
  destruct (str_eqb li [BULLET] && (i + 1 <? length lines)).
  { destruct (get lines (i + 1)) as [bt|] eqn:Ebt; [|discriminate].
    cbn [bind must] in H. destruct (Hl _ _ Ebt) as [B1 B2].
    exact (IH _ _ _ _ (Hsnoc bt B1 B2) H). }
  destruct (startsWith [BULLET; SPACE] li) eqn:Es.
  { destruct (bullet_text_clean li Htr Es) as [B1 B2].
    exact (IH _ _ _ _ (Hsnoc _ B1 B2) H). }
  destruct (0 <? length bs).
  { destruct (get bs (length bs - 1)) as [lastB|] eqn:Elast; [|discriminate].
    cbn [bind must] in H. refine (IH _ _ _ _ _ H).
    intros x Hx. apply setAt_In in Hx. destruct Hx as [->|Hx]; [|exact (Hbs x Hx)].
    split; [|apply trim_trimmed].
    destruct (Hbs lastB (get_In _ _ _ _ Elast)) as [L1 L2].
    destruct lastB as [|c t]; [contradiction|].
    cbn [app]. apply trim_head_kept. exact (trimmed_head _ _ L2). }
  exact (IH _ _ _ _ (Hsnoc li Hne Htr) H).
Qed.

(** A heading opens one entry, and the cursor moves on. *)
Lemma experienceLoop_open :
  forall f (lines : list str) i items line,
    get lines i = Some line -> isHeadingLine line = true ->
    (forall j l, get lines j = Some l -> l <> [] /\ trimmed l) ->
    exists e i2,
      i < i2 /\ wellFormedExperience e
      /\ experienceLoop (S f) lines i items
         = experienceLoop f lines i2 (items ++ [e]).
Proof.
  intros f lines i items line Hl Hh Hall.
  assert (Ht : trimmed line) by (apply (Hall i); exact Hl).
  cbn [experienceLoop].
  assert (Hi : i < length lines)
    by (unfold get in Hl; apply nth_error_Some; congruence).
  pose proof Hi as Hi'. apply Nat.ltb_lt in Hi'. rewrite Hi', Hl.
  cbn [bind must]. unfold isHeadingLine in Hh. rewrite Hh.
  destruct (splitCompany_trimmed line Ht) as [Hc Hd].
  destruct (splitCompany line) as [comp dur]. cbn [fst snd] in Hc, Hd.
  assert (Hnext :
    exists rolo i1,
      (if i + 1 <? length lines
       then rl <- must (get lines (i + 1)) ;; Ok (splitRole rl, i + 2)
       else Ok (([], []), i + 1)) = Ok (rolo, i1)
      /\ i < i1 /\ trimmed (fst rolo) /\ trimmed (snd rolo)).
  { destruct (i + 1 <? length lines) eqn:En.
    - apply Nat.ltb_lt in En.
      destruct (get_in_range _ lines (i + 1) En) as (rl & ->).
      cbn [bind must]. exists (splitRole rl), (i + 2).
      destruct (splitRole_trimmed rl) as [A B].
      split; [reflexivity|]. split; [lia|]. split; assumption.
    - exists ([], []), (i + 1). split; [reflexivity|]. split; [lia|].
      split; apply trimmed_nil. }
  destruct Hnext as (rolo & i1 & -> & Hi1 & Hr & Hlo). cbn [bind].
  destruct (collectBullets_total (S (length lines)) lines i1 [])
    as (i2 & bs & Ebs & Hi2); [lia|].
  rewrite Ebs.
  cbn [bind]. eexists _, i2. split; [lia|]. split; [|reflexivity].
  unfold wellFormedExperience. cbn.
  exists comp, (fst rolo), dur, (snd rolo), bs.
  repeat (split; [first [reflexivity | assumption]|]).
  apply (collectBullets_clean lines Hall _ _ _ _ _ (fun x (H : In x []) => match H with end) Ebs).
Qed.

Lemma filter_none :
  forall (A : Type) (f : A -> bool) (l : list A),
    (forall x, In x l -> f x = false) -> filter f l = [].
Proof.
  intros A f l; induction l as [|a l IH]; intros H; simpl; [reflexivity|].
  rewrite (H a (or_introl eq_refl)). apply IH.
  intros x Hx. apply H. right. exact Hx.
Qed.

Lemma lines_all_clean :
  forall (section : str) (i : nat) (l : str),
    get (sectionLines section) i = Some l -> l <> [] /\ trimmed l.
Proof.
  intros section i l H. apply get_In in H.
  destruct (sectionLines_clean section l H) as (A & B & _).
  split; assumption.
Qed.

Section ExperienceLoop.

Variable lines : list str.
Hypothesis lines_clean :
  forall i l, get lines i = Some l -> l <> [] /\ trimmed l.

Lemma experienceLoop_extends :
  forall fuel i items r,
    experienceLoop fuel lines i items = Ok r ->
    exists more,
      r = items ++ more /\ Forall wellFormedExperience more
      /\ length more <= countIf isHeadingLine (skipn i lines).
Proof.
  induction fuel as [|f IH]; intros i items r H.
  - discriminate.
  - destruct (get lines i) as [line|] eqn:El.
    + assert (Hsk : skipn i lines = line :: skipn (S i) lines).
      { clear - El. revert i El. induction lines as [|a l IHl]; intros i El.
        - destruct i; discriminate.
        - destruct i as [|i]; simpl in *.
          + injection El as ->. reflexivity.
          + apply IHl. exact El. }
      destruct (isHeadingLine line) eqn:Eh.
      * destruct (experienceLoop_open f lines i items line El Eh
                    lines_clean) as (e & i2 & Hi & He & Heq).
        rewrite Heq in H. destruct (IH _ _ _ H) as (more & -> & Hm & Hc).
        exists (e :: more). rewrite <- app_assoc. split; [reflexivity|].
        split; [constructor; assumption|].
        rewrite Hsk. unfold countIf in *. cbn [filter]. rewrite Eh.
        cbn [length].
        assert (Hmono : length (filter isHeadingLine (skipn i2 lines))
                        <= length (filter isHeadingLine (skipn (S i) lines))).
        { replace i2 with ((i2 - S i) + S i) by lia.
          rewrite <- skipn_skipn.
          rewrite (filter_firstn_skipn _ isHeadingLine (i2 - S i)
                     (skipn (S i) lines)).
          rewrite length_app. lia. }
        lia.
      * rewrite (experienceLoop_skip f lines i items line El Eh) in H.
        destruct (IH _ _ _ H) as (more & -> & Hm & Hc).
        exists more. split; [reflexivity|]. split; [exact Hm|].
        rewrite Hsk. unfold countIf in *. cbn [filter]. rewrite Eh.
        replace (S i) with (i + 1) by lia. exact Hc.
    + rewrite experienceLoop_end in H.
      * injection H as <-. exists []. rewrite app_nil_r.
        split; [reflexivity|]. split; [constructor | apply Nat.le_0_l].
      * unfold get in El. apply nth_error_None. exact El.
Qed.

Lemma experienceLoop_finds :
  forall fuel i items j l,
    length lines - i < fuel -> i <= j ->
    get lines j = Some l -> isHeadingLine l = true ->
    exists r, experienceLoop fuel lines i items = Ok r /\ length items < length r.
Proof.
  induction fuel as [|f IH]; intros i items j l Hf Hij Hl Hh.
  - lia.
  - assert (Hj : j < length lines)
      by (unfold get in Hl; apply nth_error_Some; congruence).
    destruct (get_in_range _ lines i) as (line & El); [lia|].
    destruct (isHeadingLine line) eqn:Eh.
    + destruct (experienceLoop_open f lines i items line El Eh
                  lines_clean) as (e & i2 & Hi & He & Heq).
      rewrite Heq.
      destruct (experienceLoop_total f lines i2 (items ++ [e])) as (r & Hr);
        [lia|].
      exists r. split; [exact Hr|].
      destruct (experienceLoop_extends _ _ _ _ Hr) as (more & -> & _).
      rewrite !length_app. simpl. lia.
    + rewrite (experienceLoop_skip f lines i items line El Eh).
      assert (i <> j) by (intros ->; congruence).
      apply (IH (i + 1) items j l); [lia | lia | exact Hl | exact Hh].
Qed.

End ExperienceLoop.

(** X13: the experience extractor returns no entry exactly when no line of
    the section is a heading (a line with a year or the word Present, and
    a letter). *)
Theorem X13_experience_empty_iff :
  forall section : str,
    exists r,
      extractExperience section = Ok r
      /\ (r = [] <->
          forall l, In l (sectionLines section) -> isHeadingLine l = false).
Proof.
  intros section. destruct (extractExperience_total section) as (r & Hr).
  exists r. split; [exact Hr|]. unfold extractExperience in Hr. split.
  - intros -> l Hl. destruct (isHeadingLine l) eqn:E; [|reflexivity].
    exfalso. apply In_nth_error in Hl. destruct Hl as (j & Hj).
    destruct (experienceLoop_finds (sectionLines section)
                (lines_all_clean section)
                (S (length (sectionLines section))) 0 [] j l)
      as (r & Hr' & Hlen); [lia | lia | exact Hj | exact E |].
    rewrite Hr in Hr'. injection Hr' as <-. simpl in Hlen. lia.
  - intros Hno.
    destruct (experienceLoop_extends (sectionLines section)
                (lines_all_clean section) _ _ _ _ Hr)
      as (more & -> & _ & Hc).
    simpl in Hc |- *. unfold countIf in Hc.
    assert (Hz : filter isHeadingLine (sectionLines section) = []).
    { apply filter_none. exact Hno. }
    rewrite Hz in Hc. destruct more; [reflexivity | simpl in Hc; lia].
Qed.

(** X14: the experience extractor returns at most one entry for each
    heading line of the section, and every entry has its company, role,
    duration, location and bullets present, the four text fields trimmed,
    and every bullet trimmed and not empty. *)
Theorem X14_experience_entries :
  forall section : str,
    exists r,
      extractExperience section = Ok r
      /\ length r <= countIf isHeadingLine (sectionLines section)
      /\ Forall wellFormedExperience r.
Proof.
  intros section. destruct (extractExperience_total section) as (r & Hr).
  exists r. split; [exact Hr|]. unfold extractExperience in Hr.
  destruct (experienceLoop_extends (sectionLines section)
              (lines_all_clean section) _ _ _ _ Hr)
    as (more & -> & Hm & Hc).
  split; [exact Hc | exact Hm].
Qed.

(* ===================================================================== *)
(** ** The project extractor keeps its entries well formed *)
(* ===================================================================== *)

Lemma techParts_clean :
  forall (raw t : str),
    In t (techParts raw) ->
    t <> [] /\ trimmed t /\ forall u, In u t -> isTechSep u = false.
Proof.
  intros raw t H. unfold techParts in H.
  apply filter_In in H. destruct H as [H Hn].
  apply in_map_iff in H. destruct H as (y & <- & Hy).
  split; [destruct (trim _); [discriminate | discriminate]|].
  split; [apply trim_trimmed|].
  intros u Hu. apply trim_In in Hu.
  unfold replaceAll, reParen, OneOf in Hu.
  apply (replaceAllFrom_units _ _ []
           (fun prev s h H =>
              eq_ind_r (fun n => n <> 0) (Nat.neq_succ_0 0)
                       (cls_sep_one _ prev s h H))
           (cls_sep_all _)) in Hu.
  destruct Hu as [[]|[Hu Hp]].
  apply in_flat_map in Hy. destruct Hy as (z & Hz & Hy).
  pose proof (split_units _ _ _ _ Hy Hu) as Huz.
  apply in_map_iff in Hz. destruct Hz as (w & <- & Hw).
  apply trim_In in Huz.
  pose proof (split_unit_free _ _ (cls_sep_one _) (cls_sep_all _)
                _ _ _ Hw Huz) as Hsep.
  unfold isTechSep. cbn [lit list_ascii_of_string map existsb] in *.
  cbn in Hp, Hsep |- *.
  apply orb_false_iff in Hp. destruct Hp as [P1 P2].
  apply orb_false_iff in P2. destruct P2 as [P2 _].
  apply orb_false_iff in Hsep. destruct Hsep as [S1 S2].
  apply orb_false_iff in S2. destruct S2 as [S2 S3].
  apply orb_false_iff in S3. destruct S3 as [S3 _].
  rewrite P1, P2, S1, S2, S3. reflexivity.
Qed.

Lemma wellFormed_fresh :
  forall n : str,
    wellFormedProject {| name := Some n; description := Some [];
                         tech := Some []; link := None; bullets := Some [] |}.
Proof.
  intros n. exists n, [], [], []. cbn. repeat split; try constructor.
  - destruct H.
  - destruct H.
  - intros x u [].
Qed.

Lemma ensureCurrent_wf :
  forall cur p,
    (forall p0, cur = Some p0 -> wellFormedProject p0) ->
    ensureCurrent cur = Some p -> wellFormedProject p.
Proof.
  intros [p0|] p H E; simpl in E; injection E as <-.
  - apply H. reflexivity.
  - apply wellFormed_fresh.
Qed.

Lemma withLink_wf :
  forall p l, wellFormedProject p -> wellFormedProject (withLink p l).
Proof.
  intros p l (n & d & t & b & Hn & Hd & Ht & Hb & Hc & Hs).
  exists n, d, t, b. cbn.
  repeat (split; [first [assumption | reflexivity]|]). assumption.
Qed.

Lemma withBullets_wf :
  forall p bs, wellFormedProject p -> wellFormedProject (withBullets p bs).
Proof.
  intros p bs (n & d & t & b & Hn & Hd & Ht & Hb & Hc & Hs).
  exists n, d, t, bs. cbn.
  repeat (split; [first [assumption | reflexivity]|]). assumption.
Qed.

Lemma withDescription_wf :
  forall p ds, wellFormedProject p -> wellFormedProject (withDescription p ds).
Proof.
  intros p ds (n & d & t & b & Hn & Hd & Ht & Hb & Hc & Hs).
  exists n, ds, t, b. cbn.
  repeat (split; [first [assumption | reflexivity]|]). assumption.
Qed.

Lemma addTech_wf :
  forall raw cur cur' p,
    (forall p0, cur = Some p0 -> wellFormedProject p0) ->
    addTech raw cur = Ok cur' -> cur' = Some p -> wellFormedProject p.
Proof.
  intros raw cur cur' p H E Ep. unfold addTech in E.
  destruct (ensureCurrent cur) as [p0|] eqn:E0; [|discriminate].
  cbn [bind must] in E. injection E as <-. injection Ep as <-.
  destruct (ensureCurrent_wf cur p0 H E0)
    as (n & d & t & b & Hn & Hd & Ht & Hb & [Hnd Hc] & Hs).
  exists n, d, (dedupe (orNil (tech p0) ++ techParts raw)), b. cbn.
  split; [exact Hn|]. split; [exact Hd|]. split; [reflexivity|].
  split; [exact Hb|]. rewrite Ht. cbn [orNil].
  assert (Hin : forall x, In x (dedupe (t ++ techParts raw)) ->
                          In x t \/ In x (techParts raw)).
  { intros x Hx. apply (proj1 (In_dedupe _ _)) in Hx.
    apply in_app_or. exact Hx. }
  split; [split|].
  - apply NoDup_dedupe.
  - intros x Hx. destruct (Hin x Hx) as [H1|H1]; [apply Hc; exact H1|].
    destruct (techParts_clean raw x H1) as (A & B & _). split; assumption.
  - intros x u Hx Hu. destruct (Hin x Hx) as [H1|H1].
    + exact (Hs x u H1 Hu).
    + destruct (techParts_clean raw x H1) as (_ & _ & C). exact (C u Hu).
Qed.

Lemma pushCurrent_wf :
  forall st, wellFormedState st -> Forall wellFormedProject (pushCurrent st).
Proof.
  intros st [Hi Hc]. unfold pushCurrent. apply Forall_app. split; [exact Hi|].
  destruct (current st) as [p|]; simpl; [|constructor].
  constructor; [apply Hc; reflexivity | constructor].
Qed.

Ltac wf_current st Hst :=
  match goal with
  | H : context [ensureCurrent (current st)] |- _ =>
      let p := fresh "p" in
      let Ep := fresh "Ep" in
      destruct (ensureCurrent (current st)) as [p|] eqn:Ep;
      [ pose proof (ensureCurrent_wf _ _ (proj2 Hst) Ep) | discriminate ]
  end.

(** One round of the loop keeps the state well formed. *)
Lemma projectStep_wf :
  forall lines i st c,
    projectStep lines i st = Ok c ->
    wellFormedState st -> wellFormedState (stateOf c).
Proof.
  intros lines i st c H Hst. unfold projectStep in H.
  destruct (get lines i) as [line|]; [|discriminate]. cbn [bind must] in H.
  destruct (test reOthers line).
  { injection H as <-. split; [apply pushCurrent_wf; exact Hst | apply Hst]. }
  destruct (includes PIPE line).
  { destruct (get (firstn 2 (splitOn PIPE line)) 0) as [left|];
      [|discriminate]. cbn [bind must] in H.
    match type of H with
    | bind ?c0 _ = _ => destruct c0 as [cur| |] eqn:Ec; try discriminate
    end.
    cbn [bind] in H. injection H as <-. cbn [stateOf].
    split; [apply pushCurrent_wf; exact Hst|]. cbn [current].
    intros p Ep.
    destruct (get (firstn 2 (splitOn PIPE line)) 1) as [[|x right]|].
    - injection Ec as <-. injection Ep as <-. apply wellFormed_fresh.
    - refine (addTech_wf _ _ _ p _ Ec Ep).
      intros p0 E0. injection E0 as <-. apply wellFormed_fresh.
    - injection Ec as <-. injection Ep as <-. apply wellFormed_fresh. }
  destruct (test reUrlStart line).
  { wf_current st Hst. cbn [bind must] in H. injection H as <-.
    split; [apply Hst|]. cbn. intros q Eq. injection Eq as <-.
    apply withLink_wf. assumption. }
  destruct (str_eqb line [BULLET] && (i + 1 <? length lines)).
  { wf_current st Hst. cbn [bind must] in H.
    destruct (get lines (i + 1)) as [next|]; [|discriminate].
    cbn [bind must] in H. injection H as <-.
    split; [apply Hst|]. cbn. intros q Eq. injection Eq as <-.
    apply withBullets_wf. assumption. }
  destruct (startsWith [BULLET; SPACE] line).
  { wf_current st Hst. cbn [bind must] in H. injection H as <-.
    split; [apply Hst|]. cbn. intros q Eq. injection Eq as <-.
    apply withBullets_wf. assumption. }
  destruct (bulletsStarted st
            && match current st with
               | Some p => 0 <? length (orNil (bullets p))
               | None => false
               end).
  { destruct (current st) as [p|] eqn:Ec; [|discriminate].
    cbn [bind must] in H.
    destruct (bullets p) as [bs|]; [|discriminate]. cbn [bind must] in H.
    destruct (get bs (length bs - 1)) as [lastB|]; [|discriminate].
    cbn [bind must] in H. injection H as <-.
    split; [apply Hst|]. cbn. intros q Eq. injection Eq as <-.
    apply withBullets_wf. apply (proj2 Hst). exact Ec. }
  destruct (looksLikeTech line).
  { destruct (addTech line (current st)) as [cur| |] eqn:Ea; try discriminate.
    cbn [bind] in H. injection H as <-.
    split; [apply Hst|]. cbn. intros q Eq.
    exact (addTech_wf _ _ _ q (proj2 Hst) Ea Eq). }
  wf_current st Hst. cbn [bind must] in H. injection H as <-.
  split; [apply Hst|]. cbn. intros q Eq. injection Eq as <-.
  apply withDescription_wf. assumption.
Qed.

Lemma projectLoop_wf :
  forall fuel lines i st st',
    projectLoop fuel lines i st = Ok st' ->
    wellFormedState st -> wellFormedState st'.
Proof.
  induction fuel as [|f IH]; intros lines i st st' H Hst.
  - discriminate.
  - cbn [projectLoop] in H. destruct (i <? length lines).
    + destruct (projectStep lines i st) as [c| |] eqn:Ec; try discriminate.
      cbn [bind] in H. pose proof (projectStep_wf _ _ _ _ Ec Hst) as Hc.
      destruct c as [i' st1|st1]; cbn [stateOf] in Hc.
      * exact (IH _ _ _ _ H Hc).
      * injection H as <-. exact Hc.
    + injection H as <-. exact Hst.
Qed.

Lemma dedup_subset :
  forall (l : list ProjectEntry) (p : ProjectEntry), In p (dedup l) -> In p l.
Proof.
  intros l p H. destruct (dedup_winner l p H) as (l1 & l2 & -> & _).
  apply in_or_app. right. left. reflexivity.
Qed.

(** X15: every entry the project extractor returns has its name,
    description, technologies and bullets present; its technology list has
    no repetition and no empty token, and every token is trimmed and holds
    no comma, slash, bar or parenthesis; and no two entries returned have
    the same normalized name. *)
Theorem X15_projects_well_formed :
  forall section : str,
    exists r,
      extractProjects section = Ok r
      /\ Forall wellFormedProject r
      /\ NoDup (map normName r).
Proof.
  intros section. destruct (extractProjects_total section) as (r & Hr).
  exists r. split; [exact Hr|]. unfold extractProjects in Hr.
  destruct (projectLoop _ _ _ _) as [st| |] eqn:El; try discriminate.
  cbn [bind] in Hr. injection Hr as <-. split.
  - apply Forall_forall. intros p Hp. apply dedup_subset in Hp.
    assert (Hst : wellFormedState st).
    { apply (projectLoop_wf _ _ _ _ _ El).
      split; [constructor | intros p0 E0; discriminate]. }
    exact (proj1 (Forall_forall _ _) (pushCurrent_wf st Hst) p Hp).
  - rewrite dedup_names. apply NoDup_dedupe.
Qed.

(* ===================================================================== *)
(** ** Indices and slices *)
(* ===================================================================== *)

(** [lastIndexOf]: no occurrence and the default, or the place of the last
    occurrence. *)
Lemma lastIndexFrom_spec :
  forall (c : char) (s : str) (i best : Z),
    (~ In c s /\ lastIndexFrom c s i best = best)
    \/ (exists a b,
          s = a ++ c :: b /\ ~ In c b
          /\ lastIndexFrom c s i best = (i + Z.of_nat (length a))%Z).
Proof.
  intros c s; induction s as [|x t IH]; intros i best; simpl.
  - left. split; [tauto | reflexivity].
  - destruct (IH (i + 1)%Z (if (x =? c)%N then i else best))
      as [[Hn Hr]|(a & b & Ht & Hb & Hr)].
    + destruct (x =? c)%N eqn:E.
      * apply N.eqb_eq in E. subst x. right. exists [], t.
        split; [reflexivity|]. split; [exact Hn|].
        rewrite Hr. simpl. lia.
      * apply N.eqb_neq in E. left. split; [|exact Hr].
        intros [H|H]; [congruence | contradiction].
    + right. exists (x :: a), b. split; [rewrite Ht; reflexivity|].
      split; [exact Hb|]. rewrite Hr. simpl length. lia.
Qed.

Lemma lastIndexOf_spec :
  forall (c : char) (s : str),
    (~ In c s /\ lastIndexOf c s = (-1)%Z)
    \/ (exists a b,
          s = a ++ c :: b /\ ~ In c b
          /\ lastIndexOf c s = Z.of_nat (length a)).
Proof.
  intros c s. unfold lastIndexOf.
  destruct (lastIndexFrom_spec c s 0 (-1)) as [H|(a & b & H1 & H2 & H3)].
  - left. exact H.
  - right. exists a, b. repeat split; assumption.
Qed.

(** A slice from the start, and a slice to the end, at an index that is
    not negative. *)
Lemma slice_to :
  forall (s : str) (n : nat), slice s 0 (Z.of_nat n) = firstn n s.
Proof.
  intros s n. unfold slice, clampIndex.
  change (0 <? 0)%Z with false. cbv iota.
  replace (Z.of_nat n <? 0)%Z with false by (symmetry; apply Z.ltb_ge; lia).
  rewrite (Z.min_l 0) by lia. cbn [Z.to_nat skipn]. rewrite Z.sub_0_r.
  destruct (Nat.le_gt_cases n (length s)) as [H|H].
  - rewrite (Z.min_l (Z.of_nat n)) by lia. rewrite Nat2Z.id. reflexivity.
  - rewrite (Z.min_r (Z.of_nat n)) by lia. rewrite Nat2Z.id.
    rewrite !firstn_all2 by lia. reflexivity.
Qed.

Lemma sliceFrom_at :
  forall (s : str) (n : nat), sliceFrom s (Z.of_nat n) = skipn n s.
Proof.
  intros s n. unfold sliceFrom, slice, clampIndex.
  replace (Z.of_nat n <? 0)%Z with false by (symmetry; apply Z.ltb_ge; lia).
  replace (Z.of_nat (length s) <? 0)%Z with false
    by (symmetry; apply Z.ltb_ge; lia).
  rewrite (Z.min_l (Z.of_nat (length s)) (Z.of_nat (length s))) by lia.
  destruct (Nat.le_gt_cases n (length s)) as [H|H].
  - rewrite (Z.min_l (Z.of_nat n)) by lia. rewrite Nat2Z.id.
    apply firstn_all2. rewrite length_skipn. lia.
  - rewrite (Z.min_r (Z.of_nat n)) by lia. rewrite Nat2Z.id.
    rewrite !skipn_all2 by lia. apply firstn_nil.
Qed.

Lemma firstn_app_exact :
  forall (a b : str), firstn (length a) (a ++ b) = a.
Proof.
  intros a b. rewrite firstn_app, firstn_all, Nat.sub_diag. simpl.
  apply app_nil_r.
Qed.

Lemma skipn_app_exact :
  forall (a b : str), skipn (length a) (a ++ b) = b.
Proof.
  intros a b. rewrite skipn_app, skipn_all, Nat.sub_diag. reflexivity.
Qed.

(** X16: the role line of an experience entry is cut at its last comma:
    the role is the trimmed text before it and the location the trimmed
    text after it, which holds no comma; a line without a comma is the
    role as a whole, with an empty location. *)
Theorem X16_role_line_split :
  forall rl : str,
    (~ In COMMA rl /\ splitRole rl = (trim rl, []))
    \/ (exists a b,
          rl = a ++ COMMA :: b /\ ~ In COMMA b
          /\ splitRole rl = (trim a, trim b)).
Proof.
  intros rl. unfold splitRole.
  destruct (lastIndexOf_spec COMMA rl) as [[Hn ->]|(a & b & Hs & Hb & ->)].
  - left. split; [exact Hn | reflexivity].
  - right. exists a, b. split; [exact Hs|]. split; [exact Hb|].
    replace (Z.of_nat (length a) =? -1)%Z with false
      by (symmetry; apply Z.eqb_neq; lia).
    rewrite slice_to.
    replace (Z.of_nat (length a) + 1)%Z with (Z.of_nat (S (length a))) by lia.
    rewrite sliceFrom_at. rewrite Hs.
    rewrite firstn_app_exact.
    replace (a ++ COMMA :: b) with ((a ++ [COMMA]) ++ b)
      by (rewrite <- app_assoc; reflexivity).
    replace (S (length a)) with (length (a ++ [COMMA]))
      by (rewrite length_app; simpl; lia).
    rewrite skipn_app_exact. reflexivity.
Qed.

(* ===================================================================== *)
(** ** The education extractor *)
(* ===================================================================== *)

(** Trimming keeps every unit that is not white space. *)
Lemma trim_keeps :
  forall (s : str) (c : char), In c s -> isSpace c = false -> In c (trim s).
Proof.
  intros s c H Hc. unfold trim, trimEnd, trimStart.
  apply in_rev. rewrite rev_involutive.
  apply dropWhile_keeps; [|exact Hc]. apply in_rev. rewrite rev_involutive.
  apply dropWhile_keeps; assumption.
Qed.

(** The trimmed form of the end of a trimmed line is itself an end of the
    line. *)
Lemma trim_of_suffix :
  forall (line a u : str),
    trimmed line -> line = a ++ u -> exists a', line = a' ++ trim u.
Proof.
  intros line a u Ht Hl. unfold trim.
  destruct (dropWhile_suffix isSpace u) as (ws & Hu).
  fold (trimStart u) in Hu.
  destruct (last_case (trimStart u)) as [Ev|(v' & x & Ev)]; rewrite Ev in *.
  - exists line. cbn. rewrite app_nil_r. reflexivity.
  - exists (a ++ ws).
    assert (Hend : trimEnd (v' ++ [x]) = v' ++ [x]).
    { unfold trimEnd. rewrite rev_app_distr. cbn [rev app].
      pose proof (trimmed_trimEnd line Ht) as He. unfold trimEnd in He.
      apply (f_equal (@rev char)) in He. rewrite rev_involutive in He.
      rewrite Hl, Hu, !rev_app_distr in He. cbn [rev app] in He.
      rewrite <- app_assoc in He. cbn [app] in He.
      pose proof (dropWhile_head isSpace _ _ _ He) as Hx.
      cbn [dropWhile]. rewrite Hx. cbn [rev app].
      rewrite rev_involutive. reflexivity. }
    rewrite Hend, Hl, Hu, app_assoc. reflexivity.
Qed.

(** The place where the location of the first line starts lies at or
    before the last comma. *)
Lemma location_start :
  forall (a b : str),
    exists n,
      (lastIndexOfAt SPACE (a ++ COMMA :: b) (Z.of_nat (length a) - 1) + 1)%Z
      = Z.of_nat n
      /\ n <= length a.
Proof.
  intros a b. unfold lastIndexOfAt.
  set (pos := Z.max 0 (Z.of_nat (length a) - 1)).
  destruct (lastIndexFrom_spec SPACE
              (firstn (Z.to_nat pos + 1) (a ++ COMMA :: b)) 0 (-1))
    as [[_ ->]|(a' & b' & Hf & _ & ->)].
  - exists 0. split; [reflexivity | lia].
  - exists (S (length a')). split; [lia|].
    assert (Hlen : length (a' ++ SPACE :: b') <= Z.to_nat pos + 1).
    { rewrite <- Hf. apply firstn_le_length. }
    rewrite length_app in Hlen. simpl in Hlen.
    destruct a as [|x a0].
    + exfalso. simpl in pos. subst pos. simpl in Hf.
      destruct a' as [|y a'']; simpl in Hf.
      * injection Hf as Hc _. discriminate.
      * injection Hf as _ Hr. destruct a''; discriminate.
    + subst pos. simpl length in *. lia.
Qed.

Lemma skipn_keeps_comma :
  forall (a b : str) (n : nat),
    n <= length a -> In COMMA (skipn n (a ++ COMMA :: b)).
Proof.
  intros a b n H. rewrite skipn_app.
  replace (n - length a) with 0 by lia. simpl.
  apply in_or_app. right. left. reflexivity.
Qed.

(** The school and the location of a first line that is trimmed. *)
Lemma firstLine_split :
  forall l0 : str,
    trimmed l0 ->
    let lastComma := lastIndexOf COMMA l0 in
    let loc :=
      if (lastComma =? -1)%Z then []
      else trim (sliceFrom l0 (lastIndexOfAt SPACE l0 (lastComma - 1) + 1)) in
    let sch :=
      if (lastComma =? -1)%Z then l0
      else trim (slice l0 0 (Z.of_nat (length l0) - Z.of_nat (length loc))) in
    trimmed sch /\ trimmed loc
    /\ (exists pre, l0 = pre ++ loc /\ sch = trim pre)
    /\ (In COMMA l0 -> In COMMA loc)
    /\ (~ In COMMA l0 -> loc = [] /\ sch = l0).
Proof.
  intros l0 Ht. cbv zeta.
  destruct (lastIndexOf_spec COMMA l0) as [[Hn ->]|(a & b & Hs & Hb & ->)].
  - change (-1 =? -1)%Z with true. cbv iota.
    split; [exact Ht|]. split; [apply trimmed_nil|]. split.
    + exists l0. rewrite app_nil_r. split; [reflexivity | symmetry; exact Ht].
    + split; [intros H; contradiction | intros _; split; reflexivity].
  - replace (Z.of_nat (length a) =? -1)%Z with false
      by (symmetry; apply Z.eqb_neq; lia).
    destruct (location_start a b) as (n & Hn & Hle).
    rewrite <- Hs in Hn. rewrite !Hn, !sliceFrom_at.
    set (loc := trim (skipn n l0)).
    destruct (trim_of_suffix l0 (firstn n l0) (skipn n l0) Ht
                (eq_sym (firstn_skipn n l0))) as (pre & Hpre).
    fold loc in Hpre.
    assert (Hsl : slice l0 0 (Z.of_nat (length l0) - Z.of_nat (length loc))
                  = pre).
    { replace (Z.of_nat (length l0) - Z.of_nat (length loc))%Z
        with (Z.of_nat (length l0 - length loc))
        by (rewrite Hpre at 1 2; rewrite length_app; lia).
      rewrite slice_to. rewrite Hpre at 1 2. apply firstn_consumed. }
    rewrite Hsl.
    split; [apply trim_trimmed|]. split; [apply trim_trimmed|]. split.
    + exists pre. split; [exact Hpre | reflexivity].
    + split.
      * intros _. apply trim_keeps; [|reflexivity].
        rewrite Hs. apply skipn_keeps_comma. exact Hle.
      * intros Hno. exfalso. apply Hno. rewrite Hs.
        apply in_or_app. right. left. reflexivity.
Qed.

(** The degree and the duration of a second line that is trimmed. *)
Lemma secondLine_split :
  forall l1 : str,
    trimmed l1 ->
    let dateIdx := search reEduDate l1 in
    let deg :=
      if (dateIdx =? -1)%Z then l1 else trim (slice l1 0 dateIdx) in
    let dur :=
      if (dateIdx =? -1)%Z then [] else trim (sliceFrom l1 dateIdx) in
    trimmed deg /\ trimmed dur
    /\ exists a b, l1 = a ++ b /\ deg = trim a /\ dur = trim b.
Proof.
  intros l1 Ht. cbv zeta. unfold search.
  destruct (exec reEduDate l1) as [h|].
  - replace (Z.of_nat (index h) =? -1)%Z with false
      by (symmetry; apply Z.eqb_neq; lia).
    rewrite slice_to, sliceFrom_at.
    split; [apply trim_trimmed|]. split; [apply trim_trimmed|].
    exists (firstn (index h) l1), (skipn (index h) l1).
    split; [symmetry; apply firstn_skipn | split; reflexivity].
  - change (-1 =? -1)%Z with true. cbv iota.
    split; [exact Ht|]. split; [apply trimmed_nil|].
    exists l1, []. rewrite app_nil_r.
    split; [reflexivity|]. split; [symmetry; exact Ht | reflexivity].
Qed.

(** X17: the education extractor returns at most one entry; it returns
    none exactly when the section has fewer than two non-blank lines; the
    entry it returns has its four fields present and trimmed. *)
Theorem X17_education_entries :
  forall section : str,
    exists r,
      extractEducation section = Ok r
      /\ length r <= 1
      /\ (r = [] <-> length (sectionLines section) < 2)
      /\ Forall wellFormedEducation r.
Proof.
  intros section. unfold extractEducation.
  destruct (sectionLines section) as [|l0 [|l1 rest]] eqn:E.
  - exists []. cbn. repeat split; auto; lia.
  - exists []. cbn. repeat split; auto; lia.
  - cbn [length Nat.leb get nth_error bind must].
    assert (H0 : trimmed l0)
      by (apply (sectionLines_clean section); rewrite E; left; reflexivity).
    assert (H1 : trimmed l1)
      by (apply (sectionLines_clean section); rewrite E; right; left;
          reflexivity).
    destruct (firstLine_split l0 H0) as (A & B & _).
    destruct (secondLine_split l1 H1) as (C & D & _).
    eexists. split; [reflexivity|]. split; [simpl; lia|]. split.
    + split; [discriminate | simpl; lia].
    + constructor; [|constructor].
      eexists _, _, _, _. cbn.
      repeat (split; [first [reflexivity | assumption]|]). assumption.
Qed.

(** X18: with two or more lines, the first line is divided between school
    and location: the location is the end of the line, from the last word
    before the last comma on, so that it holds that comma, and the school
    is the trimmed text before it; without a comma the school is the whole
    line and the location is empty.  The second line is divided between
    degree and duration in the same way, both trimmed. *)
Theorem X18_education_lines_split :
  forall (section l0 l1 : str) (rest : list str),
    sectionLines section = l0 :: l1 :: rest ->
    exists sch loc deg dur,
      extractEducation section
      = Ok [ {| school := Some sch; degree := Some deg;
                eduDuration := Some dur; eduLocation := Some loc |} ]
      /\ (exists pre, l0 = pre ++ loc /\ sch = trim pre)
      /\ (In COMMA l0 -> In COMMA loc)
      /\ (~ In COMMA l0 -> loc = [] /\ sch = l0)
      /\ (exists a b, l1 = a ++ b /\ deg = trim a /\ dur = trim b).
Proof.
  intros section l0 l1 rest E. unfold extractEducation. rewrite E.
  cbn [length Nat.leb get nth_error bind must].
  assert (H0 : trimmed l0)
    by (apply (sectionLines_clean section); rewrite E; left; reflexivity).
  assert (H1 : trimmed l1)
    by (apply (sectionLines_clean section); rewrite E; right; left;
        reflexivity).
  destruct (firstLine_split l0 H0) as (_ & _ & P & Q & R).
  destruct (secondLine_split l1 H1) as (_ & _ & S).
  eexists _, _, _, _. split; [reflexivity|].
  split; [exact P|]. split; [exact Q|]. split; [exact R | exact S].
Qed.

Lemma X18_education_lines_split_witness :
  exists sch loc deg dur,
    extractEducation docEducation
    = Ok [ {| school := Some sch; degree := Some deg;
              eduDuration := Some dur; eduLocation := Some loc |} ]
    /\ (exists pre, lit "State University Springfield, IL" = pre ++ loc
                    /\ sch = trim pre)
    /\ (In COMMA (lit "State University Springfield, IL") -> In COMMA loc)
    /\ (~ In COMMA (lit "State University Springfield, IL") ->
        loc = [] /\ sch = lit "State University Springfield, IL")
    /\ (exists a b, lit "BSc Computing May 2020" = a ++ b
                    /\ deg = trim a /\ dur = trim b).
Proof.
  apply (X18_education_lines_split docEducation _ _ []).
  vm_compute. reflexivity.
Defined.

(** The entry of that section: school and location, degree and date. *)
Example education_entry :
  extractEducation docEducation
  = Ok [ {| school := Some (lit "State University");
            degree := Some (lit "BSc Computing");
            eduDuration := Some (lit "May 2020");
            eduLocation := Some (lit "Springfield, IL") |} ].
Proof. vm_compute. reflexivity. Qed.

(* ===================================================================== *)
(** ** Literals *)
(* ===================================================================== *)

(** A pattern of one given unit is found exactly in the strings that hold
    the unit. *)
Lemma test_chr_sound :
  forall (c : char) (s : str), test (Chr c) s = true -> In c s.
Proof.
  intros c s H. apply test_sound in H.
  destruct H as (before & rest & p' & s' & c' & -> & Hm).
  unfold Chr in Hm. inv Hm.
  match goal with H : (_ =? _)%N = true |- _ => apply N.eqb_eq in H; subst end.
  apply in_or_app. right. left. reflexivity.
Qed.

Lemma execFrom_chr_complete :
  forall (c : char) (s : str) (prev : option char) (i : nat),
    In c s -> execFrom (Chr c) prev s i <> None.
Proof.
  intros c s; induction s as [|x t IH]; intros prev i H; [destruct H|].
  cbn [execFrom]. unfold execAt at 1. unfold Chr at 1. cbn [run].
  destruct (c =? x)%N eqn:E; [discriminate|].
  destruct H as [H|H]; [subst; rewrite N.eqb_refl in E; discriminate|].
  apply IH. exact H.
Qed.

Lemma test_chr_iff :
  forall (c : char) (s : str), test (Chr c) s = true <-> In c s.
Proof.
  intros c s. split; [apply test_chr_sound|].
  intros H. unfold test, exec.
  destruct (execFrom (Chr c) None s 0) eqn:E; [reflexivity|].
  exfalso. exact (execFrom_chr_complete c s None 0 H E).
Qed.

(** A literal under the i flag consumes a text equal to it but for case. *)
Lemma matches_literal :
  forall (w : str) p s c p' s' c',
    matches (Seq (map ChrI w)) p s c p' s' c' ->
    exists pre, s = pre ++ s' /\ sameIgnoringCase pre w /\ c' = c.
Proof.
  unfold sameIgnoringCase.
  induction w as [|a w IH]; intros p s c p' s' c' H.
  - change (Seq (map ChrI [])) with Eps in H. inv H.
    exists []. repeat split.
  - destruct w as [|b w].
    + change (Seq (map ChrI [a])) with (ChrI a) in H.
      unfold ChrI in H. inv H.
      match goal with H : _ = true |- _ =>
        cbv beta in H; apply N.eqb_eq in H end.
      exists [x]. cbn [map app]. repeat split. congruence.
    + change (Seq (map ChrI (a :: b :: w)))
        with (Cat (ChrI a) (Seq (map ChrI (b :: w)))) in H.
      inv H.
      match goal with H : matches (ChrI a) _ _ _ _ _ _ |- _ =>
        unfold ChrI in H; inv H end.
      match goal with H : _ = true |- _ =>
        cbv beta in H; apply N.eqb_eq in H end.
      match goal with H : matches _ (Some _) _ _ _ _ _ |- _ =>
        destruct (IH _ _ _ _ _ _ H) as (pre & -> & Hpre & ->) end.
      exists (x :: pre). split; [reflexivity|]. split; [|reflexivity].
      cbn [map] in Hpre |- *. congruence.
Qed.

(* ===================================================================== *)
(** ** The matcher finds every match *)
(* ===================================================================== *)

(** Whatever way the pattern can consume a prefix so that the rest of the
    search succeeds, the backtracking search succeeds. *)
Lemma run_complete :
  forall (R : Type) r p s c p' s' c',
    matches r p s c p' s' c' ->
    forall k : cont R, k p' s' c' <> None -> run r p s c k <> None.
Proof.
  intros R r p s c p' s' c' H; induction H; intros k Hk.
  - exact Hk.
  - cbn [run]. rewrite H. exact Hk.
  - cbn [run]. apply IHmatches1. apply IHmatches2. exact Hk.
  - cbn [run]. destruct (run a p s c k) eqn:E; [discriminate|].
    exfalso. exact (IHmatches k Hk E).
  - cbn [run]. destruct (run a p s c k); [discriminate|].
    apply IHmatches. exact Hk.
  - rewrite run_star_unfold.
    destruct (run a p s c _); [discriminate | exact Hk].
  - rewrite run_star_unfold.
    match goal with |- context [run a p s c ?k0] =>
      destruct (run a p s c k0) eqn:E; [discriminate|];
      exfalso; revert E; apply IHmatches1 end.
    apply Nat.ltb_lt in H0. rewrite H0. apply IHmatches2. exact Hk.
  - cbn [run]. apply IHmatches. exact Hk.
  - exact Hk.
  - exact Hk.
  - cbn [run]. rewrite H. exact Hk.
Qed.

Lemma execAt_complete :
  forall r prev s i p' s' c',
    matches r prev s [] p' s' c' -> execAt r prev s i <> None.
Proof.
  intros r prev s i p' s' c' H. unfold execAt.
  apply (run_complete _ _ _ _ _ _ _ _ H). discriminate.
Qed.

Lemma execFrom_complete :
  forall r before rest prev i p' s' c',
    matches r (lastOr prev before) rest [] p' s' c' ->
    execFrom r prev (before ++ rest) i <> None.
Proof.
  intros r before; induction before as [|x t IH];
    intros rest prev i p' s' c' H.
  - rewrite lastOr_nil in H. cbn [app].
    pose proof (execAt_complete _ _ _ i _ _ _ H) as E.
    destruct rest; cbn [execFrom];
      destruct (execAt r prev _ i); try discriminate; contradiction.
  - rewrite lastOr_cons in H. cbn [app execFrom].
    destruct (execAt r prev _ i); [discriminate|].
    exact (IH rest (Some x) (S i) p' s' c' H).
Qed.

Lemma test_complete :
  forall r before rest p' s' c',
    matches r (lastOr None before) rest [] p' s' c' ->
    test r (before ++ rest) = true.
Proof.
  intros r before rest p' s' c' H. unfold test, exec.
  pose proof (execFrom_complete r before rest None 0 p' s' c' H) as E.
  destruct (execFrom r None (before ++ rest) 0); [reflexivity | contradiction].
Qed.

(** A pattern anchored at both ends is found in a line exactly when the
    pattern can consume the whole line. *)
Lemma anchored_iff :
  forall (r : re) (l : str),
    test (anchored r) l = true
    <-> exists p' c', matches r None l [] p' [] c'.
Proof.
  intros r l. unfold anchored. cbn [Seq]. split.
  - intros H. apply test_sound in H.
    destruct H as (before & rest & p' & s' & c' & -> & Hm).
    inv Hm.
    match goal with H : matches Bol _ _ _ _ _ _ |- _ => inv H end.
    match goal with H : None = lastOr None _ |- _ =>
      symmetry in H; apply lastOr_none in H; subst before end.
    match goal with H : matches (Cat _ Eol) _ _ _ _ _ _ |- _ => inv H end.
    match goal with H : matches Eol _ _ _ _ _ _ |- _ => inv H end.
    cbn [app]. eexists _, _. eassumption.
  - intros (p' & c' & H).
    apply (test_complete _ [] l p' [] c').
    rewrite lastOr_nil. eapply MCat; [apply MBol|].
    eapply MCat; [exact H | apply MEol].
Qed.

(** The ways to build a match of a literal and of a run of a class. *)
Lemma literal_matches :
  forall (w pre : str) p s' c,
    sameIgnoringCase pre w ->
    matches (Seq (map ChrI w)) p (pre ++ s') c (lastOr p pre) s' c.
Proof.
  unfold sameIgnoringCase.
  induction w as [|a w IH]; intros pre p s' c H.
  - destruct pre; [|discriminate]. apply MEps.
  - destruct pre as [|x pre]; [discriminate|]. cbn [map] in H.
    injection H as Hx Hr. destruct w as [|b w].
    + destruct pre; [|discriminate]. apply MCls.
      rewrite Hx. apply N.eqb_refl.
    + change (Seq (map ChrI (a :: b :: w)))
        with (Cat (ChrI a) (Seq (map ChrI (b :: w)))).
      rewrite lastOr_cons. eapply MCat.
      * apply MCls. rewrite Hx. apply N.eqb_refl.
      * apply IH. exact Hr.
Qed.

Lemma star_cls_matches :
  forall (q : char -> bool) (pre : str) p s' c,
    forallb q pre = true ->
    matches (Star (Cls q)) p (pre ++ s') c (lastOr p pre) s' c.
Proof.
  intros q pre; induction pre as [|x t IH]; intros p s' c H.
  - apply MStarStop.
  - simpl in H. apply andb_true_iff in H. destruct H as [Hx Ht].
    rewrite lastOr_cons. eapply MStarStep.
    + apply MCls. exact Hx.
    + cbn [app length]. apply Nat.lt_succ_diag_r.
    + apply IH. exact Ht.
Qed.

Lemma plus_cls_matches :
  forall (q : char -> bool) (ws : str) p s' c,
    ws <> [] -> forallb q ws = true ->
    matches (Plus (Cls q)) p (ws ++ s') c (lastOr p ws) s' c.
Proof.
  intros q ws p s' c Hne H. destruct ws as [|x t]; [contradiction|].
  simpl in H. apply andb_true_iff in H. destruct H as [Hx Ht].
  rewrite lastOr_cons. unfold Plus. eapply MCat.
  - apply MCls. exact Hx.
  - apply star_cls_matches. exact Ht.
Qed.

Lemma literal_iff :
  forall (w : string) p s c p' s' c',
    matches (LitI w) p s c p' s' c'
    <-> exists pre,
          s = pre ++ s' /\ sameIgnoringCase pre (lit w)
          /\ p' = lastOr p pre /\ c' = c.
Proof.
  intros w p s c p' s' c'. unfold LitI. split.
  - intros H. destruct (matches_prefix _ _ _ _ _ _ _ H) as (pre2 & Hs2 & Hp).
    destruct (matches_literal _ _ _ _ _ _ _ H) as (pre & Hs & Hpre & Hc).
    exists pre. rewrite Hs in Hs2. apply app_inv_tail in Hs2. subst pre2.
    repeat split; assumption.
  - intros (pre & -> & Hpre & -> & ->). apply literal_matches. exact Hpre.
Qed.

Lemma plus_space_iff :
  forall p s c p' s' c',
    matches (Plus Space) p s c p' s' c'
    <-> exists ws,
          s = ws ++ s' /\ ws <> [] /\ forallb isSpace ws = true
          /\ p' = lastOr p ws /\ c' = c.
Proof.
  intros p s c p' s' c'. unfold Space. split.
  - intros H. destruct (matches_prefix _ _ _ _ _ _ _ H) as (pre2 & Hs2 & Hp).
    destruct (matches_plus_cls _ _ _ _ _ _ _ H) as (x & pre & Hs & Hq & Hc).
    exists (x :: pre). rewrite Hs in Hs2. apply app_inv_tail in Hs2.
    subst pre2. repeat split; try assumption. discriminate.
  - intros (ws & -> & Hne & Hq & -> & ->).
    apply plus_cls_matches; assumption.
Qed.

(** A literal label, anchored at both ends, is found exactly in the lines
    equal to it but for case. *)
Lemma anchored_literal_iff :
  forall (w : string) (l : str),
    test (anchored (LitI w)) l = true <-> sameIgnoringCase l (lit w).
Proof.
  intros w l. rewrite anchored_iff. split.
  - intros (p' & c' & H). apply literal_iff in H.
    destruct H as (pre & -> & Hpre & _). rewrite app_nil_r. exact Hpre.
  - intros H. exists (lastOr None l), []. apply literal_iff.
    exists l. rewrite app_nil_r. repeat split. exact H.
Qed.

(** Two words with white space between them, as a whole line. *)
Lemma spaced_matches :
  forall (a b : string) (l : str),
    spaced a b l ->
    exists p' c',
      matches (Cat (LitI a) (Cat (Plus Space) (LitI b))) None l [] p' [] c'.
Proof.
  intros a b l (x & ws & y & -> & Hne & Hws & Hx & Hy).
  exists (lastOr (lastOr (lastOr None x) ws) y), [].
  eapply MCat; [apply literal_iff; exists x; repeat split; exact Hx|].
  eapply MCat; [apply plus_space_iff; exists ws; repeat split; assumption|].
  apply literal_iff. exists y. rewrite app_nil_r. repeat split. exact Hy.
Qed.

Lemma matches_spaced :
  forall (a b : string) (l : str) p' c',
    matches (Cat (LitI a) (Cat (Plus Space) (LitI b))) None l [] p' [] c' ->
    spaced a b l.
Proof.
  intros a b l p' c' H. inv H.
  match goal with H : matches (LitI a) _ _ _ _ _ _ |- _ =>
    apply literal_iff in H; destruct H as (x & -> & Hx & -> & ->) end.
  match goal with H : matches (Cat _ _) _ _ _ _ _ _ |- _ => inv H end.
  match goal with H : matches (Plus Space) _ _ _ _ _ _ |- _ =>
    apply plus_space_iff in H; destruct H as (ws & -> & Hne & Hws & -> & ->)
  end.
  match goal with H : matches (LitI b) _ _ _ _ _ _ |- _ =>
    apply literal_iff in H; destruct H as (y & -> & Hy & _) end.
  exists x, ws, y. rewrite app_nil_r. repeat split; assumption.
Qed.

(* ===================================================================== *)
(** ** The label lines *)
(* ===================================================================== *)

(** X19: a line is taken as the label of a section exactly when it reads,
    in any letter case, Summary or Objective; Education; Experience, or
    Professional, white space, Experience; Skills, or Technical, white
    space, Skills; Projects; Certifications.  No line is a label of the
    header. *)
Theorem X19_label_lines :
  forall (k : Key) (l : str), isLabelLine k l = true <-> labelText k l.
Proof.
  intros k l. destruct k; cbn [labelText].
  - change (isLabelLine KHeader l) with false. split; [discriminate | tauto].
  - change (isLabelLine KSummary l)
      with (test (anchored (Alt (LitI "Summary") (LitI "Objective"))) l).
    rewrite anchored_iff. split.
    + intros (p' & c' & H). inv H;
        match goal with H : matches (LitI _) _ _ _ _ _ _ |- _ =>
          apply literal_iff in H; destruct H as (pre & -> & Hpre & _) end;
        rewrite app_nil_r; [left | right]; exact Hpre.
    + intros [H|H]; exists (lastOr None l), [];
        [apply MAltL | apply MAltR]; apply literal_iff; exists l;
        rewrite app_nil_r; repeat split; exact H.
  - apply anchored_literal_iff.
  - change (isLabelLine KExperience l)
      with (test (anchored
                    (Cat (Opt (Cat (LitI "Professional") (Plus Space)))
                         (LitI "Experience"))) l).
    rewrite anchored_iff. split.
    + intros (p' & c' & H). inv H.
      match goal with H : matches (Opt _) _ _ _ _ _ _ |- _ =>
        unfold Opt in H; inv H end.
      * right. eapply (matches_spaced "Professional" "Experience" l p' c').
        match goal with H : matches (Cat _ _) _ _ _ _ _ _ |- _ => inv H end.
        eapply MCat; [eassumption|]. eapply MCat; eassumption.
      * left.
        match goal with H : matches Eps _ _ _ _ _ _ |- _ => inv H end.
        match goal with H : matches (LitI _) _ _ _ _ _ _ |- _ =>
          apply literal_iff in H; destruct H as (pre & -> & Hpre & _) end.
        rewrite app_nil_r. exact Hpre.
    + intros [H|H].
      * exists (lastOr None l), []. eapply MCat.
        -- unfold Opt. apply MAltR. apply MEps.
        -- apply literal_iff. exists l. rewrite app_nil_r.
           repeat split. exact H.
      * destruct (spaced_matches _ _ _ H) as (p' & c' & Hm).
        exists p', c'. inv Hm.
        match goal with H : matches (Cat _ _) _ _ _ _ _ _ |- _ => inv H end.
        eapply MCat; [|eassumption].
        unfold Opt. apply MAltL. eapply MCat; eassumption.
  - change (isLabelLine KSkills l)
      with (test (anchored
                    (Alt (Cat (LitI "Technical")
                              (Cat (Plus Space) (LitI "Skills")))
                         (Alt (LitI "Skills") (LitI "SKILLS")))) l).
    rewrite anchored_iff. split.
    + intros (p' & c' & H). inv H.
      * right. eapply matches_spaced. eassumption.
      * left.
        match goal with H : matches (Alt _ _) _ _ _ _ _ _ |- _ => inv H end;
          match goal with H : matches (LitI _) _ _ _ _ _ _ |- _ =>
            apply literal_iff in H; destruct H as (pre & -> & Hpre & _) end;
          rewrite app_nil_r; exact Hpre.
    + intros [H|H].
      * exists (lastOr None l), []. apply MAltR. apply MAltL.
        apply literal_iff. exists l. rewrite app_nil_r.
        repeat split. exact H.
      * destruct (spaced_matches _ _ _ H) as (p' & c' & Hm).
        exists p', c'. apply MAltL. exact Hm.
  - apply anchored_literal_iff.
  - apply anchored_literal_iff.
Qed.

(* ===================================================================== *)
(** ** The values of the contact record *)
(* ===================================================================== *)

Lemma test_iff :
  forall (r : re) (s : str),
    test r s = true
    <-> exists before rest p' s' c',
          s = before ++ rest
          /\ matches r (lastOr None before) rest [] p' s' c'.
Proof.
  intros r s. split; [apply test_sound|].
  intros (before & rest & p' & s' & c' & -> & H).
  exact (test_complete _ _ _ _ _ _ H).
Qed.

Lemma test_alt_iff :
  forall (a b : re) (s : str),
    test (Alt a b) s = true <-> test a s = true \/ test b s = true.
Proof.
  intros a b s. rewrite !test_iff. split.
  - intros (before & rest & p' & s' & c' & Hs & H). inv H;
      [left | right]; exists before, rest, p', s', c'; split;
      first [reflexivity | assumption].
  - intros [H|H]; destruct H as (before & rest & p' & s' & c' & Hs & H);
      exists before, rest, p', s', c'; (split; [exact Hs|]);
      [apply MAltL | apply MAltR]; exact H.
Qed.

(** A literal under the i flag is found exactly in the strings that hold
    it in some letter case. *)
Lemma test_literal_iff :
  forall (w : string) (v : str),
    test (LitI w) v = true <-> holdsIgnoringCase (lit w) v.
Proof.
  intros w v. rewrite test_iff. unfold holdsIgnoringCase. split.
  - intros (before & rest & p' & s' & c' & -> & H).
    apply literal_iff in H. destruct H as (pre & -> & Hpre & _).
    exists before, pre, s'. split; [reflexivity | exact Hpre].
  - intros (a & m & b & -> & Hm).
    exists a, (m ++ b), (lastOr (lastOr None a) m), b, [].
    split; [reflexivity|]. apply literal_iff.
    exists m. repeat split. exact Hm.
Qed.

(** What the phone pattern demands: nine units at least, a digit among
    them. *)
Lemma phone_shape :
  forall v : str,
    isPhone v = true -> 9 <= length v /\ existsb isDigit v = true.
Proof.
  intros v H. unfold isPhone in H. apply test_sound in H.
  destruct H as (before & rest & p' & s' & c' & -> & H).
  unfold rePhone, AtLeast, Digit in H. cbn [Seq Rep] in H.
  inv H.
  match goal with H : matches (Opt _) _ _ _ _ _ _ |- _ =>
    apply matches_prefix in H; destruct H as (pre0 & -> & _) end.
  repeat match goal with
         | H : matches (Cat _ _) _ _ _ _ _ _ |- _ => inv H
         | H : matches (Cls _) _ _ _ _ _ _ |- _ => inv H
         | H : matches Eps _ _ _ _ _ _ |- _ => inv H
         end.
  match goal with H : matches (Star _) _ _ _ _ _ _ |- _ =>
    apply matches_prefix in H; destruct H as (pre1 & -> & _) end.
  split.
  - rewrite !length_app. cbn [length]. rewrite !length_app. cbn [length].
    lia.
  - rewrite !existsb_app. cbn [existsb].
    match goal with H : isDigit _ = true |- _ => rewrite H end.
    rewrite !orb_true_r. reflexivity.
Qed.

Lemma contactParts_clean :
  forall (secondLine t : str),
    In t (contactParts secondLine) -> t <> [] /\ trimmed t /\ ~ In PIPE t.
Proof.
  intros s t H. split; [exact (contactParts_nonEmpty s t H)|].
  unfold contactParts in H. apply filter_In in H. destruct H as [H _].
  apply in_map_iff in H. destruct H as (y & <- & Hy).
  split; [apply trim_trimmed|].
  intros Hc. apply trim_In in Hc. exact (splitOn_no_sep PIPE s y Hy Hc).
Qed.

Lemma findOrEmpty_token :
  forall (p : str -> bool) (secondLine : str),
    contactToken (findOrEmpty p (contactParts secondLine)).
Proof.
  intros p s. unfold findOrEmpty.
  destruct (find p (contactParts s)) as [x|] eqn:E; [|left; reflexivity].
  right. apply find_some in E. destruct E as [E _].
  destruct (contactParts_clean s x E) as (_ & H1 & H2). split; assumption.
Qed.

(** X20: every value of the contact record is the empty string or a token
    with no white space at either end and no bar.  An email that is not
    empty holds an at sign; a phone, nine units at least and a digit; a
    website, a dot, no at sign and one of malik, sha256, http in some letter
    case; the linkedin and github values hold the name of their site.  The
    location is always empty. *)
Theorem X20_contact_values :
  forall lines : list str,
    exists e ph w li gh,
      contact (extractHeader lines)
      = Some {| email := Some e; phone := Some ph; location := Some [];
                website := Some w; linkedin := Some li; github := Some gh |}
      /\ (contactToken e /\ contactToken ph /\ contactToken w
          /\ contactToken li /\ contactToken gh)
      /\ (e <> [] -> In 64%N e)
      /\ (ph <> [] -> 9 <= length ph /\ existsb isDigit ph = true)
      /\ (w <> [] ->
          In 46%N w /\ ~ In 64%N w
          /\ (holdsIgnoringCase (lit "malik") w
              \/ holdsIgnoringCase (lit "sha256") w
              \/ holdsIgnoringCase (lit "http") w))
      /\ (li <> [] -> holdsIgnoringCase (lit "linkedin.com") li)
      /\ (gh <> [] -> holdsIgnoringCase (lit "github.com") gh).
Proof.
  intros lines.
  set (parts := contactParts (orEmpty (get (nonBlank lines) 1))).
  exists (findOrEmpty isEmail parts), (findOrEmpty isPhone parts),
         (findOrEmpty isWebsite parts), (findOrEmpty isLinkedin parts),
         (findOrEmpty isGithub parts).
  split; [reflexivity|].
  split; [repeat split; apply findOrEmpty_token|].
  split; [|split; [|split; [|split]]]; intros H.
  - apply (findOrEmpty_holds _ _ _ eq_refl) in H.
    apply test_chr_iff. exact H.
  - apply (findOrEmpty_holds _ _ _ eq_refl) in H.
    apply phone_shape. exact H.
  - apply (findOrEmpty_holds _ _ _ eq_refl) in H.
    revert H. generalize (findOrEmpty isWebsite parts) as w0. intros w0 H.
    unfold isWebsite in H. apply andb_true_iff in H. destruct H as [H H3].
    apply andb_true_iff in H. destruct H as [H1 H2].
    apply negb_true_iff in H2.
    split; [apply test_chr_iff; exact H1|].
    split; [intros Hc; apply test_chr_iff in Hc; unfold reAt in H2;
            rewrite Hc in H2; discriminate|].
    unfold reSite in H3. cbn [Alts] in H3.
    apply test_alt_iff in H3. destruct H3 as [H3|H3];
      [left; apply test_literal_iff; exact H3|].
    apply test_alt_iff in H3. destruct H3 as [H3|H3];
      [right; left | right; right]; apply test_literal_iff; exact H3.
  - apply (findOrEmpty_holds _ _ _ eq_refl) in H.
    apply test_literal_iff. exact H.
  - apply (findOrEmpty_holds _ _ _ eq_refl) in H.
    apply test_literal_iff. exact H.
Qed.

(* ===================================================================== *)
(** ** Splitting a text that was joined *)
(* ===================================================================== *)

Lemma splitOn_last :
  forall (sep : char) (s : str), exists i l, splitOn sep s = i ++ [l].
Proof.
  intros sep s. destruct (splitOn_cons sep s) as (h & r & E).
  destruct (exists_last (l := splitOn sep s)) as (i & l & H);
    [rewrite E; discriminate|].
  exists i, l. exact H.
Qed.

(** The pieces of two texts put end to end: the last piece of the first
    and the first piece of the second become one. *)
Lemma splitOn_app :
  forall (sep : char) (a b : str) (i : list str) (l h : str) (r : list str),
    splitOn sep a = i ++ [l] -> splitOn sep b = h :: r ->
    splitOn sep (a ++ b) = i ++ (l ++ h) :: r.
Proof.
  intros sep a; induction a as [|x a IH]; intros b i l h r Ha Hb.
  - simpl in Ha. destruct i as [|i0 i].
    + injection Ha as <-. exact Hb.
    + injection Ha as _ Ha. destruct i; discriminate.
  - cbn [app splitOn] in Ha |- *. destruct (x =? sep)%N.
    + destruct i as [|i0 i].
      * injection Ha as _ Ha.
        destruct (splitOn_cons sep a) as (h' & r' & E).
        rewrite E in Ha. discriminate.
      * injection Ha as <- Ha. rewrite (IH b i l h r Ha Hb). reflexivity.
    + destruct (splitOn_cons sep a) as (h' & r' & E). rewrite E in Ha.
      destruct i as [|i0 i].
      * injection Ha as <- ->.
        rewrite (IH b [] h' h r E Hb). reflexivity.
      * injection Ha as <- ->.
        rewrite (IH b (h' :: i) l h r E Hb). reflexivity.
Qed.

Lemma splitOn_none :
  forall (sep : char) (s : str), ~ In sep s -> splitOn sep s = [s].
Proof.
  intros sep s; induction s as [|c s IH]; intros H; simpl.
  - reflexivity.
  - destruct (c =? sep)%N eqn:E.
    + apply N.eqb_eq in E. exfalso. apply H. left. exact E.
    + rewrite IH; [reflexivity|]. intros Hc. apply H. right. exact Hc.
Qed.

Lemma splitOn_join :
  forall (sep : char) (L : list str),
    (forall l, In l L -> ~ In sep l) -> L <> [] ->
    splitOn sep (join [sep] L) = L.
Proof.
  intros sep L; induction L as [|x L IH]; intros H Hne; [contradiction|].
  destruct L as [|y L].
  - simpl. apply splitOn_none. apply H. left. reflexivity.
  - change (join [sep] (x :: y :: L)) with (x ++ sep :: join [sep] (y :: L)).
    rewrite (splitOn_app sep x (sep :: join [sep] (y :: L)) [] x []
               (y :: L)).
    + rewrite app_nil_r. reflexivity.
    + apply splitOn_none. apply H. left. reflexivity.
    + cbn [splitOn]. rewrite N.eqb_refl. rewrite IH; [reflexivity| |discriminate].
      intros l Hl. apply H. right. exact Hl.
Qed.

(* ===================================================================== *)
(** ** The lines of a section *)
(* ===================================================================== *)

Lemma trim_cons_space :
  forall (c : char) (s : str), isSpace c = true -> trim (c :: s) = trim s.
Proof.
  intros c s H. unfold trim, trimStart. simpl. rewrite H. reflexivity.
Qed.

Lemma dropWhile_all :
  forall (p : char -> bool) (a : str),
    forallb p a = true -> dropWhile p a = [].
Proof.
  intros p a; induction a as [|x a IH]; simpl; [reflexivity|].
  intros H. apply andb_true_iff in H. destruct H as [Hx Ha].
  rewrite Hx. apply IH. exact Ha.
Qed.

Lemma dropWhile_app_some :
  forall (p : char -> bool) (a b : str),
    forallb p a = false -> dropWhile p (a ++ b) = dropWhile p a ++ b.
Proof.
  intros p a b; induction a as [|x a IH]; simpl; [discriminate|].
  destruct (p x); simpl; [exact IH | reflexivity].
Qed.

Lemma trim_snoc_space :
  forall (c : char) (l : str), isSpace c = true -> trim (l ++ [c]) = trim l.
Proof.
  intros c l H. unfold trim, trimStart.
  destruct (forallb isSpace l) eqn:E.
  - rewrite (dropWhile_all isSpace l E).
    rewrite (dropWhile_all isSpace (l ++ [c])); [reflexivity|].
    rewrite forallb_app, E. simpl. rewrite H. reflexivity.
  - rewrite (dropWhile_app_some isSpace l [c] E).
    unfold trimEnd. rewrite rev_app_distr. simpl. rewrite H. reflexivity.
Qed.

(** White space at either end of a text adds no line to it. *)
Lemma sectionLines_cons_space :
  forall (c : char) (t : str),
    isSpace c = true -> sectionLines (c :: t) = sectionLines t.
Proof.
  intros c t H. unfold sectionLines. cbn [splitOn].
  destruct (c =? NL)%N.
  - reflexivity.
  - destruct (splitOn_cons NL t) as (h & r & ->). cbn [map].
    rewrite (trim_cons_space c h H). reflexivity.
Qed.

Lemma sectionLines_snoc_space :
  forall (c : char) (t : str),
    isSpace c = true -> sectionLines (t ++ [c]) = sectionLines t.
Proof.
  intros c t H. unfold sectionLines.
  destruct (splitOn_last NL t) as (i & l & E).
  destruct (c =? NL)%N eqn:Ec.
  - rewrite (splitOn_app NL t [c] i l [] [[]] E);
      [|simpl; rewrite Ec; reflexivity].
    rewrite E, app_nil_r.
    change (i ++ [l; []]) with (i ++ [l] ++ [[]]).
    rewrite app_assoc, map_app, filter_app. simpl. apply app_nil_r.
  - rewrite (splitOn_app NL t [c] i l [c] [] E);
      [|simpl; rewrite Ec; reflexivity].
    rewrite E, !map_app. cbn [map]. rewrite (trim_snoc_space c l H).
    reflexivity.
Qed.

Lemma sectionLines_trimStart :
  forall t : str, sectionLines (trimStart t) = sectionLines t.
Proof.
  intros t. unfold trimStart. induction t as [|c t IH]; [reflexivity|].
  simpl. destruct (isSpace c) eqn:E; [|reflexivity].
  rewrite (sectionLines_cons_space c t E). exact IH.
Qed.

Lemma sectionLines_trimEnd :
  forall t : str, sectionLines (trimEnd t) = sectionLines t.
Proof.
  intros t. unfold trimEnd. induction t as [|c t IH] using rev_ind;
    [reflexivity|].
  rewrite rev_app_distr. simpl. destruct (isSpace c) eqn:E.
  - rewrite (sectionLines_snoc_space c t E). exact IH.
  - simpl. rewrite rev_involutive. reflexivity.
Qed.

Lemma sectionLines_trim :
  forall t : str, sectionLines (trim t) = sectionLines t.
Proof.
  intros t. unfold trim.
  rewrite sectionLines_trimEnd. apply sectionLines_trimStart.
Qed.

Lemma sectionLines_join :
  forall L : list str,
    (forall l, In l L -> ~ In NL l) ->
    sectionLines (join [NL] L) = filter nonEmpty (map trim L).
Proof.
  intros L H. unfold sectionLines. destruct L as [|x L]; [reflexivity|].
  rewrite (splitOn_join NL (x :: L) H); [reflexivity | discriminate].
Qed.

Lemma sliceArr_In :
  forall (A : Type) (a b : nat) (l : list A) (x : A),
    In x (sliceArr a b l) -> In x l.
Proof.
  intros A a b l x H. unfold sliceArr in H.
  rewrite <- (firstn_skipn a l). apply in_or_app. right.
  rewrite <- (firstn_skipn (b - a) (skipn a l)). apply in_or_app. left.
  exact H.
Qed.

Lemma map_fixed :
  forall (L : list str), (forall l, In l L -> trim l = l) -> map trim L = L.
Proof.
  intros L; induction L as [|x L IH]; intros H; simpl; [reflexivity|].
  rewrite (H x (or_introl eq_refl)), IH; [reflexivity|].
  intros l Hl. apply H. right. exact Hl.
Qed.

(** The lines of the text of a region are the non-blank lines of the
    document in that region. *)
Lemma sectionText_lines :
  forall (text : str) (a b : nat),
    sectionLines (sectionText (map trim (splitOn NL text)) a b)
    = filter nonEmpty (sliceArr a b (map trim (splitOn NL text))).
Proof.
  intros text a b. unfold sectionText.
  rewrite sectionLines_trim, sectionLines_join.
  - rewrite map_fixed; [reflexivity|].
    intros l Hl. apply sliceArr_In in Hl. apply in_map_iff in Hl.
    destruct Hl as (y & <- & _). apply trim_idem.
  - intros l Hl. apply sliceArr_In in Hl. apply in_map_iff in Hl.
    destruct Hl as (y & <- & Hy). intros Hc. apply trim_In in Hc.
    exact (splitOn_no_sep NL text y Hy Hc).
Qed.

Lemma fillSections_values :
  forall (P : str -> Prop) (hl : list HeaderLine) (lines : list str),
    (forall a b, P (sectionText lines a b)) ->
    forall (n i : nat) (sections r : list (Key * str)),
      fillSections hl lines n i sections = Ok r ->
      (forall k s, In (k, s) sections -> P s) ->
      forall k s, In (k, s) r -> P s.
Proof.
  intros P hl lines HP n; induction n as [|n IH];
    intros i sections r H Hs k s Hin.
  - cbn in H. injection H as <-. exact (Hs k s Hin).
  - cbn [fillSections] in H.
    destruct (boundsAt hl (length lines) i) as [[[k0 a] b]| |];
      try discriminate.
    cbn [bind] in H. refine (IH _ _ _ H _ k s Hin).
    intros k1 s1 H1. apply (tableSet_in _ _ key_eqb key_eqb_eq) in H1.
    destruct H1 as [H1|H1]; [|exact (Hs _ _ H1)].
    injection H1 as -> ->. apply HP.
Qed.

(** Every text in [sections] is the text of a region of the document. *)
Lemma parseSections_values :
  forall (text : str) (p : Parsed) (k : Key) (sec : str),
    parseSections text = Ok p ->
    In (k, sec) (pSections p) ->
    exists a b, sec = sectionText (map trim (splitOn NL text)) a b.
Proof.
  intros text p k sec Hp Hin. unfold parseSections in Hp.
  destruct (fillSections _ _ _ _ _) as [secs| |] eqn:E; try discriminate.
  cbn [bind] in Hp. injection Hp as <-. cbn [pSections] in Hin.
  refine (fillSections_values
            (fun s => exists a b,
                        s = sectionText (map trim (splitOn NL text)) a b)
            _ _ (fun a b => ex_intro _ a (ex_intro _ b eq_refl))
            _ _ _ _ E _ k sec Hin).
  intros k1 s1 [H|[]]. injection H as _ <-. eexists _, _. reflexivity.
Qed.

(** X21: every text the segmenter stores for a section has no white space
    at either end, and its non-blank lines are the non-blank lines of the
    document in one range of line numbers: the extractors read lines of
    the document and nothing else. *)
Theorem X21_section_lines :
  forall (text : str) (p : Parsed) (k : Key) (sec : str),
    parseSections text = Ok p ->
    In (k, sec) (pSections p) ->
    trimmed sec
    /\ (exists a b,
          sectionLines sec
          = filter nonEmpty (sliceArr a b (map trim (splitOn NL text))))
    /\ forall l, In l (sectionLines sec) -> In l (sectionLines text).
Proof.
  intros text p k sec Hp Hin.
  destruct (parseSections_values text p k sec Hp Hin) as (a & b & ->).
  split; [apply trim_trimmed|]. split.
  - exists a, b. apply sectionText_lines.
  - intros l Hl. rewrite sectionText_lines in Hl.
    apply filter_In in Hl. destruct Hl as [Hl Hn].
    apply sliceArr_In in Hl. unfold sectionLines. apply filter_In.
    split; [|exact Hn]. apply in_map_iff in Hl.
    destruct Hl as (y & <- & Hy). apply in_map. exact Hy.
Qed.

Lemma X21_section_lines_witness :
  trimmed (unlines [lit "MIT, Cambridge MA"; lit "BS CS May 2020"])
  /\ (exists a b,
        sectionLines (unlines [lit "MIT, Cambridge MA"; lit "BS CS May 2020"])
        = filter nonEmpty (sliceArr a b (map trim (splitOn NL docNoHeader))))
  /\ forall l,
       In l (sectionLines
               (unlines [lit "MIT, Cambridge MA"; lit "BS CS May 2020"])) ->
       In l (sectionLines docNoHeader).
Proof.
  eapply (X21_section_lines docNoHeader _ KEducation).
  - vm_compute. reflexivity.
  - right. left. reflexivity.
Defined.

(* ===================================================================== *)
(** ** The summary *)
(* ===================================================================== *)

(** Removing the label from the start of the summary section: nothing is
    removed, or one leading word that reads Summary or Objective. *)
Lemma summaryLabel_strip :
  forall s : str,
    replaceFirst reSummaryLabel [] s = s
    \/ exists w rest,
         s = w ++ rest /\ labelText KSummary w
         /\ replaceFirst reSummaryLabel [] s = rest.
Proof.
  intros s. unfold replaceFirst, exec.
  destruct (execFrom reSummaryLabel None s 0) as [h|] eqn:E;
    [right | left; reflexivity].
  destruct (execFrom_sound _ _ _ _ _ E)
    as (before & rest0 & p' & -> & Hi & _ & Hm).
  unfold reSummaryLabel in Hm. cbn [Seq] in Hm. inv Hm.
  match goal with H : matches Bol _ _ _ _ _ _ |- _ => inv H end.
  match goal with H : None = lastOr None _ |- _ =>
    symmetry in H; apply lastOr_none in H; subst before end.
  match goal with H : matches (Cat WordB _) _ _ _ _ _ _ |- _ => inv H end.
  match goal with H : matches WordB _ _ _ _ _ _ |- _ => inv H end.
  match goal with H : matches (Cat _ WordB) _ _ _ _ _ _ |- _ => inv H end.
  match goal with H : matches WordB _ _ _ _ _ _ |- _ => inv H end.
  cbn [length] in Hi. rewrite Hi. cbn [app firstn].
  match goal with H : matches (Alt _ _) _ _ _ _ _ _ |- _ => inv H end;
    match goal with H : matches (LitI _) _ _ _ _ _ _ |- _ =>
      apply literal_iff in H; destruct H as (pre & -> & Hpre & _) end;
    exists pre, (after h); (split; [reflexivity|]);
    (split; [|reflexivity]); [left | right]; exact Hpre.
Qed.

(** X22: the record has a summary only when the text has a summary
    section; the summary is never empty and has no white space at either
    end; it is the text of that section, or what follows one leading word
    Summary or Objective (in any letter case) of it, trimmed. *)
Theorem X22_summary_value :
  forall text : str,
    exists p r,
      parseSections text = Ok p
      /\ assemble text = Ok r
      /\ forall s,
           summary r = Some s ->
           s <> [] /\ trimmed s
           /\ exists sec,
                tableGet key_eqb KSummary (pSections p) = Some sec
                /\ (s = sec
                    \/ exists w rest,
                         sec = w ++ rest /\ labelText KSummary w
                         /\ s = trim rest).
Proof.
  intros text. destruct (assemble_total text) as (r & Hr).
  pose proof Hr as Hr'. unfold assemble in Hr'.
  destruct (parseSections text) as [p| |] eqn:Ep; try discriminate.
  cbn [bind] in Hr'. exists p, r. split; [reflexivity|].
  split; [exact Hr|].
  destruct (extractExperience (sectionOr KExperience (pSections p)))
    as [ex| |]; try discriminate. cbn [bind] in Hr'.
  destruct (extractProjects (sectionOr KProjects (pSections p)))
    as [pr| |]; try discriminate. cbn [bind] in Hr'.
  destruct (extractEducation (sectionOr KEducation (pSections p)))
    as [ed| |]; try discriminate. cbn [bind] in Hr'.
  injection Hr' as <-. cbn [summary]. intros s Hs.
  destruct (tableGet key_eqb KSummary (pSections p)) as [sec|] eqn:Eg;
    [|discriminate].
  cbv zeta in Hs.
  destruct (nonEmpty (trim (replaceFirst reSummaryLabel [] sec))) eqn:En;
    [|discriminate].
  injection Hs as <-.
  split; [intros E0; rewrite E0 in En; discriminate|].
  split; [apply trim_trimmed|].
  exists sec. split; [reflexivity|].
  destruct (summaryLabel_strip sec) as [H|(w & rest & Hw & Hl & H)].
  - left. rewrite H.
    apply (tableGet_in _ _ key_eqb key_eqb_eq) in Eg.
    destruct (parseSections_values text p KSummary sec Ep Eg) as (a & b & ->).
    apply trim_idem.
  - right. exists w, rest. rewrite H. repeat split; assumption.
Qed.

(* ===================================================================== *)
(** ** The lines the skills extractor accepts *)
(* ===================================================================== *)

Lemma split_at_first :
  forall (c : char) (a a' t t' : str),
    ~ In c a -> ~ In c a' -> a ++ c :: t = a' ++ c :: t' ->
    a = a' /\ t = t'.
Proof.
  intros c a; induction a as [|x a IH]; intros a' t t' Ha Ha' H.
  - destruct a' as [|y a'].
    + injection H as ->. split; reflexivity.
    + injection H as <- _. exfalso. apply Ha'. left. reflexivity.
  - destruct a' as [|y a'].
    + injection H as -> _. exfalso. apply Ha. left. reflexivity.
    + injection H as <- H.
      destruct (IH a' t t') as [-> ->]; try assumption.
      * intros Hc. apply Ha. right. exact Hc.
      * intros Hc. apply Ha'. right. exact Hc.
      * split; reflexivity.
Qed.

Lemma category_no_colon :
  forall cat : str, forallb isCategoryUnit cat = true -> ~ In 58%N cat.
Proof.
  intros cat H Hc. pose proof (forallb_In _ _ _ H Hc) as E.
  vm_compute in E. discriminate.
Qed.

Lemma trim_app_space :
  forall ws r : str, forallb isSpace ws = true -> trim (ws ++ r) = trim r.
Proof.
  intros ws r; induction ws as [|c ws IH]; intros H; [reflexivity|].
  simpl in H. apply andb_true_iff in H. destruct H as [Hc Hw].
  cbn [app]. rewrite (trim_cons_space c _ Hc). apply IH. exact Hw.
Qed.

(** A line of the shape of a skill line is matched by the pattern. *)
Lemma skillLine_matched :
  forall cat ws rest : str,
    cat <> [] -> forallb isCategoryUnit cat = true ->
    forallb isSpace ws = true ->
    forallb (fun c => negb (isLineTerminator c)) rest = true ->
    exec reSkillLine (cat ++ 58%N :: ws ++ rest) <> None.
Proof.
  intros cat ws rest Hne Hcat Hws Hrest. unfold exec.
  apply (execFrom_complete reSkillLine [] _ None 0
           (lastOr (lastOr (Some 58%N) ws) rest) []
           [(2, rest); (1, cat)]).
  rewrite lastOr_nil. unfold reSkillLine. cbn [Seq app].
  eapply MCat; [apply MBol|].
  eapply MCat.
  { pose proof (MGroup 1 _ None (cat ++ 58%N :: ws ++ rest) [] _ _ _
                  (plus_cls_matches _ cat None (58%N :: ws ++ rest) []
                     Hne Hcat)) as G.
    rewrite firstn_consumed in G. exact G. }
  eapply MCat; [apply MCls; reflexivity|].
  eapply MCat;
    [exact (star_cls_matches isSpace ws (Some 58%N) rest _ Hws)|].
  eapply MCat; [|apply MEol].
  pose proof (MGroup 2 _ (lastOr (Some 58%N) ws) (rest ++ []) [(1, cat)] _ _ _
                (star_cls_matches _ rest (lastOr (Some 58%N) ws) [] _ Hrest))
    as G.
  rewrite firstn_consumed in G. rewrite app_nil_r in G. exact G.
Qed.

(** X23: a line contributes a category to the skills object exactly when
    it is a non-empty run of letters and spaces, a colon, white space, and
    a rest without line terminators; the category is that run, trimmed,
    and the tokens are those of the rest, trimmed, without repetitions. *)
Theorem X23_skill_line :
  forall (line : str) (e : str * list str),
    skillEntry line = Some e
    <-> exists cat ws rest,
          line = cat ++ 58%N :: ws ++ rest
          /\ cat <> []
          /\ forallb isCategoryUnit cat = true
          /\ forallb isSpace ws = true
          /\ forallb (fun c => negb (isLineTerminator c)) rest = true
          /\ e = (trim cat, dedupe (skillParts (trim rest))).
Proof.
  intros line e. split.
  - intros H. destruct e as [c toks].
    destruct (skillEntry_tokens line c toks H) as (_ & m & Hm & -> & ->).
    destruct (skillLine_shape line m Hm)
      as (cat & ws & rest & Hl & Hne & Hq & Hws & H1 & H2 & Hdot).
    exists cat, ws, rest. rewrite H1, H2.
    repeat split; assumption.
  - intros (cat & ws & rest & -> & Hne & Hcat & Hws & Hrest & ->).
    pose proof (skillLine_matched cat ws rest Hne Hcat Hws Hrest) as E.
    unfold skillEntry.
    destruct (exec reSkillLine (cat ++ 58%N :: ws ++ rest)) as [m|] eqn:Em;
      [|contradiction].
    destruct (skillLine_shape _ m Em)
      as (cat' & ws' & rest' & Hl & Hne' & Hq' & Hws' & H1 & H2 & _).
    cbn [app] in Hl.
    destruct (split_at_first 58%N cat cat' _ _
                (category_no_colon cat Hcat) (category_no_colon cat' Hq') Hl)
      as [<- Ht].
    rewrite H1, H2.
    assert (Et : trim rest = trim rest').
    { rewrite <- (trim_app_space ws rest Hws).
      rewrite <- (trim_app_space ws' rest' Hws'). f_equal. exact Ht. }
    rewrite Et. reflexivity.
Qed.

(* ===================================================================== *)
(** ** The texts of a project *)
(* ===================================================================== *)

(** A string that neither starts nor ends with white space is trimmed. *)
Lemma trimmed_of_ends :
  forall (x y : char) (l l' : str),
    x :: l = l' ++ [y] -> isSpace x = false -> isSpace y = false ->
    trimmed (x :: l).
Proof.
  intros x y l l' E Hx Hy. unfold trimmed, trim, trimStart.
  cbn [dropWhile]. rewrite Hx. unfold trimEnd. rewrite E.
  rewrite rev_app_distr. cbn [rev app dropWhile]. rewrite Hy.
  cbn [rev]. rewrite rev_involutive. reflexivity.
Qed.

(** Two trimmed texts with anything between them. *)
Lemma trimmed_app :
  forall a m b : str,
    a <> [] -> trimmed a -> b <> [] -> trimmed b -> trimmed (a ++ m ++ b).
Proof.
  intros a m b Ha Hta Hb Htb.
  destruct a as [|x a]; [contradiction|].
  destruct (last_case b) as [->|(b' & y & ->)]; [contradiction|].
  apply (trimmed_of_ends x y (a ++ m ++ b' ++ [y]) ((x :: a) ++ m ++ b')).
  - cbn [app]. rewrite <- !app_assoc. reflexivity.
  - exact (trimmed_head _ _ Hta).
  - exact (trimmed_last _ _ Htb).
Qed.

Lemma description_trimmed :
  forall (d : option str) (line : str),
    (forall d0, d = Some d0 -> trimmed d0) ->
    line <> [] -> trimmed line ->
    trimmed (join [SPACE] (filter nonEmpty (optList d ++ [line]))).
Proof.
  intros [d0|] line Hd Hne Ht; cbn [optList app filter].
  - destruct d0 as [|c t] eqn:E; cbn [nonEmpty];
      destruct line as [|y r]; try contradiction; cbn [nonEmpty filter join].
    + exact Ht.
    + apply trimmed_app; try assumption; try discriminate.
      apply Hd. reflexivity.
  - destruct line as [|y r]; [contradiction|]. exact Ht.
Qed.

Lemma clean_fresh :
  forall n : str,
    trimmed n ->
    cleanProjectText {| name := Some n; description := Some [];
                        tech := Some []; link := None; bullets := Some [] |}.
Proof.
  intros n H. unfold cleanProjectText. cbn.
  split; [intros n0 E; injection E as <-; exact H|].
  split; [intros d E; injection E as <-; reflexivity|].
  split; [intros l E; discriminate | intros x []].
Qed.

Lemma ensureCurrent_clean :
  forall cur p,
    (forall p0, cur = Some p0 -> cleanProjectText p0) ->
    ensureCurrent cur = Some p -> cleanProjectText p.
Proof.
  intros [p0|] p H E; simpl in E; injection E as <-.
  - apply H. reflexivity.
  - apply clean_fresh. reflexivity.
Qed.

Lemma addTech_clean :
  forall raw cur cur' p,
    (forall p0, cur = Some p0 -> cleanProjectText p0) ->
    addTech raw cur = Ok cur' -> cur' = Some p -> cleanProjectText p.
Proof.
  intros raw cur cur' p H E Ep. unfold addTech in E.
  destruct (ensureCurrent cur) as [p0|] eqn:E0; [|discriminate].
  cbn [bind must] in E. injection E as <-. injection Ep as <-.
  exact (ensureCurrent_clean cur p0 H E0).
Qed.

Lemma withLink_clean :
  forall p l,
    cleanProjectText p -> trimmed l -> cleanProjectText (withLink p l).
Proof.
  intros p l (A & B & C & D) H. unfold cleanProjectText. cbn.
  split; [exact A|]. split; [exact B|]. split; [|exact D].
  intros l0 E. injection E as <-. exact H.
Qed.

Lemma withBullets_clean :
  forall p bs,
    cleanProjectText p ->
    (forall x, In x bs -> x <> [] /\ trimmed x) ->
    cleanProjectText (withBullets p bs).
Proof.
  intros p bs (A & B & C & D) H. unfold cleanProjectText. cbn.
  split; [exact A|]. split; [exact B|]. split; [exact C | exact H].
Qed.

Lemma withDescription_clean :
  forall p d,
    cleanProjectText p -> trimmed d -> cleanProjectText (withDescription p d).
Proof.
  intros p d (A & B & C & D) H. unfold cleanProjectText. cbn.
  split; [exact A|]. split; [|split; [exact C | exact D]].
  intros d0 E. injection E as <-. exact H.
Qed.

Lemma pushCurrent_clean :
  forall st, cleanState st -> Forall cleanProjectText (pushCurrent st).
Proof.
  intros st [Hi Hc]. unfold pushCurrent. apply Forall_app. split; [exact Hi|].
  destruct (current st) as [p|]; simpl; [|constructor].
  constructor; [apply Hc; reflexivity | constructor].
Qed.

Ltac clean_current st Hst :=
  match goal with
  | H : context [ensureCurrent (current st)] |- _ =>
      let p := fresh "p" in
      let Ep := fresh "Ep" in
      let Hp := fresh "Hp" in
      destruct (ensureCurrent (current st)) as [p|] eqn:Ep;
      [ pose proof (ensureCurrent_clean _ _ (proj2 Hst) Ep) as Hp
      | discriminate ]
  end.

(** One round of the loop keeps the texts clean. *)
Lemma projectStep_clean :
  forall (lines : list str) i st c,
    (forall j l, get lines j = Some l -> l <> [] /\ trimmed l) ->
    projectStep lines i st = Ok c ->
    cleanState st -> cleanState (stateOf c).
Proof.
  intros lines i st c Hl H Hst. unfold projectStep in H.
  destruct (get lines i) as [line|] eqn:Eline; [|discriminate].
  cbn [bind must] in H. destruct (Hl _ _ Eline) as [Hne Htr].
  destruct (test reOthers line).
  { injection H as <-.
    split; [apply pushCurrent_clean; exact Hst | apply Hst]. }
  destruct (includes PIPE line).
  { destruct (get (firstn 2 (splitOn PIPE line)) 0) as [left|];
      [|discriminate]. cbn [bind must] in H.
    match type of H with
    | bind ?c0 _ = _ => destruct c0 as [cur| |] eqn:Ec; try discriminate
    end.
    cbn [bind] in H. injection H as <-. cbn [stateOf].
    split; [apply pushCurrent_clean; exact Hst|]. cbn [current].
    intros p Ep.
    destruct (get (firstn 2 (splitOn PIPE line)) 1) as [[|x right]|].
    - injection Ec as <-. injection Ep as <-.
      apply clean_fresh, trim_trimmed.
    - refine (addTech_clean _ _ _ p _ Ec Ep).
      intros p0 E0. injection E0 as <-. apply clean_fresh, trim_trimmed.
    - injection Ec as <-. injection Ep as <-.
      apply clean_fresh, trim_trimmed. }
  destruct (test reUrlStart line).
  { clean_current st Hst. cbn [bind must] in H. injection H as <-.
    split; [apply Hst|]. cbn. intros q Eq. injection Eq as <-.
    apply withLink_clean; [assumption | apply trim_trimmed]. }
  destruct (str_eqb line [BULLET] && (i + 1 <? length lines)).
  { clean_current st Hst. cbn [bind must] in H.
    destruct (get lines (i + 1)) as [next|] eqn:En; [|discriminate].
    cbn [bind must] in H. injection H as <-.
    split; [apply Hst|]. cbn. intros q Eq. injection Eq as <-.
    apply withBullets_clean; [assumption|].
    intros x Hx. apply in_app_or in Hx.
    destruct Hx as [Hx|[<-|[]]]; [apply Hp; exact Hx | exact (Hl _ _ En)]. }
  destruct (startsWith [BULLET; SPACE] line) eqn:Es.
  { clean_current st Hst. cbn [bind must] in H. injection H as <-.
    split; [apply Hst|]. cbn. intros q Eq. injection Eq as <-.
    apply withBullets_clean; [assumption|].
    intros x Hx. apply in_app_or in Hx.
    destruct Hx as [Hx|[<-|[]]]; [apply Hp; exact Hx|].
    exact (bullet_text_clean line Htr Es). }
  destruct (bulletsStarted st
            && match current st with
               | Some p => 0 <? length (orNil (bullets p))
               | None => false
               end).
  { destruct (current st) as [p|] eqn:Ec; [|discriminate].
    cbn [bind must] in H.
    destruct (bullets p) as [bs|] eqn:Eb; [|discriminate].
    cbn [bind must] in H.
    destruct (get bs (length bs - 1)) as [lastB|] eqn:Elast; [|discriminate].
    cbn [bind must] in H. injection H as <-.
    pose proof (proj2 Hst p Ec) as Hp.
    split; [apply Hst|]. cbn. intros q Eq. injection Eq as <-.
    apply withBullets_clean; [exact Hp|].
    destruct Hp as (_ & _ & _ & D). rewrite Eb in D. cbn [orNil] in D.
    intros x Hx. apply setAt_In in Hx. destruct Hx as [->|Hx]; [|exact (D x Hx)].
    split; [|apply trim_trimmed].
    destruct (D lastB (get_In _ _ _ _ Elast)) as [L1 L2].
    destruct lastB as [|c0 t]; [contradiction|].
    cbn [app]. apply trim_head_kept. exact (trimmed_head _ _ L2). }
  destruct (looksLikeTech line).
  { destruct (addTech line (current st)) as [cur| |] eqn:Ea; try discriminate.
    cbn [bind] in H. injection H as <-.
    split; [apply Hst|]. cbn. intros q Eq.
    exact (addTech_clean _ _ _ q (proj2 Hst) Ea Eq). }
  clean_current st Hst. cbn [bind must] in H. injection H as <-.
  split; [apply Hst|]. cbn. intros q Eq. injection Eq as <-.
  apply withDescription_clean; [assumption|].
  apply description_trimmed; try assumption. apply Hp.
Qed.

Lemma projectLoop_clean :
  forall fuel (lines : list str) i st st',
    (forall j l, get lines j = Some l -> l <> [] /\ trimmed l) ->
    projectLoop fuel lines i st = Ok st' ->
    cleanState st -> cleanState st'.
Proof.
  induction fuel as [|f IH]; intros lines i st st' Hl H Hst.
  - discriminate.
  - cbn [projectLoop] in H. destruct (i <? length lines).
    + destruct (projectStep lines i st) as [c| |] eqn:Ec; try discriminate.
      cbn [bind] in H. pose proof (projectStep_clean _ _ _ _ Hl Ec Hst) as Hc.
      destruct c as [i' st1|st1]; cbn [stateOf] in Hc.
      * exact (IH _ _ _ _ Hl H Hc).
      * injection H as <-. exact Hc.
    + injection H as <-. exact Hst.
Qed.

(** X24: in every entry the project extractor returns, the name, the
    description and the link have no white space at either end, and every
    bullet is so and is not empty. *)
Theorem X24_project_texts :
  forall section : str,
    exists r,
      extractProjects section = Ok r /\ Forall cleanProjectText r.
Proof.
  intros section. destruct (extractProjects_total section) as (r & Hr).
  exists r. split; [exact Hr|]. unfold extractProjects in Hr.
  destruct (projectLoop _ _ _ _) as [st| |] eqn:El; try discriminate.
  cbn [bind] in Hr. injection Hr as <-.
  apply Forall_forall. intros p Hp. apply dedup_subset in Hp.
  assert (Hst : cleanState st).
  { apply (projectLoop_clean _ _ _ _ _ (lines_all_clean section) El).
    split; [constructor | intros p0 E0; discriminate]. }
  exact (proj1 (Forall_forall _ _) (pushCurrent_clean st Hst) p Hp).
Qed.

(* ===================================================================== *)
(** ** The heading line of an experience entry *)
(* ===================================================================== *)

Lemma matches_minLen :
  forall r p s c p' s' c',
    matches r p s c p' s' c' -> length s' + minLen r <= length s.
Proof.
  intros r p s c p' s' c' H; induction H; cbn [minLen length]; lia.
Qed.

(** A unit that matches a letter under the i flag is a letter. *)
Lemma canon_alpha :
  forall x c : char,
    isAlpha c = true -> canonicalize x = canonicalize c -> isAlpha x = true.
Proof.
  intros x c Hc H. unfold canonicalize, isAlpha, isLower, isUpper in *.
  destruct (inRange 97 122 x) eqn:A; [apply orb_true_r|].
  rewrite orb_false_r.
  destruct (inRange 65 90 x) eqn:B; [reflexivity|]. exfalso.
  destruct (inRange 97 122 c) eqn:C, (inRange 65 90 c) eqn:D;
    try discriminate;
    repeat match goal with
           | H : inRange _ _ _ = true |- _ => apply inRange_true in H
           | H : inRange _ _ _ = false |- _ => apply inRange_false in H
           end; lia.
Qed.

Lemma clsAll_letters :
  forall w : str,
    forallb isAlpha w = true -> clsAll isAlpha (Seq (map ChrI w)).
Proof.
  induction w as [|a w IH]; intros H; [exact I|].
  simpl in H. apply andb_true_iff in H. destruct H as [Ha Hw].
  assert (Hone : clsAll isAlpha (ChrI a)).
  { intros x Hx. apply N.eqb_eq in Hx. exact (canon_alpha x a Ha Hx). }
  destruct w as [|b w]; [exact Hone|].
  change (Seq (map ChrI (a :: b :: w)))
    with (Cat (ChrI a) (Seq (map ChrI (b :: w)))).
  split; [exact Hone | exact (IH Hw)].
Qed.

Lemma monthRe_letters : clsAll isAlpha monthRe.
Proof.
  unfold monthRe. cbn [clsAll Alts Opt].
  repeat match goal with
         | |- _ /\ _ => split
         | |- True => exact I
         | |- clsAll isAlpha (LitI _) =>
             unfold LitI; apply clsAll_letters; reflexivity
         end.
Qed.

Lemma forallb_firstn :
  forall (A : Type) (f : A -> bool) (n : nat) (l : list A),
    forallb f l = true -> forallb f (firstn n l) = true.
Proof.
  intros A f n; induction n as [|n IH]; intros l H; [reflexivity|].
  destruct l as [|x l]; [reflexivity|]. simpl in H |- *.
  apply andb_true_iff in H. destruct H as [Hx Hl].
  rewrite Hx. exact (IH l Hl).
Qed.

(** The search returns the leftmost place where the pattern matches. *)
Lemma execFrom_first :
  forall r s prev i h,
    execFrom r prev s i = Some h ->
    exists before rest,
      s = before ++ rest
      /\ index h = i + length before
      /\ (exists p', matches r (lastOr prev before) rest [] p' (after h)
                       (groups h))
      /\ forall a1 x a2,
           before = a1 ++ x :: a2 ->
           execAt r (lastOr prev a1) (x :: a2 ++ rest) (i + length a1) = None.
Proof.
  intros r s; induction s as [|x t IH]; intros prev i h H; cbn [execFrom] in H.
  - destruct (execAt r prev [] i) as [h'|] eqn:E; [|discriminate].
    injection H as ->. apply execAt_sound in E.
    destruct E as (Hi & _ & p' & Hp).
    exists [], []. cbn [app length]. rewrite Nat.add_0_r, lastOr_nil.
    split; [reflexivity|]. split; [exact Hi|]. split; [exists p'; exact Hp|].
    intros a1 y a2 E. destruct a1; discriminate.
  - destruct (execAt r prev (x :: t) i) as [h'|] eqn:E.
    + injection H as ->. apply execAt_sound in E.
      destruct E as (Hi & _ & p' & Hp).
      exists [], (x :: t). cbn [app length]. rewrite Nat.add_0_r, lastOr_nil.
      split; [reflexivity|]. split; [exact Hi|]. split; [exists p'; exact Hp|].
      intros a1 y a2 E. destruct a1; discriminate.
    + destruct (IH _ _ _ H) as (before & rest & -> & Hi & Hp & Hnone).
      exists (x :: before), rest. rewrite lastOr_cons. cbn [app length].
      split; [reflexivity|]. split; [lia|]. split; [exact Hp|].
      intros a1 y a2 Ea. destruct a1 as [|z a1].
      * cbn [app] in Ea. injection Ea as <- <-.
        rewrite lastOr_nil. cbn [length]. rewrite Nat.add_0_r. exact E.
      * cbn [app] in Ea. injection Ea as <- ->.
        rewrite lastOr_cons. cbn [length].
        replace (i + S (length a1)) with (S i + length a1) by lia.
        apply (Hnone a1 y a2). reflexivity.
Qed.

Lemma exec_leftmost :
  forall r s h,
    exec r s = Some h ->
    exists a b,
      s = a ++ b
      /\ index h = length a
      /\ (exists p', matches r (lastOr None a) b [] p' (after h) (groups h))
      /\ forall a1 a2, a = a1 ++ a2 -> a2 <> [] -> ~ occursAt r a1 (a2 ++ b).
Proof.
  intros r s h H. unfold exec in H.
  destruct (execFrom_first _ _ _ _ _ H) as (a & b & -> & Hi & Hp & Hnone).
  exists a, b. split; [reflexivity|]. split; [exact Hi|]. split; [exact Hp|].
  intros a1 a2 Ea Hne (p' & s' & c' & Hm).
  destruct a2 as [|x a2]; [contradiction|].
  apply (execAt_complete _ _ _ (0 + length a1) _ _ _ Hm).
  apply (Hnone a1 x a2 Ea).
Qed.

(** X25: the heading line of an experience entry is cut where its first
    month name starts: the company is the trimmed text before it and the
    duration the trimmed text from it on, which begins with three letters;
    a line without a month name is the company as a whole, with an empty
    duration. *)
Theorem X25_heading_line_split :
  forall line : str,
    (exec monthRe line = None /\ splitCompany line = (line, []))
    \/ (exists a b,
          line = a ++ b
          /\ occursAt monthRe a b
          /\ (forall a1 a2, a = a1 ++ a2 -> a2 <> [] ->
                            ~ occursAt monthRe a1 (a2 ++ b))
          /\ 3 <= length b /\ forallb isAlpha (firstn 3 b) = true
          /\ splitCompany line = (trim a, trim b)).
Proof.
  intros line. unfold splitCompany.
  destruct (exec monthRe line) as [m|] eqn:E;
    [right | left; split; reflexivity].
  destruct (exec_leftmost _ _ _ E) as (a & b & -> & Hi & (p' & Hm) & Hfirst).
  rewrite Hi.
  rewrite slice_to, sliceFrom_at, firstn_app_exact, skipn_app_exact.
  exists a, b. split; [reflexivity|].
  split; [exists p', (after m), (groups m); exact Hm|].
  split; [exact Hfirst|].
  pose proof (matches_minLen _ _ _ _ _ _ _ Hm) as Hlen.
  change (minLen monthRe) with 3 in Hlen.
  destruct (matches_consumed isAlpha _ _ _ _ _ _ _ Hm monthRe_letters)
    as (pre & Hb & Hpre).
  rewrite Hb in Hlen |- *. rewrite length_app in Hlen |- *.
  split; [lia|]. split; [|reflexivity].
  rewrite firstn_app.
  replace (3 - length pre) with 0 by lia.
  rewrite firstn_O, app_nil_r. apply forallb_firstn. exact Hpre.
Qed.

(* ===================================================================== *)
(** ** When the project extractor returns nothing *)
(* ===================================================================== *)

Lemma addTech_some :
  forall raw cur cur', addTech raw cur = Ok cur' -> cur' <> None.
Proof.
  intros raw cur cur' H. unfold addTech in H.
  destruct (ensureCurrent cur); [|discriminate].
  cbn [bind must] in H. injection H as <-. discriminate.
Qed.

(** Every line but OTHERS leaves a project open, and an open project
    stays open. *)
Lemma projectStep_opens :
  forall (lines : list str) i st c,
    projectStep lines i st = Ok c ->
    current st <> None
    \/ (exists line, get lines i = Some line /\ test reOthers line = false) ->
    current (stateOf c) <> None.
Proof.
  intros lines i st c H Hj. unfold projectStep in H.
  destruct (get lines i) as [line|]; [|discriminate]. cbn [bind must] in H.
  destruct (test reOthers line) eqn:Eo.
  { injection H as <-. cbn. destruct Hj as [Hj|(l & El & Hl)]; [exact Hj|].
    injection El as <-. congruence. }
  destruct (includes PIPE line).
  { destruct (get (firstn 2 (splitOn PIPE line)) 0) as [left|];
      [|discriminate]. cbn [bind must] in H.
    match type of H with
    | bind ?c0 _ = _ => destruct c0 as [cur| |] eqn:Ec; try discriminate
    end.
    cbn [bind] in H. injection H as <-. cbn.
    destruct (get (firstn 2 (splitOn PIPE line)) 1) as [[|x right]|].
    - injection Ec as <-. discriminate.
    - exact (addTech_some _ _ _ Ec).
    - injection Ec as <-. discriminate. }
  destruct (test reUrlStart line).
  { destruct (ensureCurrent (current st)); [|discriminate].
    cbn [bind must] in H. injection H as <-. discriminate. }
  destruct (str_eqb line [BULLET] && (i + 1 <? length lines)).
  { destruct (ensureCurrent (current st)); [|discriminate].
    cbn [bind must] in H.
    destruct (get lines (i + 1)); [|discriminate].
    cbn [bind must] in H. injection H as <-. discriminate. }
  destruct (startsWith [BULLET; SPACE] line).
  { destruct (ensureCurrent (current st)); [|discriminate].
    cbn [bind must] in H. injection H as <-. discriminate. }
  destruct (bulletsStarted st
            && match current st with
               | Some p => 0 <? length (orNil (bullets p))
               | None => false
               end).
  { destruct (current st) as [p|]; [|discriminate].
    cbn [bind must] in H.
    destruct (bullets p) as [bs|]; [|discriminate]. cbn [bind must] in H.
    destruct (get bs (length bs - 1)); [|discriminate].
    cbn [bind must] in H. injection H as <-. discriminate. }
  destruct (looksLikeTech line).
  { destruct (addTech line (current st)) as [cur| |] eqn:Ea; try discriminate.
    cbn [bind] in H. injection H as <-. exact (addTech_some _ _ _ Ea). }
  destruct (ensureCurrent (current st)); [|discriminate].
  cbn [bind must] in H. injection H as <-. discriminate.
Qed.

Lemma projectLoop_opens :
  forall fuel (lines : list str) i st st',
    projectLoop fuel lines i st = Ok st' ->
    current st <> None -> current st' <> None.
Proof.
  induction fuel as [|f IH]; intros lines i st st' H Hj; [discriminate|].
  cbn [projectLoop] in H. destruct (i <? length lines).
  - destruct (projectStep lines i st) as [c| |] eqn:Ec; try discriminate.
    cbn [bind] in H.
    pose proof (projectStep_opens _ _ _ _ Ec (or_introl Hj)) as Hc.
    destruct c as [i' st1|st1]; cbn [stateOf] in Hc.
    + exact (IH _ _ _ _ H Hc).
    + injection H as <-. exact Hc.
  - injection H as <-. exact Hj.
Qed.

Lemma projectLoop_S :
  forall f (lines : list str) i st,
    projectLoop (S f) lines i st
    = if i <? length lines then
        c <- projectStep lines i st ;;
        match c with
        | Break st' => Ok st'
        | Continue i' st' => projectLoop f lines (i' + 1) st'
        end
      else Ok st.
Proof. reflexivity. Qed.

Lemma dedup_nonempty :
  forall l : list ProjectEntry, l <> [] -> dedup l <> [].
Proof.
  intros l Hl E. pose proof (dedup_names l) as H. rewrite E in H.
  destruct l as [|p l]; [contradiction|]. discriminate.
Qed.

(** X26: the project extractor returns no entry exactly when the section
    has no non-blank line or its first non-blank line reads OTHERS (in any
    letter case): any other first line opens a project. *)
Theorem X26_projects_empty_iff :
  forall section : str,
    exists r,
      extractProjects section = Ok r
      /\ (r = []
          <-> sectionLines section = []
              \/ exists l rest,
                   sectionLines section = l :: rest
                   /\ sameIgnoringCase l (lit "OTHERS")).
Proof.
  intros section. destruct (extractProjects_total section) as (r & Hr).
  exists r. split; [exact Hr|]. unfold extractProjects in Hr.
  destruct (sectionLines section) as [|l rest] eqn:El.
  - cbn in Hr. injection Hr as <-.
    split; [intros _; left; reflexivity | reflexivity].
  - destruct (projectLoop _ _ _ _) as [st| |] eqn:Eloop; try discriminate.
    cbn [bind] in Hr. injection Hr as <-.
    rewrite projectLoop_S in Eloop.
    change (0 <? length (l :: rest)) with true in Eloop. cbv iota in Eloop.
    destruct (projectStep (l :: rest) 0 _) as [c| |] eqn:Ec;
      try discriminate.
    cbn [bind] in Eloop.
    destruct (test reOthers l) eqn:Eo.
    + assert (Hc : c = Break {| items := []; current := None;
                                bulletsStarted := false |}).
      { unfold projectStep in Ec. cbn [get nth_error bind must] in Ec.
        rewrite Eo in Ec. injection Ec as <-. reflexivity. }
      subst c. injection Eloop as <-.
      split; [|reflexivity].
      intros _. right. exists l, rest. split; [reflexivity|].
      apply anchored_literal_iff. exact Eo.
    + assert (Hc : current (stateOf c) <> None).
      { apply (projectStep_opens _ _ _ _ Ec). right.
        exists l. split; [reflexivity | exact Eo]. }
      assert (Hst : current st <> None).
      { destruct c as [i' st1|st1]; cbn [stateOf] in Hc.
        - exact (projectLoop_opens _ _ _ _ _ Eloop Hc).
        - injection Eloop as <-. exact Hc. }
      split.
      * intros E. exfalso. apply (dedup_nonempty (pushCurrent st)); [|exact E].
        unfold pushCurrent. destruct (current st); [|contradiction].
        destruct (items st); discriminate.
      * intros [E|(l' & rest' & E & Hl)]; [discriminate|].
        injection E as <- <-. apply anchored_literal_iff in Hl.
        unfold reOthers in Eo. unfold anchored in Hl. congruence.
Qed.
